(** * pdinklag/random-permutation: a shallow embedding and its properties

    The development follows the layering of the C++ sources:

    - [math_utils.hpp]: [pow2], [isqrt_floor], [isqrt_ceil], [is_prime],
      [prime_predecessor];
    - [random_permutation.hpp] / [random_permutation.cpp]: the table
      [common_universes], [prev_prime_3mod4], the class [RandomPermutation]
      with [permute] and [operator()], and its nested [Iterator];
    - [generate.cpp]: [main] of the command-line tool, with its checking
      loop and its output loop.

    Every [uint64_t] is a [Z] in [[0, 2^64)]; each arithmetic operation of the
    source that can leave that range is followed by an explicit [wrap64].
    Loops whose trip count is not a piece of data are written with a [fuel]
    argument and return [None] when it runs out; the theorems then show which
    fuel is enough. *)

From Stdlib Require Import ZArith List Lia Bool Znumtheory Zpow_facts Permutation FinFun.

Import ListNotations.

Local Open Scope Z_scope.

(** ** 64-bit unsigned arithmetic *)

Definition wrap64 (z : Z) : Z := z mod 2 ^ 64.

Definition wrap128 (z : Z) : Z := z mod 2 ^ 128.

Definition UINT64_MAX : Z := 2 ^ 64 - 1.

(** [bool] converted to an integer, as C++ does in [sm + (lg * lg <= cur)]. *)
Definition b2z (b : bool) : Z := if b then 1 else 0.

(** A tiny option monad for the fuel-bounded loops. *)
Definition bind {A B : Type} (m : option A) (k : A -> option B) : option B :=
  match m with
  | Some a => k a
  | None => None
  end.

Notation "x <- m ;; k" := (bind m (fun x => k))
  (at level 61, m at next level, right associativity).

(** ** math_utils.hpp *)

(** [constexpr uint64_t pow2(int x) { return uint64_t(1) << x; }] *)
Definition pow2 (x : Z) : Z := wrap64 (Z.shiftl 1 x).

(** [std::bit_width]: the number of bits needed to write [x], 0 for 0. *)
Definition bit_width (x : Z) : Z := if x =? 0 then 0 else Z.log2 x + 1.

(** The body of [while(e--)]: [e'] is the value of [e] seen inside the body,
    that is the tested value minus one. *)
Fixpoint isqrt_loop (e : nat) (x r : Z) : Z :=
  match e with
  | O => r
  | S e' =>
      let cur := Z.shiftr x (wrap64 (Z.shiftl (Z.of_nat e') 1)) in
      let sm := wrap64 (Z.shiftl r 1) in
      let lg := wrap64 (sm + 1) in
      isqrt_loop e' x (wrap64 (sm + b2z (wrap64 (lg * lg) <=? cur)))
  end.

Definition isqrt_floor (x : Z) : Z :=
  if x <? 4 then b2z (x >? 0)
  else
    let e := Z.shiftr (bit_width x) 1 in
    isqrt_loop (Z.to_nat e) x 1.

Definition isqrt_ceil (x : Z) : Z :=
  let r := isqrt_floor x in
  wrap64 (r + b2z (wrap64 (r * r) <? x)).

Definition SMALL_PRIMES : list Z :=
  [1;2;3;5;7;11;13;17;19;23;29;31;37;41;43;47;53;59;61;67;71;73;79;83;89;97;101;
   103;107;109;113;127;131;137;139;149;151;157;163;167;173;179;181;191;193;197;199;
   211;223;227;229;233;239;241;251].

Definition NUM_SMALL_PRIMES : nat := 55.

(** What a loop of [is_prime] does when it stops: it either executed
    [return b], or fell through to the code after it with the current [i]. *)
Inductive flow : Type :=
| Return (b : bool)
| Next (i : Z).

(** [while(i <= m && j < NUM_SMALL_PRIMES - 1)
       { if((p % i) == 0) return false; i = SMALL_PRIMES[++j]; }] *)
Fixpoint small_primes_loop (fuel : nat) (p m i : Z) (j : nat) : option flow :=
  match fuel with
  | O => None
  | S fuel' =>
      if (i <=? m) && (j <? NUM_SMALL_PRIMES - 1)%nat then
        if p mod i =? 0 then Some (Return false)
        else small_primes_loop fuel' p m (nth (S j) SMALL_PRIMES 0) (S j)
      else Some (Next i)
  end.

(** [while(i <= m)
       { if(((p % i) == 0) || (p % (i+2) == 0)) return false; i += 6ULL; }
     return true;] *)
Fixpoint wheel_loop (fuel : nat) (p m i : Z) : option bool :=
  match fuel with
  | O => None
  | S fuel' =>
      if i <=? m then
        if (p mod i =? 0) || (p mod wrap64 (i + 2) =? 0) then Some false
        else wheel_loop fuel' p m (wrap64 (i + 6))
      else Some true
  end.

Definition is_prime (fuel : nat) (p : Z) : option bool :=
  if p mod 2 =? 0 then Some false
  else
    let m := isqrt_ceil p in
    f <- small_primes_loop fuel p m (nth 2 SMALL_PRIMES 0) 2 ;;
    match f with
    | Return b => Some b
    | Next i =>
        let i := wrap64 (5 + wrap64 (wrap64 (i - 5) / 6 * 6)) in
        wheel_loop fuel p m i
    end.

(** [while(!is_prime(p)) p -= 2; return p;] *)
Fixpoint prime_predecessor_loop (fuel : nat) (p : Z) : option Z :=
  match fuel with
  | O => None
  | S fuel' =>
      b <- is_prime fuel' p ;;
      if negb b then prime_predecessor_loop fuel' (wrap64 (p - 2))
      else Some p
  end.

Definition prime_predecessor (fuel : nat) (p : Z) : option Z :=
  if p =? 0 then Some 0
  else if p =? 2 then Some 2
  else
    let p := if p mod 2 =? 0 then wrap64 (p - 1) else p in
    prime_predecessor_loop fuel p.

(** ** random_permutation.hpp *)

Record CommonUniverse : Type := mkCommonUniverse { cu_universe : Z; cu_prime : Z }.

Definition common_universes : list CommonUniverse :=
  [ mkCommonUniverse (pow2 16 - 2) (pow2 16 - 17);
    mkCommonUniverse (pow2 16 - 1) (pow2 16 - 17);
    mkCommonUniverse (pow2 24 - 2) (pow2 24 - 17);
    mkCommonUniverse (pow2 24 - 1) (pow2 24 - 17);
    mkCommonUniverse (pow2 32 - 2) (pow2 32 - 5);
    mkCommonUniverse (pow2 32 - 1) (pow2 32 - 5);
    mkCommonUniverse (pow2 40 - 2) (pow2 40 - 213);
    mkCommonUniverse (pow2 40 - 1) (pow2 40 - 213);
    mkCommonUniverse (pow2 48 - 2) (pow2 48 - 65);
    mkCommonUniverse (pow2 48 - 1) (pow2 48 - 65);
    mkCommonUniverse (pow2 56 - 2) (pow2 56 - 5);
    mkCommonUniverse (pow2 56 - 1) (pow2 56 - 5);
    mkCommonUniverse (pow2 63 - 2) (pow2 63 - 25);
    mkCommonUniverse (pow2 63 - 1) (pow2 63 - 25);
    mkCommonUniverse (UINT64_MAX - 1) 0xFFFFFFFFFFFFFF43;
    mkCommonUniverse UINT64_MAX 0xFFFFFFFFFFFFFF43;
    mkCommonUniverse 0 0 ].

Definition SHUFFLE1 : Z := 0x9696594B6A5936B2.

Definition SHUFFLE2 : Z := 0xD2165B4B66592AD6.

(** [for(unsigned i = 0; common_universes[i].prime > 0; i++)
       if(universe == common_universes[i].universe) return common_universes[i].prime;]
    The scan stops at the first entry whose prime is 0 (the sentinel); [None]
    means the loop was left without returning. *)
Fixpoint common_lookup (tbl : list CommonUniverse) (universe : Z) : option Z :=
  match tbl with
  | [] => None
  | c :: rest =>
      if cu_prime c >? 0 then
        if universe =? cu_universe c then Some (cu_prime c)
        else common_lookup rest universe
      else None
  end.

(** [while((p & 3ULL) != 3ULL) p = prime_predecessor(p - 1); return p;] *)
Fixpoint prev_prime_3mod4_loop (fuel : nat) (p : Z) : option Z :=
  match fuel with
  | O => None
  | S fuel' =>
      if negb (Z.land p 3 =? 3) then
        q <- prime_predecessor fuel' (wrap64 (p - 1)) ;;
        prev_prime_3mod4_loop fuel' q
      else Some p
  end.

Definition prev_prime_3mod4 (fuel : nat) (universe : Z) : option Z :=
  match common_lookup common_universes universe with
  | Some p => Some p
  | None =>
      p <- prime_predecessor fuel universe ;;
      prev_prime_3mod4_loop fuel p
  end.

Record RandomPermutation : Type := mkRandomPermutation {
  universe_ : Z;
  seed_ : Z;
  prime_ : Z
}.

(** [RandomPermutation() : universe_(1), seed_(0), prime_(0)] *)
Definition RandomPermutation_default : RandomPermutation :=
  mkRandomPermutation 1 0 0.

(** [RandomPermutation(universe, seed)] *)
Definition RandomPermutation_new (fuel : nat) (universe seed : Z)
  : option RandomPermutation :=
  p <- prev_prime_3mod4 fuel universe ;;
  Some (mkRandomPermutation universe (Z.lxor (Z.lxor seed SHUFFLE1) SHUFFLE2) p).

Definition permute (P : RandomPermutation) (x : Z) : Z :=
  if x >=? prime_ P then x
  else
    let r := wrap64 (wrap128 (x * x) mod prime_ P) in
    if x <=? Z.shiftr (prime_ P) 1 then r else wrap64 (prime_ P - r).

(** [operator()]: the remainder by [universe_] is undefined for a zero
    divisor, which the model reports as [None]. *)
Definition permute_index (P : RandomPermutation) (i : Z) : option Z :=
  if universe_ P =? 0 then None
  else Some (permute P (wrap64 (seed_ P + permute P i) mod universe_ P)).

(** *** The nested class Iterator *)

Record Iterator : Type := mkIterator {
  perm_ : RandomPermutation;
  x_ : Z;
  overflow_ : bool
}.

(** [Iterator(perm, x) : perm_(&perm), x_(x), overflow_(x_ > perm.universe_)] *)
Definition Iterator_new (P : RandomPermutation) (x : Z) : Iterator :=
  mkIterator P x (x >? universe_ P).

Definition begin_ (P : RandomPermutation) : Iterator := Iterator_new P 0.

Definition at_ (P : RandomPermutation) (i : Z) : Iterator := Iterator_new P i.

Definition end_ (P : RandomPermutation) : Iterator :=
  mkIterator P (wrap64 (universe_ P + 1)) true.

Definition RandomPermutation_eqb (P Q : RandomPermutation) : bool :=
  (universe_ P =? universe_ Q) && (seed_ P =? seed_ Q) && (prime_ P =? prime_ Q).

(** The defaulted [operator==]: member-wise comparison.  Two cursors of the
    claims always point to the same permutation object, which the model
    compares by value. *)
Definition Iterator_eqb (a b : Iterator) : bool :=
  RandomPermutation_eqb (perm_ a) (perm_ b) && (x_ a =? x_ b)
  && Bool.eqb (overflow_ a) (overflow_ b).

(** [operator*] *)
Definition deref (it : Iterator) : option Z := permute_index (perm_ it) (x_ it).

(** [operator++]: [overflow_ = (x_ == perm_->universe_); ++x_;] *)
Definition incr (it : Iterator) : Iterator :=
  mkIterator (perm_ it) (wrap64 (x_ it + 1)) (x_ it =? universe_ (perm_ it)).

(** [for(auto it = first; it != last; ++it) visit(it)]: the cursors that are
    dereferenced, in order. *)
Fixpoint iterate (fuel : nat) (it last : Iterator) : option (list Iterator) :=
  match fuel with
  | O => None
  | S fuel' =>
      if Iterator_eqb it last then Some []
      else rest <- iterate fuel' (incr it) last ;; Some (it :: rest)
  end.

(** ** Auxiliary notions used by the statements and proofs *)

(** The [j]-th entry of [SMALL_PRIMES]. *)
Definition small_prime (j : nat) : Z := nth j SMALL_PRIMES 0.

(** Boolean checks over the table, decided by evaluation: the entries of
    index 2 to 54 increase strictly, and every number in [[3, 250]] is an
    entry of index 2 to 53 or has a proper divisor among 2, 3, 5, 7, 11, 13. *)
Definition small_primes_sorted_check : bool :=
  forallb (fun j => small_prime j <? small_prime (S j)) (seq 2 52).

Definition small_primes_cover_check : bool :=
  forallb
    (fun q =>
       existsb (fun k => small_prime k =? q) (seq 2 52)
       || existsb (fun d => (d <? q) && (q mod d =? 0)) [2; 3; 5; 7; 11; 13])
    (map Z.of_nat (seq 3 248)).

(** The start of the 6k+-1 wheel, computed from the [i] the first loop of
    [is_prime] ends with: [i = 5ULL + ((i - 5ULL) / 6ULL) * 6ULL]. *)
Definition wheel_start (i : Z) : Z :=
  wrap64 (5 + wrap64 (wrap64 (i - 5) / 6 * 6)).

(** Primality by exhaustive trial division, for small concrete numbers. *)
Definition trial_prime (p : Z) : bool :=
  (1 <? p)
  && forallb (fun n => negb (p mod n =? 0)) (map Z.of_nat (seq 2 (Z.to_nat p - 2))).

(** "[is_prime] answers [b] on [p]", whatever fuel that takes. *)
Definition is_prime_says (p : Z) (b : bool) : Prop :=
  exists fuel, is_prime fuel p = Some b.

(** [is_prime] answers true on [q] within the given fuel. *)
Definition accepts (fuel : nat) (q : Z) : bool :=
  match is_prime fuel q with
  | Some true => true
  | _ => false
  end.

(** The downward distance from [p] to 7 on the 64-bit circle; it measures how
    long the prime searches can run, 7 being a number [is_prime] accepts that
    is 3 modulo 4. *)
Definition dist7 (p : Z) : Z := wrap64 (p - 7).

(** The integers [first, first + 1, ..., first + count - 1]. *)
Definition zrange (first count : nat) : list Z := map Z.of_nat (seq first count).

(** The product of a list of integers. *)
Definition zprod (l : list Z) : Z := fold_right Z.mul 1 l.

(** A map [f] is a bijection of [[0, n)] onto itself. *)
Definition bijection_on (n : Z) (f : Z -> Z) : Prop :=
  (forall x, 0 <= x < n -> 0 <= f x < n)
  /\ (forall x y, 0 <= x < n -> 0 <= y < n -> f x = f y -> x = y)
  /\ (forall y, 0 <= y < n -> exists x, 0 <= x < n /\ f x = y).

(** The query as the specification words it: the seed is the user's seed
    mixed with the two constants; the index goes through the inner step, the
    seed is added (a 64-bit addition, as every [u64] operation), the sum is
    reduced modulo the universe, and the inner step is applied again. *)
Definition seed_internal (seed : Z) : Z :=
  Z.lxor (Z.lxor seed 0x9696594B6A5936B2) 0xD2165B4B66592AD6.

Definition permute_index_spec (universe prime seed i : Z) : Z :=
  let P := mkRandomPermutation universe (seed_internal seed) prime in
  permute P (wrap64 (seed_internal seed + permute P i) mod universe).

(** The cursors at the indices [0, 1, ..., n - 1] of [P], none of them
    flagged as overflowed. *)
Definition cursors (P : RandomPermutation) (n : nat) : list Iterator :=
  map (fun k => mkIterator P k false) (zrange 0 n).

(** A check over the table, decided by evaluation: every entry before the
    sentinel holds a 64-bit universe and a number that is 3 modulo 4, at
    least 7 and at least 3 below its universe. *)
Definition common_universes_check : bool :=
  forallb
    (fun c =>
       (cu_prime c =? 0)
       || ((7 <=? cu_prime c) && (cu_prime c + 3 <=? cu_universe c)
           && (cu_prime c mod 4 =? 3) && (cu_universe c <? 2 ^ 64)))
    common_universes.

(** A Pocklington certificate for [N]: pairs [(q, a)] of a divisor [q] of
    [N - 1] and a base [a] with [a^(N-1) = 1] and [gcd (a^((N-1)/q) - 1) N = 1]
    modulo [N], the product of the [q] exceeding the square root of [N].
    The primality of each [q] is a separate obligation. *)
Definition pocklington_check (N : Z) (cert : list (Z * Z)) : bool :=
  (1 <? N)
  && forallb
       (fun qa =>
          let q := fst qa in
          let a := snd qa in
          (1 <? q) && ((N - 1) mod q =? 0)
          && (Zpow_mod a (N - 1) N =? 1)
          && (Z.gcd (Zpow_mod a ((N - 1) / q) N - 1) N =? 1))
       cert
  && (N <? (zprod (map fst cert) + 1) * (zprod (map fst cert) + 1)).

(** A list of distinct integers, decided by comparing each with the rest. *)
Fixpoint distinct (l : list Z) : bool :=
  match l with
  | [] => true
  | x :: rest => forallb (fun y => negb (x =? y)) rest && distinct rest
  end.

(** Every number in [(r, u]] that is [k] modulo [m] has a proper divisor in
    [ds]; with [m = 4], [k = 3] this rules out the primes that are 3 modulo
    4, with [m = 2], [k = 1] the odd primes. *)
Definition no_prime_check (m k r u : Z) (ds : list Z) : bool :=
  forallb
    (fun n =>
       negb (n mod m =? k)
       || existsb (fun d => (1 <? d) && (d <? n) && (n mod d =? 0)) ds)
    (map (fun j => r + Z.of_nat j) (seq 1 (Z.to_nat (u - r)))).

Definition no_3mod4_prime_check : Z -> Z -> list Z -> bool := no_prime_check 4 3.

(** For each prime of the table: the prime, the larger of its two universes,
    and divisors that rule out every candidate in between. *)
Definition table_certificates : list (Z * Z * list Z) :=
  [ (2 ^ 16 - 17, 2 ^ 16 - 1, [3; 7; 19]);
    (2 ^ 24 - 17, 2 ^ 24 - 1, [3; 11; 4093]);
    (2 ^ 32 - 5, 2 ^ 32 - 1, [3]);
    (2 ^ 40 - 213, 2 ^ 40 - 1,
     [3; 5; 7; 11; 13; 17; 23; 31; 37; 41; 59; 191; 251; 1447; 1579; 2069; 3019;
      6277; 15053; 28349; 358277; 601591]);
    (2 ^ 48 - 65, 2 ^ 48 - 1, [3; 5; 7; 13; 59; 149; 199; 1019; 1549]);
    (2 ^ 56 - 5, 2 ^ 56 - 1, [3]);
    (2 ^ 63 - 25, 2 ^ 63 - 1, [3; 5; 7; 13; 17]);
    (2 ^ 64 - 189, 2 ^ 64 - 1,
     [3; 5; 7; 11; 13; 17; 19; 29; 41; 61; 127; 827; 1291; 2617; 11071; 14879;
      17099; 363269; 119026343; 315781601; 3183958073]) ].

(** Every entry of [common_universes] before the sentinel is covered by a
    certificate: same prime, universe between the prime and the certified
    bound. *)
Definition table_covered_check : bool :=
  forallb
    (fun c =>
       (cu_prime c =? 0)
       || existsb
            (fun t =>
               (cu_prime c =? fst (fst t)) && (fst (fst t) <=? cu_universe c)
               && (cu_universe c <=? snd (fst t)))
            table_certificates)
    common_universes.

(** The search of [prev_prime_3mod4] that follows the table lookup:
    [uint64_t p = math::prime_predecessor(universe);
     while((p & 3ULL) != 3ULL) p = math::prime_predecessor(p - 1);] *)
Definition prev_prime_3mod4_search (fuel : nat) (universe : Z) : option Z :=
  p <- prime_predecessor fuel universe ;;
  prev_prime_3mod4_loop fuel p.

(** The cursors a loop from [at(k)] meets after the first: the [n] indices
    that follow [k] on the 64-bit circle, none of them flagged. *)
Definition cursors_after (P : RandomPermutation) (k : Z) (n : nat) : list Iterator :=
  map (fun j => mkIterator P (wrap64 (k + j)) false) (zrange 1 n).

(** ** generate.cpp *)

(** [b[j] = 1] on a [std::vector<bool>], for [j] inside the vector. *)
Fixpoint set_bit (j : nat) (b : list bool) : list bool :=
  match b, j with
  | [], _ => []
  | _ :: rest, O => true :: rest
  | x :: rest, S j' => x :: set_bit j' rest
  end.

(** How the checking loop of [main] ends: it runs to its end, or
    [assert(!b[j])] fails at index [i], or [b[j]] is read outside the vector
    at index [i], or [perm(i)] takes a remainder by zero; the last two are
    undefined in C++. *)
Inductive check_result : Type :=
| Checked
| AssertionFailed (i : Z)
| OutOfBounds (i : Z)
| DivisionByZero.

(** [for(uint64_t i = 0; i < u; i++) {
       const uint64_t j = perm(i); assert(!b[j]); b[j] = 1; }]
    over the indices [idx] that are still to come.  The vector
    [std::vector<bool> b(u)] is a list of [u] bits, all clear at first; its
    allocation is taken to succeed. *)
Fixpoint check_loop (perm : RandomPermutation) (idx : list Z) (b : list bool)
  : check_result :=
  match idx with
  | [] => Checked
  | i :: rest =>
      match permute_index perm i with
      | None => DivisionByZero
      | Some j =>
          if j <? Z.of_nat (length b) then
            if nth (Z.to_nat j) b false then AssertionFailed i
            else check_loop perm rest (set_bit (Z.to_nat j) b)
          else OutOfBounds i
      end
  end.

(** [for(uint64_t i = 0; i < num; i++) std::cout << perm(i) << std::endl;]:
    the numbers written, or [None] for a remainder by zero. *)
Fixpoint print_loop (perm : RandomPermutation) (idx : list Z) : option (list Z) :=
  match idx with
  | [] => Some []
  | i :: rest =>
      v <- permute_index perm i ;;
      out <- print_loop perm rest ;;
      Some (v :: out)
  end.

(** What a run of [main] leaves behind: it returns [status] after writing
    the numbers [out] to the standard output and, if [err], the diagnostic to
    the standard error; or a failed assertion at index [i] aborts it; or its
    behaviour is undefined. *)
Inductive outcome : Type :=
| Exit (status : Z) (out : list Z) (err : bool)
| Aborted (i : Z)
| UndefinedBehaviour.

(** [main] once the command line has been parsed into [u], [seed], [num]
    and [check] (a build with [NDEBUG] has no [check]: it is false there).
    [None] stands for a constructor that has not returned within the fuel. *)
Definition main (fuel : nat) (u seed num : Z) (check : bool) : option outcome :=
  if u <? num then Some (Exit (-1) [] true)
  else
    perm <- RandomPermutation_new fuel u seed ;;
    match (if check
           then check_loop perm (zrange 0 (Z.to_nat u)) (repeat false (Z.to_nat u))
           else Checked) with
    | Checked =>
        match print_loop perm (zrange 0 (Z.to_nat num)) with
        | Some out => Some (Exit 0 out false)
        | None => Some UndefinedBehaviour
        end
    | AssertionFailed i => Some (Aborted i)
    | OutOfBounds _ | DivisionByZero => Some UndefinedBehaviour
    end.

(** ** First evaluations *)

Example isqrt_floor_small :
  map isqrt_floor [0;1;2;3;4;5;7;8;9;15;16;17;24;25;31;32;63;64] = [0;1;1;1;2;2;2;4;4;4;4;4;4;5;5;8;8;8].
Proof. vm_compute. reflexivity. Qed.

Example is_prime_small :
  map (is_prime 60) [0; 1; 2; 3; 4; 5; 7; 9; 11; 251; 253; 257; 65519; 65521]
  = map Some [false; false; false; false; false; true; true; false; true; true;
              false; true; true; true].
Proof. vm_compute. reflexivity. Qed.

Example prime_predecessor_small :
  map (prime_predecessor 100) [0; 2; 5; 6; 7; 10; 12; 100; 65535]
  = map Some [0; 2; 5; 5; 7; 7; 11; 97; 65521].
Proof. vm_compute. reflexivity. Qed.

Example prev_prime_3mod4_small :
  map (prev_prime_3mod4 60) [7; 10; 11; 18; 100; 10007; 65535; 2 ^ 32 - 1; 2 ^ 64 - 1]
  = map Some [7; 7; 11; 11; 83; 10007; 65519; 2 ^ 32 - 5; 2 ^ 64 - 189].
Proof. vm_compute. reflexivity. Qed.

Example permute_index_100 :
  RandomPermutation_new 60 100 0 = Some (mkRandomPermutation 100 0x448002000C001C64 83)
  /\ map (permute_index (mkRandomPermutation 100 0x448002000C001C64 83)) [0; 1; 2; 3; 4; 99]
     = map Some [37; 11; 28; 41; 56; 65].
Proof. vm_compute. split; reflexivity. Qed.

(** ** Facts about the 64-bit wrap-around *)

Lemma wrap64_small z : 0 <= z < 2 ^ 64 -> wrap64 z = z.
Proof. intros H. unfold wrap64. now apply Z.mod_small. Qed.

Lemma wrap64_range z : 0 <= wrap64 z < 2 ^ 64.
Proof. unfold wrap64. apply Z.mod_pos_bound. lia. Qed.

Lemma wrap64_le z : 0 <= z -> wrap64 z <= z.
Proof. intros H. unfold wrap64. apply Z.mod_le; lia. Qed.

Lemma wrap128_small z : 0 <= z < 2 ^ 128 -> wrap128 z = z.
Proof. intros H. unfold wrap128. now apply Z.mod_small. Qed.

Lemma shiftl1 z : Z.shiftl z 1 = 2 * z.
Proof. rewrite Z.shiftl_mul_pow2 by lia. lia. Qed.

Lemma shiftr1 z : Z.shiftr z 1 = z / 2.
Proof. rewrite Z.shiftr_div_pow2 by lia. reflexivity. Qed.

Lemma wrap64_parity z : wrap64 z mod 2 = z mod 2.
Proof.
  unfold wrap64. apply Z.mod_mod_divide. exists (2 ^ 63). reflexivity.
Qed.

Lemma mod2_cases p : p mod 2 = 0 \/ p mod 2 = 1.
Proof. pose proof (Z.mod_pos_bound p 2 ltac:(lia)). lia. Qed.

(** ** The integer square roots: what the loops guarantee

    The digit-by-digit loop never ends below the true root: whatever the
    comparison [lg * lg <= cur] answers (its product may wrap), the invariant
    [cur < (r + 1)^2] is kept.  This one-sided bound is all [is_prime] needs. *)

Lemma isqrt_loop_spec (e : nat) :
  forall x r,
    0 <= x -> 0 <= r ->
    Z.of_nat e <= 32 ->
    (r + 1) * 2 ^ Z.of_nat e <= 2 ^ 40 ->
    x / 4 ^ Z.of_nat e < (r + 1) * (r + 1) ->
    let rf := isqrt_loop e x r in
    0 <= rf /\ rf + 1 <= (r + 1) * 2 ^ Z.of_nat e /\ x < (rf + 1) * (rf + 1).
Proof.
  induction e as [|e IH]; intros x r Hx Hr He Hsz Hinv; cbn zeta.
  - simpl isqrt_loop. change (Z.of_nat 0) with 0 in *.
    rewrite Z.pow_0_r in *. rewrite Z.div_1_r in Hinv. lia.
  - cbn [isqrt_loop].
    rewrite Nat2Z.inj_succ in *.
    rewrite Z.pow_succ_r in Hsz, Hinv by lia.
    assert (Hp : 0 < 2 ^ Z.of_nat e) by (apply Z.pow_pos_nonneg; lia).
    assert (Hp4 : 0 < 4 ^ Z.of_nat e) by (apply Z.pow_pos_nonneg; lia).
    assert (Hr40 : r + 1 <= 2 ^ 39) by nia.
    rewrite !shiftl1.
    rewrite (wrap64_small (2 * Z.of_nat e)) by lia.
    rewrite Z.shiftr_div_pow2 by lia.
    replace (2 ^ (2 * Z.of_nat e)) with (4 ^ Z.of_nat e)
      by (rewrite Z.pow_mul_r by lia; reflexivity).
    rewrite (wrap64_small (2 * r)) by lia.
    rewrite (wrap64_small (2 * r + 1)) by lia.
    set (cur := x / 4 ^ Z.of_nat e) in *.
    assert (Hcur : cur / 4 < (r + 1) * (r + 1)).
    { unfold cur. rewrite Z.div_div by lia.
      now rewrite (Z.mul_comm (4 ^ Z.of_nat e) 4). }
    assert (Hcur0 : 0 <= cur) by (unfold cur; apply Z.div_pos; lia).
    set (b := wrap64 ((2 * r + 1) * (2 * r + 1)) <=? cur).
    assert (Hb : 0 <= b2z b <= 1) by (destruct b; simpl; lia).
    rewrite (wrap64_small (2 * r + b2z b)) by lia.
    assert (Hnew : cur < (2 * r + b2z b + 1) * (2 * r + b2z b + 1)).
    { destruct b eqn:Eb; simpl b2z.
      - pose proof (Z.div_mod cur 4 ltac:(lia)) as Hdm.
        pose proof (Z.mod_pos_bound cur 4 ltac:(lia)). nia.
      - unfold b in Eb. apply Z.leb_gt in Eb.
        pose proof (wrap64_le ((2 * r + 1) * (2 * r + 1)) ltac:(nia)). lia. }
    specialize (IH x (2 * r + b2z b) Hx ltac:(lia) ltac:(lia) ltac:(nia) Hnew).
    cbn zeta in IH. destruct IH as (H1 & H2 & H3).
    repeat split; try assumption.
    rewrite Z.pow_succ_r by lia.
    assert ((2 * r + b2z b + 1) * 2 ^ Z.of_nat e <= (2 * r + 2) * 2 ^ Z.of_nat e)
      by (apply Z.mul_le_mono_nonneg_r; lia).
    lia.
Qed.

Lemma bit_width_spec x :
  0 < x -> 2 ^ (bit_width x - 1) <= x < 2 ^ bit_width x.
Proof.
  intros Hx. unfold bit_width.
  destruct (Z.eqb_spec x 0) as [-> | _]; [lia|].
  replace (Z.log2 x + 1 - 1) with (Z.log2 x) by lia.
  pose proof (Z.log2_spec x Hx). 
  replace (Z.log2 x + 1) with (Z.succ (Z.log2 x)) by lia. assumption.
Qed.

Lemma bit_width_u64 x : 0 < x < 2 ^ 64 -> 1 <= bit_width x <= 64.
Proof.
  intros Hx. unfold bit_width.
  destruct (Z.eqb_spec x 0) as [-> | _]; [lia|].
  pose proof (Z.log2_nonneg x).
  assert (Z.log2 x < 64) by (apply Z.log2_lt_pow2; lia). lia.
Qed.

(** For every 64-bit [x], [isqrt_floor x] is at least the true floor of the
    square root, and for [x >= 4] it is below [sqrt (8 x)]. *)
Lemma isqrt_floor_upper x :
  0 <= x < 2 ^ 64 ->
  let r := isqrt_floor x in
  0 <= r <= 2 ^ 33 /\ x < (r + 1) * (r + 1) /\ (4 <= x -> (r + 1) * (r + 1) <= 8 * x).
Proof.
  intros Hx. cbn zeta. unfold isqrt_floor.
  destruct (Z.ltb_spec x 4) as [Hlt|Hge].
  - assert (Hc : x = 0 \/ x = 1 \/ x = 2 \/ x = 3) by lia.
    destruct Hc as [-> | [-> | [-> | ->]]]; vm_compute; repeat split; congruence.
  - rewrite shiftr1.
    pose proof (bit_width_spec x ltac:(lia)) as [Hlo Hhi].
    pose proof (bit_width_u64 x ltac:(lia)) as Hbw.
    set (w := bit_width x) in *.
    set (e := w / 2).
    assert (He : 0 <= e <= 32) by (unfold e; split; [apply Z.div_pos|apply Z.div_le_upper_bound]; lia).
    assert (Hw : 2 * e <= w <= 2 * e + 1).
    { unfold e. pose proof (Z.div_mod w 2 ltac:(lia)).
      pose proof (Z.mod_pos_bound w 2 ltac:(lia)). lia. }
    assert (H4e : 4 ^ e = 2 ^ (2 * e)) by (rewrite Z.pow_mul_r by lia; reflexivity).
    assert (Hpe : 0 < 2 ^ e) by (apply Z.pow_pos_nonneg; lia).
    assert (Hpe32 : 2 ^ e <= 2 ^ 32) by (apply Z.pow_le_mono_r; lia).
    assert (Hxe : x < 2 * 4 ^ e).
    { rewrite H4e. replace (2 * 2 ^ (2 * e)) with (2 ^ (2 * e + 1))
        by (rewrite Z.pow_add_r by lia; lia).
      eapply Z.lt_le_trans; [exact Hhi|]. apply Z.pow_le_mono_r; lia. }
    assert (H4x : 4 ^ e <= 2 * x).
    { rewrite H4e.
      replace (2 * x) with (2 ^ 1 * x) by lia.
      apply Z.le_trans with (2 ^ 1 * 2 ^ (w - 1)); [|nia].
      rewrite <- Z.pow_add_r by lia. apply Z.pow_le_mono_r; lia. }
    pose proof (isqrt_loop_spec (Z.to_nat e) x 1) as Hl.
    rewrite Z2Nat.id in Hl by lia.
    specialize (Hl ltac:(lia) ltac:(lia) ltac:(lia) ltac:(lia)).
    assert (Hd : x / 4 ^ e < (1 + 1) * (1 + 1)).
    { apply Z.div_lt_upper_bound; lia. }
    specialize (Hl Hd). cbn zeta in Hl. destruct Hl as (H1 & H2 & H3).
    set (r := isqrt_loop (Z.to_nat e) x 1) in *.
    split; [lia|split; [lia|]].
    intros _. assert ((r + 1) * (r + 1) <= (2 * 2 ^ e) * (2 * 2 ^ e)) by nia.
    assert (2 ^ e * 2 ^ e = 4 ^ e).
    { rewrite H4e. rewrite <- Z.pow_add_r by lia. f_equal. lia. }
    nia.
Qed.

(** [isqrt_ceil x] is never below the true ceiling of the square root. *)
Lemma isqrt_ceil_upper x :
  0 <= x < 2 ^ 64 ->
  let m := isqrt_ceil x in
  0 <= m <= 2 ^ 33 + 1 /\ x <= m * m /\ (4 <= x -> m * m <= 8 * x).
Proof.
  intros Hx. cbn zeta. unfold isqrt_ceil.
  pose proof (isqrt_floor_upper x Hx) as Hf. cbn zeta in Hf.
  destruct Hf as (Hr & Hlt & H8).
  set (r := isqrt_floor x) in *.
  set (b := wrap64 (r * r) <? x).
  assert (Hb : 0 <= b2z b <= 1) by (destruct b; simpl; lia).
  rewrite (wrap64_small (r + b2z b)) by lia.
  destruct b eqn:Eb; simpl b2z.
  - split; [lia|split; [lia|]]. intros H4. specialize (H8 H4). lia.
  - unfold b in Eb. apply Z.ltb_ge in Eb.
    pose proof (wrap64_le (r * r) ltac:(nia)).
    rewrite Z.add_0_r. split; [lia|split; [lia|]].
    intros H4. specialize (H8 H4). nia.
Qed.

(** When the bit width of [x] is odd the loop starts from the right digit,
    no product wraps, and the result is the exact root. *)
Lemma isqrt_loop_exact (e : nat) :
  forall x r,
    0 <= x < 2 ^ 63 -> 0 <= r -> Z.of_nat e <= 32 ->
    r * r <= x / 4 ^ Z.of_nat e < (r + 1) * (r + 1) ->
    let rf := isqrt_loop e x r in
    0 <= rf /\ rf * rf <= x < (rf + 1) * (rf + 1).
Proof.
  induction e as [|e IH]; intros x r Hx Hr He Hinv; cbn zeta.
  - simpl isqrt_loop. change (Z.of_nat 0) with 0 in *.
    rewrite Z.pow_0_r, Z.div_1_r in Hinv. lia.
  - cbn [isqrt_loop].
    rewrite Nat2Z.inj_succ in Hinv, He. rewrite Z.pow_succ_r in Hinv by lia.
    assert (Hp4 : 0 < 4 ^ Z.of_nat e) by (apply Z.pow_pos_nonneg; lia).
    set (cur := x / 4 ^ Z.of_nat e) in *.
    assert (Hcur4 : x / (4 * 4 ^ Z.of_nat e) = cur / 4).
    { unfold cur. rewrite Z.div_div by lia. now rewrite (Z.mul_comm (4 ^ Z.of_nat e) 4). }
    rewrite Hcur4 in Hinv.
    assert (Hcur : 0 <= cur <= x).
    { unfold cur. split; [apply Z.div_pos; lia|]. apply Z.div_le_upper_bound; nia. }
    pose proof (Z.div_mod cur 4 ltac:(lia)) as Hdm.
    pose proof (Z.mod_pos_bound cur 4 ltac:(lia)) as Hmb.
    assert (Hr32 : r < 2 ^ 32) by nia.
    rewrite !shiftl1.
    rewrite (wrap64_small (2 * Z.of_nat e)) by lia.
    rewrite Z.shiftr_div_pow2 by lia.
    replace (2 ^ (2 * Z.of_nat e)) with (4 ^ Z.of_nat e)
      by (rewrite Z.pow_mul_r by lia; reflexivity).
    fold cur.
    rewrite (wrap64_small (2 * r)) by lia.
    rewrite (wrap64_small (2 * r + 1)) by lia.
    rewrite (wrap64_small ((2 * r + 1) * (2 * r + 1))) by nia.
    destruct (Z.leb_spec ((2 * r + 1) * (2 * r + 1)) cur) as [Hb|Hb]; simpl b2z.
    + rewrite (wrap64_small (2 * r + 1)) by lia.
      apply IH; [assumption|lia|lia|]. fold cur. nia.
    + rewrite Z.add_0_r, (wrap64_small (2 * r)) by lia.
      apply IH; [assumption|lia|lia|]. fold cur. nia.
Qed.

(** [isqrt_floor] and [isqrt_ceil] are exact on every [x] below 4 and on
    every [x] whose bit width is odd. *)
Lemma isqrt_exact_odd_width x :
  0 <= x < 2 ^ 64 -> x < 4 \/ bit_width x mod 2 = 1 ->
  let r := isqrt_floor x in
  let m := isqrt_ceil x in
  (0 <= r /\ r * r <= x < (r + 1) * (r + 1))
  /\ (0 <= m /\ x <= m * m /\ forall k, 0 <= k -> x <= k * k -> m <= k).
Proof.
  intros Hx Hodd. cbn zeta.
  assert (Hfloor : 0 <= isqrt_floor x
                   /\ isqrt_floor x * isqrt_floor x <= x
                      < (isqrt_floor x + 1) * (isqrt_floor x + 1)).
  { unfold isqrt_floor. destruct (Z.ltb_spec x 4) as [Hlt|Hge].
    - assert (Hc : x = 0 \/ x = 1 \/ x = 2 \/ x = 3) by lia.
      destruct Hc as [-> | [-> | [-> | ->]]]; vm_compute; repeat split; congruence.
    - destruct Hodd as [|Hodd]; [lia|].
      rewrite shiftr1.
      pose proof (bit_width_spec x ltac:(lia)) as [Hlo Hhi].
      pose proof (bit_width_u64 x ltac:(lia)) as Hbw.
      set (w := bit_width x) in *. set (e := w / 2).
      pose proof (Z.div_mod w 2 ltac:(lia)) as Hw. rewrite Hodd in Hw. fold e in Hw.
      assert (He : 0 <= e <= 31) by lia.
      assert (H4e : 4 ^ e = 2 ^ (2 * e)) by (rewrite Z.pow_mul_r by lia; reflexivity).
      assert (Hp : 0 < 4 ^ e) by (apply Z.pow_pos_nonneg; lia).
      replace (w - 1) with (2 * e) in Hlo by lia.
      replace w with (2 * e + 1) in Hhi by lia.
      rewrite Z.pow_add_r in Hhi by lia. rewrite <- H4e in Hlo, Hhi.
      assert (Hx63 : x < 2 ^ 63).
      { eapply Z.lt_le_trans; [exact Hhi|].
        rewrite H4e. rewrite <- Z.pow_add_r by lia. apply Z.pow_le_mono_r; lia. }
      pose proof (isqrt_loop_exact (Z.to_nat e) x 1) as Hl.
      rewrite Z2Nat.id in Hl by lia.
      apply Hl; [lia|lia|lia|].
      assert (Hd : x / 4 ^ e = 1).
      { symmetry. apply Z.div_unique with (x - 4 ^ e); lia. }
      rewrite Hd. lia. }
  split; [exact Hfloor|].
  destruct Hfloor as (Hr0 & Hlo & Hhi). unfold isqrt_ceil.
  set (r := isqrt_floor x) in *.
  assert (Hr33 : r < 2 ^ 32) by nia.
  rewrite (wrap64_small (r * r)) by nia.
  destruct (Z.ltb_spec (r * r) x) as [Hlt|Hge]; simpl b2z.
  - rewrite wrap64_small by lia. split; [lia|]. split; [lia|].
    intros k Hk Hxk. destruct (Z_le_gt_dec (r + 1) k); [assumption|nia].
  - rewrite Z.add_0_r, wrap64_small by lia. split; [lia|]. split; [lia|].
    intros k Hk Hxk. destruct (Z_le_gt_dec r k); [assumption|nia].
Qed.

(** C9, at the input 8 (and at 2^64 - 1): [isqrt_floor 8] is 4, whose square
    exceeds 8, and [isqrt_ceil 8] is 4 although 3 * 3 already reaches 8. *)
Theorem isqrt_8_overshoots :
  isqrt_floor 8 = 4 /\ 8 < isqrt_floor 8 * isqrt_floor 8
  /\ isqrt_ceil 8 = 4 /\ 8 <= 3 * 3
  /\ isqrt_floor (2 ^ 64 - 1) = 2 ^ 32 + 1
  /\ 2 ^ 64 - 1 < isqrt_floor (2 ^ 64 - 1) * isqrt_floor (2 ^ 64 - 1).
Proof. vm_compute. repeat split; congruence. Qed.

(** ** Elementary number theory over [Z] *)

Lemma mod0_divide a d : 0 < d -> (a mod d = 0 <-> (d | a)).
Proof. intros Hd. apply Z.mod_divide. lia. Qed.

Lemma divisor_not_prime p d : 1 < d < p -> (d | p) -> ~ Z.prime p.
Proof. intros Hd Hdiv [_ Hp]. exact (Hp d Hd Hdiv). Qed.

Lemma not_prime_divisor p :
  1 < p -> ~ Z.prime p -> exists n, 1 < n < p /\ (n | p).
Proof.
  intros Hp Hnp. apply not_prime_divide; [assumption|].
  intros H. apply Hnp. now apply prime_alt.
Qed.

Lemma prime_decidable p : Z.prime p \/ ~ Z.prime p.
Proof.
  destruct (prime_dec p) as [H|H]; [left|right].
  - now apply prime_alt.
  - intros H'. apply H. now apply prime_alt.
Qed.

(** Every number above 1 has a prime divisor. *)
Lemma prime_divisor_exists :
  forall a, 0 <= a -> 1 < a -> exists q, Z.prime q /\ (q | a).
Proof.
  intros a Ha. pattern a. apply Z_lt_induction; [|exact Ha].
  clear a Ha. intros a IH Ha.
  destruct (prime_decidable a) as [Hp|Hnp].
  - exists a. split; [assumption|apply Z.divide_refl].
  - destruct (not_prime_divisor a Ha Hnp) as (n & Hn & Hdiv).
    destruct (IH n ltac:(lia) ltac:(lia)) as (q & Hq & Hqn).
    exists q. split; [assumption|]. eapply Z.divide_trans; eassumption.
Qed.

(** A composite number has a prime divisor not above its square root. *)
Lemma small_prime_factor p n :
  1 < n < p -> (n | p) -> exists q, Z.prime q /\ (q | p) /\ q * q <= p.
Proof.
  intros Hn [c Hc].
  assert (Hc1 : 1 < c) by nia.
  destruct (Z_le_gt_dec n c) as [Hle|Hgt].
  - destruct (prime_divisor_exists n ltac:(lia) ltac:(lia)) as (q & Hq & Hqn).
    exists q. split; [assumption|]. split.
    + apply Z.divide_trans with n; [assumption|]. exists c. assumption.
    + pose proof (Z.prime_ge_2 q Hq).
      assert (q <= n) by (apply Z.divide_pos_le; [lia|assumption]). nia.
  - destruct (prime_divisor_exists c ltac:(lia) ltac:(lia)) as (q & Hq & Hqc).
    exists q. split; [assumption|]. split.
    + apply Z.divide_trans with c; [assumption|]. exists n. lia.
    + pose proof (Z.prime_ge_2 q Hq).
      assert (q <= c) by (apply Z.divide_pos_le; [lia|assumption]). nia.
Qed.

Lemma prime_not_divisible q d : Z.prime q -> 1 < d < q -> ~ (d | q).
Proof. intros [_ H] Hd. now apply H. Qed.

(** A prime above 3 is 1 or 5 modulo 6. *)
Lemma prime_mod6 q : Z.prime q -> 3 < q -> q mod 6 = 1 \/ q mod 6 = 5.
Proof.
  intros Hq H3.
  pose proof (Z.mod_pos_bound q 6 ltac:(lia)) as Hb.
  pose proof (Z.div_mod q 6 ltac:(lia)) as Hdm.
  pose proof (prime_not_divisible q 2 Hq ltac:(lia)) as H2.
  pose proof (prime_not_divisible q 3 Hq ltac:(lia)) as H3'.
  assert (Hc : q mod 6 = 0 \/ q mod 6 = 1 \/ q mod 6 = 2 \/ q mod 6 = 3
               \/ q mod 6 = 4 \/ q mod 6 = 5) by lia.
  destruct Hc as [H|[H|[H|[H|[H|H]]]]]; try (now left); try (now right).
  - exfalso. apply H2. exists (3 * (q / 6)). lia.
  - exfalso. apply H2. exists (3 * (q / 6) + 1). lia.
  - exfalso. apply H3'. exists (2 * (q / 6) + 1). lia.
  - exfalso. apply H2. exists (3 * (q / 6) + 2). lia.
Qed.

Lemma prime_gt2_odd q : Z.prime q -> 2 < q -> q mod 2 = 1.
Proof.
  intros Hq H2. destruct (mod2_cases q) as [He|]; [exfalso|assumption].
  apply (prime_not_divisible q 2 Hq ltac:(lia)).
  apply mod0_divide; [lia|assumption].
Qed.

Lemma trial_prime_sound p : trial_prime p = true -> Z.prime p.
Proof.
  unfold trial_prime. intros H. apply andb_true_iff in H. destruct H as [H1 H].
  apply Z.ltb_lt in H1. rewrite forallb_forall in H.
  split; [assumption|]. intros n Hn Hdiv.
  specialize (H n).
  assert (Hin : In n (map Z.of_nat (seq 2 (Z.to_nat p - 2)))).
  { apply in_map_iff. exists (Z.to_nat n). split; [lia|]. apply in_seq. lia. }
  specialize (H Hin). apply negb_true_iff in H. apply Z.eqb_neq in H.
  apply H. apply mod0_divide; [lia|assumption].
Qed.

(** ** Lists of consecutive integers, and the pigeonhole principle on them *)

Lemma in_zrange first count z :
  In z (zrange first count) <-> Z.of_nat first <= z < Z.of_nat first + Z.of_nat count.
Proof.
  unfold zrange. rewrite in_map_iff. split.
  - intros (k & <- & Hk). apply in_seq in Hk. lia.
  - intros Hz. exists (Z.to_nat z). split; [lia|]. apply in_seq. lia.
Qed.

Lemma zrange_length first count : length (zrange first count) = count.
Proof. unfold zrange. now rewrite length_map, length_seq. Qed.

Lemma zrange_NoDup first count : NoDup (zrange first count).
Proof.
  unfold zrange. apply Injective_map_NoDup.
  - intros x y H. lia.
  - apply seq_NoDup.
Qed.

(** An injective map of [[0, n)] into itself is onto. *)
Lemma injective_on_surjective n (f : Z -> Z) :
  0 <= n ->
  (forall x, 0 <= x < n -> 0 <= f x < n) ->
  (forall x y, 0 <= x < n -> 0 <= y < n -> f x = f y -> x = y) ->
  forall y, 0 <= y < n -> exists x, 0 <= x < n /\ f x = y.
Proof.
  intros Hn Hrange Hinj y Hy.
  set (l := zrange 0 (Z.to_nat n)).
  assert (Hl : forall z, In z l <-> 0 <= z < n).
  { intros z. unfold l. rewrite in_zrange. lia. }
  assert (Hnd : NoDup (map f l)).
  { apply Injective_map_NoDup_in; [|apply zrange_NoDup].
    intros a b Ha Hb. apply Hinj; now apply Hl. }
  assert (Hincl : incl (map f l) l).
  { intros z Hz. apply in_map_iff in Hz. destruct Hz as (a & <- & Ha).
    apply Hl. apply Hrange. now apply Hl. }
  assert (Hlen : (length l <= length (map f l))%nat) by (rewrite length_map; lia).
  pose proof (NoDup_length_incl Hnd Hlen Hincl) as Hback.
  specialize (Hback y (proj2 (Hl y) Hy)).
  apply in_map_iff in Hback. destruct Hback as (x & Hx & Hin).
  exists x. split; [now apply Hl|assumption].
Qed.

(** ** Fermat's little theorem, and -1 as a non-residue *)

Lemma zprod_perm l l' : Permutation l l' -> zprod l = zprod l'.
Proof.
  induction 1 as [|x l l' _ IH|x y l|l l' l'' _ IH1 _ IH2];
    unfold zprod in *; cbn [fold_right].
  - reflexivity.
  - now rewrite IH.
  - ring.
  - congruence.
Qed.

Section Fermat.
Variable p : Z.
Hypothesis Hp : Z.prime p.

Let p_pos : 0 < p.
Proof. pose proof (Z.prime_ge_2 p Hp). lia. Qed.

Lemma zprod_scaled a l :
  zprod (map (fun k => (a * k) mod p) l) mod p
  = (a ^ Z.of_nat (length l) * zprod l) mod p.
Proof.
  induction l as [|k l IH]; unfold zprod in *; cbn [map fold_right length].
  - reflexivity.
  - rewrite Nat2Z.inj_succ, Z.pow_succ_r by lia.
    rewrite Zmult_mod_idemp_l.
    rewrite <- Zmult_mod_idemp_r, IH, Zmult_mod_idemp_r.
    f_equal. ring.
Qed.

Lemma zprod_not_divisible l :
  (forall k, In k l -> ~ (p | k)) -> ~ (p | zprod l).
Proof.
  induction l as [|k l IH]; intros Hall; unfold zprod in *; cbn [fold_right].
  - intros H. apply Z.divide_1_r in H. pose proof (Z.prime_ge_2 p Hp). lia.
  - intros H. apply Z.divide_prime_mul in H; [|assumption].
    destruct H as [H|H].
    + exact (Hall k (or_introl eq_refl) H).
    + apply IH; [|assumption]. intros k' Hk'. apply Hall. now right.
Qed.

Lemma small_not_divisible k : 1 <= k < p -> ~ (p | k).
Proof.
  intros Hk H. apply Z.divide_pos_le in H; lia.
Qed.

Lemma mod_eq_divide a b : a mod p = b mod p -> (p | a - b).
Proof.
  intros H. apply Z.mod_divide; [lia|].
  rewrite Zminus_mod, H, Z.sub_diag. reflexivity.
Qed.

Lemma divide_mod_eq a b : (p | a - b) -> a mod p = b mod p.
Proof.
  intros [c Hc]. replace a with (b + c * p) by lia.
  now rewrite Z.mod_add by lia.
Qed.

(** Multiplication by a unit permutes the non-zero residues. *)
Lemma scaled_residues_perm a :
  ~ (p | a) ->
  Permutation (map (fun k => (a * k) mod p) (zrange 1 (Z.to_nat (p - 1))))
              (zrange 1 (Z.to_nat (p - 1))).
Proof.
  intros Ha. set (l := zrange 1 (Z.to_nat (p - 1))).
  assert (Hl : forall z, In z l <-> 1 <= z < p).
  { intros z. unfold l. rewrite in_zrange. lia. }
  apply NoDup_Permutation_bis.
  - apply Injective_map_NoDup_in; [|apply zrange_NoDup].
    intros x y Hx Hy Heq. apply Hl in Hx. apply Hl in Hy.
    apply mod_eq_divide in Heq.
    replace (a * x - a * y) with (a * (x - y)) in Heq by ring.
    apply Z.divide_prime_mul in Heq; [|assumption].
    destruct Heq as [H|H]; [contradiction|].
    destruct (Z.eq_dec x y) as [|Hne]; [assumption|exfalso].
    apply Z.absle_divide in H; lia.
  - rewrite length_map. lia.
  - intros z Hz. apply in_map_iff in Hz. destruct Hz as (k & <- & Hk).
    apply Hl in Hk. apply Hl.
    pose proof (Z.mod_pos_bound (a * k) p p_pos).
    assert ((a * k) mod p <> 0).
    { intros H0. apply Z.mod_divide in H0; [|lia].
      apply Z.divide_prime_mul in H0; [|assumption].
      destruct H0 as [H0|H0]; [contradiction|].
      exact (small_not_divisible k Hk H0). }
    lia.
Qed.

Theorem fermat_little a : ~ (p | a) -> a ^ (p - 1) mod p = 1 mod p.
Proof.
  intros Ha.
  pose proof (zprod_perm _ _ (scaled_residues_perm a Ha)) as Hperm.
  pose proof (zprod_scaled a (zrange 1 (Z.to_nat (p - 1)))) as Hsc.
  rewrite Hperm, zrange_length in Hsc.
  rewrite Z2Nat.id in Hsc by lia.
  set (l := zrange 1 (Z.to_nat (p - 1))) in *.
  assert (Hnd : ~ (p | zprod l)).
  { apply zprod_not_divisible. intros k Hk. unfold l in Hk.
    apply in_zrange in Hk. apply small_not_divisible. lia. }
  assert (Hdiv : (p | zprod l * (a ^ (p - 1) - 1))).
  { replace (zprod l * (a ^ (p - 1) - 1)) with (a ^ (p - 1) * zprod l - zprod l) by ring.
    apply mod_eq_divide. now symmetry. }
  apply Z.divide_prime_mul in Hdiv; [|assumption].
  destruct Hdiv as [H|H]; [contradiction|].
  now apply divide_mod_eq.
Qed.

Hypothesis Hp3 : p mod 4 = 3.

(** For a prime that is 3 modulo 4, a sum of two squares is divisible by
    [p] only if both numbers are. *)
Lemma sum_of_squares_divisible x y :
  (p | x * x + y * y) -> (p | y).
Proof.
  intros Hsum.
  destruct (Z.BoolSpec_divide p y) as [Hy|Hy]; [assumption|exfalso].
  assert (Hx : ~ (p | x)).
  { intros Hx. apply Hy.
    assert (Hyy : (p | y * y)).
    { replace (y * y) with ((x * x + y * y) - x * x) by ring.
      apply Z.divide_sub_r; [assumption|]. now apply Z.divide_mul_l. }
    apply Z.divide_prime_mul in Hyy; [|assumption]. tauto. }
  pose proof (fermat_little x Hx) as Fx.
  pose proof (fermat_little y Hy) as Fy.
  pose proof (Z.div_mod p 4 ltac:(lia)) as Hdm.
  set (k := p / 4) in *. assert (Hk : 0 <= k) by (unfold k; apply Z.div_pos; lia).
  assert (Hexp : p - 1 = 2 * (2 * k + 1)) by lia.
  rewrite Hexp in Fx, Fy.
  rewrite Z.pow_mul_r in Fx, Fy by lia.
  replace (x ^ 2) with (x * x) in Fx by ring.
  replace (y ^ 2) with (y * y) in Fy by ring.
  assert (Hcong : (x * x) mod p = (- (y * y)) mod p).
  { apply divide_mod_eq. replace (x * x - - (y * y)) with (x * x + y * y) by ring.
    assumption. }
  rewrite <- Z.mod_pow_l, Hcong, Z.mod_pow_l in Fx.
  rewrite Z.pow_opp_odd in Fx by (exists k; lia).
  assert (Hneg : (p | 1 + 1)).
  { replace (1 + 1) with ((y * y) ^ (2 * k + 1) - - (y * y) ^ (2 * k + 1)
                          - ((y * y) ^ (2 * k + 1) - 1)
                          - ((y * y) ^ (2 * k + 1) - 1)) by ring.
    apply Z.divide_sub_r; [apply Z.divide_sub_r|].
    - apply mod_eq_divide. congruence.
    - now apply mod_eq_divide.
    - now apply mod_eq_divide. }
  apply Z.divide_pos_le in Hneg; lia.
Qed.
End Fermat.

(** ** Primality certificates (Pocklington's criterion)

    The primes of the table are too large for trial division inside the
    proof; they are certified from the factorisation of [N - 1]. *)

Lemma pow_mod_one_mul p a n k :
  0 < p -> 0 <= n -> 0 <= k ->
  a ^ n mod p = 1 mod p -> a ^ (n * k) mod p = 1 mod p.
Proof.
  intros Hp Hn Hk H1. rewrite Z.pow_mul_r by assumption.
  rewrite <- Z.mod_pow_l, H1, Z.mod_pow_l, Z.pow_1_l by assumption. reflexivity.
Qed.

Lemma pow_mod_one_gcd p a :
  1 < p ->
  forall n, 0 <= n ->
    forall m, 0 <= m ->
      a ^ m mod p = 1 mod p -> a ^ n mod p = 1 mod p ->
      a ^ Z.gcd m n mod p = 1 mod p.
Proof.
  intros Hp n Hn. pattern n. apply Z_lt_induction; [|exact Hn].
  clear n Hn. intros n IH m Hm H1m H1n.
  destruct (Z.eq_dec n 0) as [->|Hn0].
  - rewrite Z.gcd_0_r, Z.abs_eq by assumption. assumption.
  - destruct (Z_lt_ge_dec n 0) as [Hneg|Hpos].
    { exfalso. rewrite Z.pow_neg_r in H1n by assumption.
      rewrite Z.mod_0_l, Z.mod_small in H1n by lia. discriminate. }
    pose proof (Z.mod_pos_bound m n ltac:(lia)) as Hr.
    pose proof (Z.div_mod m n ltac:(lia)) as Hdm.
    assert (Hq : 0 <= m / n) by (apply Z.div_pos; lia).
    assert (H1r : a ^ (m mod n) mod p = 1 mod p).
    { rewrite Hdm in H1m at 1. rewrite Z.pow_add_r in H1m by nia.
      rewrite <- Zmult_mod_idemp_l in H1m.
      rewrite (pow_mod_one_mul p a n (m / n) ltac:(lia) ltac:(lia) Hq H1n) in H1m.
      rewrite Zmult_mod_idemp_l, Z.mul_1_l in H1m. assumption. }
    specialize (IH (m mod n) ltac:(lia) n ltac:(lia) H1n H1r).
    rewrite (Z.gcd_comm n (m mod n)), Z.gcd_mod, Z.gcd_comm in IH by lia.
    assumption.
Qed.

Lemma coprime_mul_divide a b c :
  Z.gcd a b = 1 -> (a | c) -> (b | c) -> (a * b | c).
Proof.
  intros Hg Ha [k ->]. 
  assert (Hak : (a | k)).
  { apply (Z.gauss a b k); [|assumption]. now rewrite Z.mul_comm. }
  destruct Hak as [j ->]. exists j. ring.
Qed.

Lemma zprod_primes_divide qs M :
  NoDup qs -> Forall Z.prime qs -> (forall q, In q qs -> (q | M)) ->
  (zprod qs | M).
Proof.
  induction qs as [|q qs IH]; intros Hnd Hpr Hdiv; unfold zprod in *; cbn [fold_right].
  - apply Z.divide_1_l.
  - inversion Hnd as [|? ? Hnotin Hnd']; subst.
    inversion Hpr as [|? ? Hq Hpr']; subst.
    apply coprime_mul_divide.
    + apply Z.coprime_prime_l; [assumption|].
      apply (zprod_not_divisible q Hq). intros k Hk Hqk.
      rewrite Forall_forall in Hpr'.
      apply (Z.divide_prime_prime q k Hq (Hpr' k Hk)) in Hqk. subst k. contradiction.
    + apply Hdiv. now left.
    + apply IH; [assumption|assumption|]. intros q' Hq'. apply Hdiv. now right.
Qed.

Section Pocklington.
Variable N : Z.
Hypothesis HN : 1 < N.

(** One pair of the certificate forces [q] into [p - 1] for every prime
    divisor [p] of [N]. *)
Lemma pocklington_step p q a :
  Z.prime p -> (p | N) -> Z.prime q -> (q | N - 1) ->
  a ^ (N - 1) mod N = 1 ->
  Z.gcd (a ^ ((N - 1) / q) mod N - 1) N = 1 ->
  (q | p - 1).
Proof.
  intros Hp HpN Hq HqN Hone Hgcd.
  pose proof (Z.prime_ge_2 p Hp) as Hp2. pose proof (Z.prime_ge_2 q Hq) as Hq2.
  destruct (Z.BoolSpec_divide q (p - 1)) as [|Hndiv]; [assumption|exfalso].
  set (M := (N - 1) / q).
  assert (HM : N - 1 = q * M).
  { unfold M. destruct HqN as [c Hc]. rewrite Hc, Z.div_mul by lia. ring. }
  assert (HM0 : 0 < M) by nia.
  assert (H1p : a ^ (N - 1) mod p = 1 mod p).
  { apply (divide_mod_eq p Hp). apply Z.divide_trans with N; [assumption|].
    apply Z.mod_divide; [lia|].
    rewrite Zminus_mod, Hone. rewrite (Z.mod_small 1 N) by lia. reflexivity. }
  assert (Hpa : ~ (p | a)).
  { intros Hpa.
    assert (Hz : a ^ (N - 1) mod p = 0).
    { apply Z.mod_divide; [lia|].
      replace (N - 1) with (Z.succ (N - 2)) by lia.
      rewrite Z.pow_succ_r by lia. now apply Z.divide_mul_l. }
    rewrite Hz, Z.mod_small in H1p by lia. discriminate. }
  pose proof (fermat_little p Hp a Hpa) as Hf.
  pose proof (pow_mod_one_gcd p a ltac:(lia) (p - 1) ltac:(lia) (N - 1) ltac:(lia) H1p Hf)
    as Hg.
  set (g := Z.gcd (N - 1) (p - 1)) in *.
  assert (Hg0 : 0 < g).
  { pose proof (Z.gcd_nonneg (N - 1) (p - 1)).
    destruct (Z.eq_dec g 0) as [Hz|]; [|unfold g in *; lia].
    unfold g in Hz. apply Z.gcd_eq_0_l in Hz. lia. }
  assert (Hqg : ~ (q | g)).
  { intros H. apply Hndiv. apply Z.divide_trans with g; [assumption|].
    apply Z.gcd_divide_r. }
  assert (HgM : (g | M)).
  { apply (Z.gauss g q M).
    - rewrite <- HM. apply Z.gcd_divide_l.
    - rewrite Z.gcd_comm. now apply Z.coprime_prime_l. }
  destruct HgM as [k Hk].
  assert (Hk0 : 0 <= k) by nia.
  assert (H1M : a ^ M mod p = 1 mod p).
  { rewrite Hk, Z.mul_comm. apply pow_mod_one_mul; [lia|lia|assumption|assumption]. }
  assert (Hdiv1 : (p | a ^ M mod N - 1)).
  { rewrite Z.mod_eq by lia.
    replace (a ^ M - N * (a ^ M / N) - 1) with ((a ^ M - 1) - N * (a ^ M / N)) by ring.
    apply Z.divide_sub_r.
    - now apply (mod_eq_divide p Hp).
    - now apply Z.divide_mul_l. }
  pose proof (Z.gcd_greatest _ _ _ Hdiv1 HpN) as Hbad.
  fold M in Hgcd. rewrite Hgcd in Hbad.
  apply Z.divide_1_r in Hbad. lia.
Qed.

Theorem pocklington qs :
  NoDup qs -> Forall Z.prime qs ->
  (forall q, In q qs ->
             (q | N - 1) /\
             exists a, a ^ (N - 1) mod N = 1
                       /\ Z.gcd (a ^ ((N - 1) / q) mod N - 1) N = 1) ->
  N < (zprod qs + 1) * (zprod qs + 1) ->
  Z.prime N.
Proof.
  intros Hnd Hpr Hcert Hbig.
  destruct (prime_decidable N) as [|Hnp]; [assumption|exfalso].
  destruct (not_prime_divisor N HN Hnp) as (n & Hn & HnN).
  destruct (small_prime_factor N n Hn HnN) as (p & Hp & HpN & Hpp).
  pose proof (Z.prime_ge_2 p Hp) as Hp2.
  assert (HF : (zprod qs | p - 1)).
  { apply zprod_primes_divide; [assumption|assumption|].
    intros q Hq. destruct (Hcert q Hq) as (HqN & a & H1 & H2).
    rewrite Forall_forall in Hpr.
    exact (pocklington_step p q a Hp HpN (Hpr q Hq) HqN H1 H2). }
  assert (HF0 : 0 <= zprod qs).
  { clear - Hpr. induction qs as [|q l IH]; unfold zprod in *; cbn [fold_right]; [lia|].
    inversion Hpr as [|? ? Hq Hl]; subst.
    pose proof (Z.prime_ge_2 q Hq). specialize (IH Hl). nia. }
  apply Z.divide_pos_le in HF; [|lia]. nia.
Qed.
End Pocklington.

Lemma distinct_NoDup l : distinct l = true -> NoDup l.
Proof.
  induction l as [|x l IH]; cbn [distinct]; intros H; [constructor|].
  apply andb_true_iff in H. destruct H as [Hx Hl].
  constructor; [|now apply IH].
  intros Hin. rewrite forallb_forall in Hx. specialize (Hx x Hin).
  rewrite Z.eqb_refl in Hx. discriminate.
Qed.

(** The checker is sound: a checked certificate whose [q] are distinct
    primes proves [N] prime. *)
Lemma pocklington_check_sound N cert :
  pocklington_check N cert = true ->
  distinct (map fst cert) = true ->
  Forall Z.prime (map fst cert) ->
  Z.prime N.
Proof.
  unfold pocklington_check. intros Hc Hd Hpr.
  apply andb_true_iff in Hc. destruct Hc as [Hc Hbig].
  apply andb_true_iff in Hc. destruct Hc as [HN Hall].
  apply Z.ltb_lt in HN. apply Z.ltb_lt in Hbig.
  rewrite forallb_forall in Hall.
  apply (pocklington N HN (map fst cert)); [now apply distinct_NoDup|assumption| |assumption].
  intros q Hq. apply in_map_iff in Hq. destruct Hq as ([q' a] & <- & Hin).
  specialize (Hall _ Hin). cbn [fst snd] in *.
  repeat (apply andb_true_iff in Hall; destruct Hall as [Hall ?]).
  repeat match goal with
         | H : (_ <? _) = true |- _ => apply Z.ltb_lt in H
         | H : (_ =? _) = true |- _ => apply Z.eqb_eq in H
         end.
  rewrite !Zpow_mod_correct in * by lia.
  split.
  - apply Z.mod_divide; [lia|assumption].
  - exists a. split; assumption.
Qed.

Lemma no_prime_check_sound m k r u ds :
  no_prime_check m k r u ds = true ->
  forall q, Z.prime q -> q mod m = k -> r < q <= u -> False.
Proof.
  unfold no_prime_check. intros Hc q Hq Hk Hr.
  rewrite forallb_forall in Hc. specialize (Hc q).
  assert (Hin : In q (map (fun j => r + Z.of_nat j) (seq 1 (Z.to_nat (u - r))))).
  { apply in_map_iff. exists (Z.to_nat (q - r)). split; [lia|]. apply in_seq. lia. }
  specialize (Hc Hin). rewrite Hk, Z.eqb_refl in Hc. cbn [negb orb] in Hc.
  apply existsb_exists in Hc. destruct Hc as (d & _ & Hd).
  apply andb_true_iff in Hd. destruct Hd as [Hd Hmod].
  apply andb_true_iff in Hd. destruct Hd as [H1 H2].
  apply Z.ltb_lt in H1. apply Z.ltb_lt in H2. apply Z.eqb_eq in Hmod.
  apply (prime_not_divisible q d Hq ltac:(lia)).
  apply mod0_divide; [lia|assumption].
Qed.

Lemma no_3mod4_prime_check_sound r u ds :
  no_3mod4_prime_check r u ds = true ->
  forall q, Z.prime q -> q mod 4 = 3 -> r < q <= u -> False.
Proof. apply no_prime_check_sound. Qed.

(** ** The table of small primes *)

Lemma small_primes_sorted : small_primes_sorted_check = true.
Proof. vm_compute. reflexivity. Qed.

Lemma small_primes_cover : small_primes_cover_check = true.
Proof. vm_compute. reflexivity. Qed.

Lemma small_prime_step j :
  (2 <= j <= 53)%nat -> small_prime j < small_prime (S j).
Proof.
  intros Hj. pose proof small_primes_sorted as H.
  unfold small_primes_sorted_check in H. rewrite forallb_forall in H.
  apply Z.ltb_lt. apply H. apply in_seq. lia.
Qed.

Lemma small_prime_mono j k :
  (2 <= j)%nat -> (j <= k)%nat -> (k <= 54)%nat -> small_prime j <= small_prime k.
Proof.
  intros Hj Hjk Hk. induction Hjk as [|k Hjk IH].
  - lia.
  - specialize (IH ltac:(lia)).
    pose proof (small_prime_step k ltac:(lia)). lia.
Qed.

Lemma small_prime_2 : small_prime 2 = 3.
Proof. reflexivity. Qed.

Lemma small_prime_54 : small_prime 54 = 251.
Proof. reflexivity. Qed.

Lemma small_prime_bounds j :
  (2 <= j <= 54)%nat -> 3 <= small_prime j <= 251.
Proof.
  intros Hj.
  pose proof (small_prime_mono 2 j ltac:(lia) ltac:(lia) ltac:(lia)) as H1.
  pose proof (small_prime_mono j 54 ltac:(lia) ltac:(lia) ltac:(lia)) as H2.
  rewrite small_prime_2 in H1. rewrite small_prime_54 in H2. lia.
Qed.

Lemma small_prime_ge5 j :
  (3 <= j <= 54)%nat -> 5 <= small_prime j.
Proof.
  intros Hj.
  pose proof (small_prime_mono 3 j ltac:(lia) ltac:(lia) ltac:(lia)) as H1.
  change (small_prime 3) with 5 in H1. lia.
Qed.

(** Every prime in [[3, 250]] is one of the table entries the first loop of
    [is_prime] can test. *)
Lemma small_prime_cover q :
  Z.prime q -> 3 <= q < 251 ->
  exists k, (2 <= k <= 53)%nat /\ small_prime k = q.
Proof.
  intros Hq Hr. pose proof small_primes_cover as H.
  unfold small_primes_cover_check in H. rewrite forallb_forall in H.
  specialize (H q).
  assert (Hin : In q (map Z.of_nat (seq 3 248))).
  { apply in_map_iff. exists (Z.to_nat q). split; [lia|]. apply in_seq. lia. }
  specialize (H Hin). apply orb_true_iff in H. destruct H as [H|H].
  - apply existsb_exists in H. destruct H as (k & Hk & Hkq).
    apply in_seq in Hk. apply Z.eqb_eq in Hkq. exists k. split; [lia|assumption].
  - exfalso. apply existsb_exists in H. destruct H as (d & Hd & Hdq).
    apply andb_true_iff in Hdq. destruct Hdq as [Hlt Hmod].
    apply Z.ltb_lt in Hlt. apply Z.eqb_eq in Hmod.
    assert (Hd1 : 1 < d) by (simpl in Hd; lia).
    apply mod0_divide in Hmod; [|lia].
    exact (prime_not_divisible q d Hq ltac:(lia) Hmod).
Qed.

(** ** The two loops of [is_prime] *)

Lemma small_primes_loop_spec fuel p m :
  forall j f,
    (2 <= j <= 54)%nat ->
    small_primes_loop fuel p m (small_prime j) j = Some f ->
    match f with
    | Return b =>
        b = false /\
        exists k, (j <= k < 54)%nat /\ small_prime k <= m /\ p mod small_prime k = 0
    | Next i =>
        exists j', (j <= j' <= 54)%nat /\ i = small_prime j' /\
                   (forall k, (j <= k < j')%nat -> p mod small_prime k <> 0) /\
                   (j' = 54%nat \/ m < small_prime j')
    end.
Proof.
  induction fuel as [|fuel IH]; intros j f Hj Hrun; [discriminate|].
  cbn [small_primes_loop] in Hrun.
  change (NUM_SMALL_PRIMES - 1)%nat with 54%nat in Hrun.
  change (nth (S j) SMALL_PRIMES 0) with (small_prime (S j)) in Hrun.
  destruct (Z.leb_spec (small_prime j) m) as [Hle|Hgt];
    destruct (Nat.ltb_spec j 54) as [Hlt|Hge]; cbn [andb] in Hrun.
  - destruct (Z.eqb_spec (p mod small_prime j) 0) as [Hdiv|Hndiv].
    + injection Hrun as <-. split; [reflexivity|].
      exists j. repeat split; try lia; assumption.
    + specialize (IH (S j) f ltac:(lia) Hrun).
      destruct f as [b|i].
      * destruct IH as (Hb & k & Hk & Hkm & Hkp).
        split; [assumption|]. exists k. repeat split; try lia; assumption.
      * destruct IH as (j' & Hj' & Hi & Hall & Hstop).
        exists j'. split; [lia|]. split; [assumption|]. split; [|assumption].
        intros k Hk. destruct (Nat.eq_dec k j) as [->|Hne]; [assumption|].
        apply Hall. lia.
  - injection Hrun as <-. exists j. split; [lia|]. split; [reflexivity|].
    split; [intros k Hk; lia|]. left. lia.
  - injection Hrun as <-. exists j. split; [lia|]. split; [reflexivity|].
    split; [intros k Hk; lia|]. right. assumption.
  - injection Hrun as <-. exists j. split; [lia|]. split; [reflexivity|].
    split; [intros k Hk; lia|]. right. assumption.
Qed.

Lemma small_primes_loop_total fuel p m :
  forall j, (2 <= j <= 54)%nat -> (55 - j <= fuel)%nat ->
            exists f, small_primes_loop fuel p m (small_prime j) j = Some f.
Proof.
  induction fuel as [|fuel IH]; intros j Hj Hfuel; [lia|].
  cbn [small_primes_loop].
  change (NUM_SMALL_PRIMES - 1)%nat with 54%nat.
  change (nth (S j) SMALL_PRIMES 0) with (small_prime (S j)).
  destruct ((small_prime j <=? m) && (j <? 54)%nat) eqn:Ec; [|eauto].
  destruct (p mod small_prime j =? 0); [eauto|].
  apply andb_true_iff in Ec. destruct Ec as [_ Ej]. apply Nat.ltb_lt in Ej.
  apply IH; lia.
Qed.

Lemma small_primes_loop_mono fuel p m :
  forall i j f fuel',
    small_primes_loop fuel p m i j = Some f -> (fuel <= fuel')%nat ->
    small_primes_loop fuel' p m i j = Some f.
Proof.
  induction fuel as [|fuel IH]; intros i j f fuel' Hrun Hle; [discriminate|].
  destruct fuel' as [|fuel']; [lia|].
  cbn [small_primes_loop] in *.
  destruct ((i <=? m) && (j <? NUM_SMALL_PRIMES - 1)%nat); [|assumption].
  destruct (p mod i =? 0); [assumption|].
  apply IH; [assumption|lia].
Qed.

Section Wheel.
Variables p m : Z.
Hypothesis Hm : m <= 2 ^ 64 - 9.

Lemma wheel_loop_true fuel :
  forall i, 0 <= i ->
    wheel_loop fuel p m i = Some true ->
    forall k, 0 <= k -> i + 6 * k <= m ->
              p mod (i + 6 * k) <> 0 /\ p mod (i + 6 * k + 2) <> 0.
Proof.
  induction fuel as [|fuel IH]; intros i Hi Hrun k Hk Hkm; [discriminate|].
  cbn [wheel_loop] in Hrun.
  destruct (Z.leb_spec i m) as [Hle|Hgt]; [|lia].
  rewrite (wrap64_small (i + 2)) in Hrun by lia.
  rewrite (wrap64_small (i + 6)) in Hrun by lia.
  destruct (Z.eqb_spec (p mod i) 0) as [|Hn1]; [discriminate|].
  destruct (Z.eqb_spec (p mod (i + 2)) 0) as [|Hn2]; [discriminate|].
  cbn [orb] in Hrun.
  destruct (Z.eq_dec k 0) as [->|Hk0].
  - replace (i + 6 * 0) with i by lia. split; assumption.
  - specialize (IH (i + 6) ltac:(lia) Hrun (k - 1) ltac:(lia) ltac:(lia)).
    replace (i + 6 + 6 * (k - 1)) with (i + 6 * k) in IH by lia. exact IH.
Qed.

Lemma wheel_loop_false fuel :
  forall i, 0 <= i ->
    wheel_loop fuel p m i = Some false ->
    exists d, i <= d <= m + 2 /\ p mod d = 0.
Proof.
  induction fuel as [|fuel IH]; intros i Hi Hrun; [discriminate|].
  cbn [wheel_loop] in Hrun.
  destruct (Z.leb_spec i m) as [Hle|Hgt]; [|discriminate].
  rewrite (wrap64_small (i + 2)) in Hrun by lia.
  rewrite (wrap64_small (i + 6)) in Hrun by lia.
  destruct (Z.eqb_spec (p mod i) 0) as [H1|Hn1].
  { exists i. split; [lia|assumption]. }
  destruct (Z.eqb_spec (p mod (i + 2)) 0) as [H2|Hn2].
  { exists (i + 2). split; [lia|assumption]. }
  cbn [orb] in Hrun.
  destruct (IH (i + 6) ltac:(lia) Hrun) as (d & Hd & Hdp).
  exists d. split; [lia|assumption].
Qed.

Lemma wheel_loop_total fuel :
  forall i, 0 <= i ->
    Z.max 0 (m + 1 - i) < Z.of_nat fuel ->
    exists b, wheel_loop fuel p m i = Some b.
Proof.
  induction fuel as [|fuel IH]; intros i Hi Hfuel; [lia|].
  cbn [wheel_loop].
  destruct (Z.leb_spec i m) as [Hle|Hgt]; [|eauto].
  rewrite (wrap64_small (i + 2)) by lia.
  rewrite (wrap64_small (i + 6)) by lia.
  destruct ((p mod i =? 0) || (p mod (i + 2) =? 0)); [eauto|].
  apply IH; lia.
Qed.
End Wheel.

Lemma wheel_loop_mono fuel p m :
  forall i b fuel',
    wheel_loop fuel p m i = Some b -> (fuel <= fuel')%nat ->
    wheel_loop fuel' p m i = Some b.
Proof.
  induction fuel as [|fuel IH]; intros i b fuel' Hrun Hle; [discriminate|].
  destruct fuel' as [|fuel']; [lia|].
  cbn [wheel_loop] in *.
  destruct (i <=? m); [|assumption].
  destruct ((p mod i =? 0) || (p mod wrap64 (i + 2) =? 0)); [assumption|].
  apply IH; [assumption|lia].
Qed.

Lemma wheel_start_3 : wheel_start 3 = 1.
Proof. vm_compute. reflexivity. Qed.

Lemma wheel_start_ge5 i :
  5 <= i <= 251 -> 5 <= wheel_start i <= i.
Proof.
  intros Hi. unfold wheel_start.
  rewrite (wrap64_small (i - 5)) by lia.
  pose proof (Z.div_mod (i - 5) 6 ltac:(lia)).
  pose proof (Z.mod_pos_bound (i - 5) 6 ltac:(lia)).
  assert (0 <= (i - 5) / 6) by (apply Z.div_pos; lia).
  rewrite (wrap64_small ((i - 5) / 6 * 6)) by lia.
  rewrite wrap64_small by lia. lia.
Qed.

Lemma wheel_start_251 : wheel_start 251 = 251.
Proof. vm_compute. reflexivity. Qed.

(** ** [is_prime]: termination, independence of the fuel *)

Lemma is_prime_unfold fuel p :
  is_prime fuel p =
  if p mod 2 =? 0 then Some false
  else
    f <- small_primes_loop fuel p (isqrt_ceil p) (small_prime 2) 2 ;;
    match f with
    | Return b => Some b
    | Next i => wheel_loop fuel p (isqrt_ceil p) (wheel_start i)
    end.
Proof. reflexivity. Qed.

Lemma is_prime_mono fuel fuel' p b :
  is_prime fuel p = Some b -> (fuel <= fuel')%nat -> is_prime fuel' p = Some b.
Proof.
  rewrite !is_prime_unfold. intros Hrun Hle.
  destruct (p mod 2 =? 0); [assumption|].
  destruct (small_primes_loop fuel p (isqrt_ceil p) (small_prime 2) 2) as [f|] eqn:Ef;
    [|discriminate].
  rewrite (small_primes_loop_mono _ _ _ _ _ _ _ Ef Hle).
  cbn [bind] in *. destruct f as [b'|i]; [assumption|].
  eapply wheel_loop_mono; eassumption.
Qed.

(** The answer of [is_prime] does not depend on the fuel it was given. *)
Lemma is_prime_det fuel1 fuel2 p b1 b2 :
  is_prime fuel1 p = Some b1 -> is_prime fuel2 p = Some b2 -> b1 = b2.
Proof.
  intros H1 H2.
  pose proof (is_prime_mono _ (Nat.max fuel1 fuel2) _ _ H1 ltac:(lia)) as H1'.
  pose proof (is_prime_mono _ (Nat.max fuel1 fuel2) _ _ H2 ltac:(lia)) as H2'.
  congruence.
Qed.

Lemma is_prime_even fuel p : p mod 2 = 0 -> is_prime fuel p = Some false.
Proof. intros H. rewrite is_prime_unfold, H. reflexivity. Qed.

(** [is_prime] always answers once the fuel exceeds its bound [m] on the
    trial divisors by the length of the table. *)
Lemma is_prime_total fuel p :
  0 <= p < 2 ^ 64 ->
  isqrt_ceil p + 55 <= Z.of_nat fuel ->
  exists b, is_prime fuel p = Some b.
Proof.
  intros Hp Hfuel. rewrite is_prime_unfold.
  destruct (p mod 2 =? 0); [eauto|].
  pose proof (isqrt_ceil_upper p Hp) as Hm. cbn zeta in Hm.
  destruct Hm as (Hm & _ & _).
  set (m := isqrt_ceil p) in *.
  destruct (small_primes_loop_total fuel p m 2 ltac:(lia) ltac:(lia)) as [f Hf].
  rewrite Hf. cbn [bind].
  pose proof (small_primes_loop_spec fuel p m 2 f ltac:(lia) Hf) as Hs.
  destruct f as [b|i]; [eauto|].
  destruct Hs as (j' & Hj' & -> & _ & _).
  apply wheel_loop_total; [lia| |].
  - unfold wheel_start. pose proof (wrap64_range (5 + wrap64 (wrap64 (small_prime j' - 5) / 6 * 6))). lia.
  - assert (1 <= wheel_start (small_prime j')).
    { destruct (Nat.eq_dec j' 2) as [->|Hne].
      - rewrite small_prime_2, wheel_start_3. lia.
      - pose proof (small_prime_ge5 j' ltac:(lia)).
        pose proof (small_prime_bounds j' ltac:(lia)).
        pose proof (wheel_start_ge5 (small_prime j') ltac:(lia)). lia. }
    lia.
Qed.

Lemma is_prime_says_det p b1 b2 :
  is_prime_says p b1 -> is_prime_says p b2 -> b1 = b2.
Proof. intros [f1 H1] [f2 H2]. eapply is_prime_det; eassumption. Qed.

Lemma is_prime_says_total p : 0 <= p < 2 ^ 64 -> exists b, is_prime_says p b.
Proof.
  intros Hp.
  destruct (is_prime_total (Z.to_nat (isqrt_ceil p + 55)) p Hp) as [b Hb].
  - pose proof (isqrt_ceil_upper p Hp) as Hm. cbn zeta in Hm. lia.
  - exists b. eexists. exact Hb.
Qed.

(** ** [is_prime]: correctness on every input other than 2 and 3 *)

Lemma is_prime_false_composite fuel p :
  12 <= p < 2 ^ 64 -> is_prime fuel p = Some false -> ~ Z.prime p.
Proof.
  intros Hp Hrun. rewrite is_prime_unfold in Hrun.
  destruct (Z.eqb_spec (p mod 2) 0) as [He|Hodd].
  { apply (divisor_not_prime p 2); [lia|]. apply mod0_divide; [lia|assumption]. }
  pose proof (isqrt_ceil_upper p ltac:(lia)) as Hm. cbn zeta in Hm.
  destruct Hm as (Hm & Hlo & Hhi). specialize (Hhi ltac:(lia)).
  set (m := isqrt_ceil p) in *.
  assert (Hm4 : 4 <= m) by nia.
  assert (Hmp : m + 2 < p) by nia.
  destruct (small_primes_loop fuel p m (small_prime 2) 2) as [f|] eqn:Ef;
    [|discriminate].
  cbn [bind] in Hrun.
  pose proof (small_primes_loop_spec fuel p m 2 f ltac:(lia) Ef) as Hs.
  destruct f as [b|i].
  - destruct Hs as (_ & k & Hk & Hkm & Hkp).
    pose proof (small_prime_bounds k ltac:(lia)).
    apply (divisor_not_prime p (small_prime k)); [lia|].
    apply mod0_divide; [lia|assumption].
  - destruct Hs as (j' & Hj' & -> & _ & Hstop).
    assert (Hj3 : (3 <= j')%nat).
    { destruct (Nat.eq_dec j' 2) as [->|Hne]; [|lia].
      rewrite small_prime_2 in Hstop. lia. }
    pose proof (small_prime_ge5 j' ltac:(lia)).
    pose proof (small_prime_bounds j' ltac:(lia)).
    pose proof (wheel_start_ge5 (small_prime j') ltac:(lia)) as Hws.
    destruct (wheel_loop_false p m ltac:(lia) fuel (wheel_start (small_prime j'))
                ltac:(lia) Hrun) as (d & Hd & Hdp).
    apply (divisor_not_prime p d); [lia|].
    apply mod0_divide; [lia|assumption].
Qed.

Lemma is_prime_true_prime fuel p :
  5 <= p < 2 ^ 64 -> is_prime fuel p = Some true -> Z.prime p.
Proof.
  intros Hp Hrun. rewrite is_prime_unfold in Hrun.
  destruct (Z.eqb_spec (p mod 2) 0) as [He|Hodd]; [discriminate|].
  pose proof (isqrt_ceil_upper p ltac:(lia)) as Hm. cbn zeta in Hm.
  destruct Hm as (Hm & Hlo & _).
  set (m := isqrt_ceil p) in *.
  destruct (small_primes_loop fuel p m (small_prime 2) 2) as [f|] eqn:Ef;
    [|discriminate].
  cbn [bind] in Hrun.
  pose proof (small_primes_loop_spec fuel p m 2 f ltac:(lia) Ef) as Hs.
  destruct f as [b|i].
  { destruct Hs as [Hb _]. congruence. }
  destruct Hs as (j' & Hj' & -> & Hall & Hstop).
  split; [lia|]. intros n Hn Hdiv.
  destruct (small_prime_factor p n Hn Hdiv) as (q & Hq & Hqp & Hqq).
  pose proof (Z.prime_ge_2 q Hq) as Hq2.
  assert (Hqm : q <= m) by nia.
  assert (Hpq : p mod q = 0) by (apply mod0_divide; [lia|assumption]).
  assert (Hq3 : 3 <= q).
  { destruct (Z.eq_dec q 2) as [->|]; [contradiction|lia]. }
  destruct (Z_lt_ge_dec q 251) as [Hsmall|Hbig].
  - destruct (small_prime_cover q Hq ltac:(lia)) as (k & Hk & Hkq).
    destruct (Nat.lt_ge_cases k j') as [Hlt|Hge].
    + apply (Hall k ltac:(lia)). rewrite Hkq. assumption.
    + pose proof (small_prime_mono j' k ltac:(lia) ltac:(lia) ltac:(lia)).
      destruct Hstop as [->|Hstop]; lia.
  - assert (Hj54 : j' = 54%nat).
    { destruct Hstop as [|Hstop]; [assumption|].
      pose proof (small_prime_bounds j' ltac:(lia)). lia. }
    subst j'. rewrite small_prime_54, wheel_start_251 in Hrun.
    pose proof (wheel_loop_true p m ltac:(lia) fuel 251 ltac:(lia) Hrun) as Hw.
    pose proof (Z.div_mod q 6 ltac:(lia)) as Hdm.
    destruct (prime_mod6 q Hq ltac:(lia)) as [H1|H5].
    + destruct (Hw ((q - 253) / 6)) as [_ Hc].
      * apply Z.div_pos; lia.
      * pose proof (Z.div_mod (q - 253) 6 ltac:(lia)).
        pose proof (Z.mod_pos_bound (q - 253) 6 ltac:(lia)). lia.
      * apply Hc. 
        replace (251 + 6 * ((q - 253) / 6) + 2) with q; [assumption|].
        pose proof (Z.div_mod (q - 253) 6 ltac:(lia)).
        assert ((q - 253) mod 6 = 0).
        { replace (q - 253) with (q mod 6 - 1 + (q / 6 - 42) * 6) by lia.
          rewrite Z.mod_add by lia. rewrite H1. reflexivity. }
        lia.
    + destruct (Hw ((q - 251) / 6)) as [Hc _].
      * apply Z.div_pos; lia.
      * pose proof (Z.div_mod (q - 251) 6 ltac:(lia)).
        pose proof (Z.mod_pos_bound (q - 251) 6 ltac:(lia)). lia.
      * apply Hc.
        replace (251 + 6 * ((q - 251) / 6)) with q; [assumption|].
        pose proof (Z.div_mod (q - 251) 6 ltac:(lia)).
        assert ((q - 251) mod 6 = 0).
        { replace (q - 251) with (q mod 6 - 5 + (q / 6 - 41) * 6) by lia.
          rewrite Z.mod_add by lia. rewrite H5. reflexivity. }
        lia.
Qed.

(** The answers on the numbers below 12, by evaluation. *)
Lemma is_prime_says_small p b :
  0 <= p < 12 -> is_prime_says p b ->
  b = (p =? 5) || (p =? 7) || (p =? 11).
Proof.
  intros Hp Hb.
  assert (Hc : p = 0 \/ p = 1 \/ p = 2 \/ p = 3 \/ p = 4 \/ p = 5 \/ p = 6
               \/ p = 7 \/ p = 8 \/ p = 9 \/ p = 10 \/ p = 11) by lia.
  repeat (destruct Hc as [-> | Hc]); try subst p;
    (eapply is_prime_says_det; [exact Hb|]); exists 60%nat;
    vm_compute; reflexivity.
Qed.

Lemma is_prime_says_1 : is_prime_says 1 false.
Proof. exists 60%nat. vm_compute. reflexivity. Qed.

Lemma is_prime_says_3 : is_prime_says 3 false.
Proof. exists 60%nat. vm_compute. reflexivity. Qed.

Lemma is_prime_says_5 : is_prime_says 5 true.
Proof. exists 60%nat. vm_compute. reflexivity. Qed.

Lemma is_prime_says_7 : is_prime_says 7 true.
Proof. exists 60%nat. vm_compute. reflexivity. Qed.

Lemma is_prime_says_true_odd p : is_prime_says p true -> p mod 2 <> 0.
Proof.
  intros [fuel H] He. rewrite (is_prime_even fuel p He) in H. discriminate.
Qed.

(** A number [is_prime] accepts is at least 5: 1 and 3 are rejected. *)
Lemma is_prime_says_true_ge5 p :
  0 <= p < 2 ^ 64 -> is_prime_says p true -> 5 <= p.
Proof.
  intros Hp H. destruct (Z_lt_ge_dec p 5) as [Hlt|]; [exfalso|lia].
  pose proof (is_prime_says_small p true ltac:(lia) H) as Hb.
  destruct (Z.eqb_spec p 5); destruct (Z.eqb_spec p 7);
    destruct (Z.eqb_spec p 11); simpl in Hb; try discriminate; lia.
Qed.

(** The dichotomy proved above, in terms of [is_prime_says]. *)
Lemma is_prime_says_correct p b :
  0 <= p < 2 ^ 64 -> p <> 3 -> is_prime_says p b ->
  (b = true <-> Z.prime p /\ p <> 2).
Proof.
  intros Hp H3 Hb.
  destruct (Z_lt_ge_dec p 12) as [Hsmall|Hbig].
  - pose proof (is_prime_says_small p b ltac:(lia) Hb) as Hv.
    assert (Hc : (p = 5 \/ p = 7 \/ p = 11) \/
                 (p = 0 \/ p = 1 \/ p = 2 \/ p = 4 \/ p = 6 \/ p = 8 \/ p = 9 \/ p = 10))
      by lia.
    destruct Hc as [Hc|Hc].
    + assert (Hbt : b = true)
        by (destruct Hc as [-> | [-> | ->]]; exact Hv).
      split; [intros _|intros _; exact Hbt].
      split; [|lia].
      destruct Hc as [-> | [-> | ->]]; apply trial_prime_sound; vm_compute; reflexivity.
    + assert (Hbf : b = false)
        by (repeat (destruct Hc as [-> | Hc]); try subst p; exact Hv).
      rewrite Hbf. split; [intros Hf; discriminate Hf|]. intros [Hpr Hne]. exfalso.
      destruct Hc as [-> | [-> | [-> | Hc]]].
      * exact (Z.not_prime_0 Hpr).
      * exact (Z.not_prime_1 Hpr).
      * lia.
      * assert (Hd : exists d, 1 < d < p /\ (d | p)).
        { destruct Hc as [-> | [-> | [-> | [-> | ->]]]].
          - exists 2. split; [lia|exists 2; lia].
          - exists 2. split; [lia|exists 3; lia].
          - exists 2. split; [lia|exists 4; lia].
          - exists 3. split; [lia|exists 3; lia].
          - exists 2. split; [lia|exists 5; lia]. }
        destruct Hd as (d & Hd & Hdiv).
        exact (divisor_not_prime p d Hd Hdiv Hpr).
  - destruct Hb as [fuel Hb]. destruct b.
    + split; [intros _|reflexivity]. split; [|lia].
      apply (is_prime_true_prime fuel p); [lia|assumption].
    + split; [intros Hf; discriminate Hf|]. intros [Hpr _]. exfalso.
      exact (is_prime_false_composite fuel p ltac:(lia) Hb Hpr).
Qed.

(** C7 as stated fails at 2, which is prime and which the first test of
    [is_prime] rejects like every even number. *)
Lemma is_prime_2_counterexample :
  ~ (forall fuel p b,
        0 <= p < 2 ^ 64 -> is_prime fuel p = Some b -> (b = true <-> Z.prime p)).
Proof.
  intros H.
  specialize (H 0%nat 2 false ltac:(lia) eq_refl).
  destruct H as [_ H]. specialize (H Z.prime_2). discriminate.
Qed.

(** C7, amended: for every 64-bit [p] other than 3, [is_prime] terminates,
    and it returns true exactly when [p] is an odd prime; even numbers, 2
    included, are rejected by the first test.  No statement is made about
    the input 3. *)
Theorem is_prime_correct (p : Z) :
  0 <= p < 2 ^ 64 -> p <> 3 ->
  (exists fuel b, is_prime fuel p = Some b)
  /\ (forall fuel b, is_prime fuel p = Some b -> (b = true <-> Z.prime p /\ p <> 2))
  /\ (forall fuel, p mod 2 = 0 -> is_prime fuel p = Some false).
Proof.
  intros Hp H3. split; [|split].
  - destruct (is_prime_says_total p Hp) as [b [fuel Hb]]. eauto.
  - intros fuel b Hb. apply is_prime_says_correct; [assumption|assumption|].
    exists fuel. assumption.
  - intros fuel He. now apply is_prime_even.
Qed.

Lemma is_prime_correct_witness :
  (exists fuel b, is_prime fuel 10007 = Some b)
  /\ (forall fuel b, is_prime fuel 10007 = Some b -> (b = true <-> Z.prime 10007 /\ 10007 <> 2))
  /\ (forall fuel, 10007 mod 2 = 0 -> is_prime fuel 10007 = Some false).
Proof.
  apply (is_prime_correct 10007); lia.
Defined.

(** ** Certified primes *)

Lemma accepts_prime fuel q : 5 <= q < 2 ^ 64 -> accepts fuel q = true -> Z.prime q.
Proof.
  unfold accepts. intros Hq H.
  destruct (is_prime fuel q) as [[|]|] eqn:E; try discriminate.
  exact (is_prime_true_prime fuel q Hq E).
Qed.

Ltac prime_by_is_prime fuel :=
  apply (accepts_prime fuel); [lia | vm_compute; reflexivity].

Ltac prime_by_certificate cert :=
  apply (pocklington_check_sound _ cert);
  [ vm_compute; reflexivity | vm_compute; reflexivity | cbn [map fst] ].

Lemma prime_23 : Z.prime 23.
Proof. prime_by_is_prime 60%nat. Qed.

Lemma prime_2621 : Z.prime 2621.
Proof. prime_by_is_prime 100%nat. Qed.

Lemma prime_665789 : Z.prime 665789.
Proof. prime_by_is_prime 300%nat. Qed.

Lemma prime_1771423 : Z.prime 1771423.
Proof. prime_by_is_prime 500%nat. Qed.

Lemma prime_27552601 : Z.prime 27552601.
Proof. prime_by_is_prime 2000%nat. Qed.

Lemma prime_456065899 : Z.prime 456065899.
Proof. prime_by_is_prime 4000%nat. Qed.

Lemma prime_6203988907 : Z.prime 6203988907.
Proof. prime_by_is_prime (Z.to_nat 14000). Qed.

Lemma prime_16373353565059 : Z.prime 16373353565059.
Proof.
  prime_by_certificate [(27552601, 2)].
  apply Forall_cons; [exact prime_27552601|apply Forall_nil].
Qed.

Lemma prime_133672058505141677 : Z.prime 133672058505141677.
Proof.
  prime_by_certificate [(16373353565059, 2)].
  apply Forall_cons; [exact prime_16373353565059|apply Forall_nil].
Qed.

Lemma prime_2131 : Z.prime 2131.
Proof. prime_by_is_prime 100%nat. Qed.

Lemma prime_15331 : Z.prime 15331.
Proof. prime_by_is_prime 100%nat. Qed.

Lemma prime_5594472617641 : Z.prime 5594472617641.
Proof.
  prime_by_certificate [(15331, 2); (2131, 2)].
  apply Forall_cons; [exact prime_15331|].
  apply Forall_cons; [exact prime_2131|apply Forall_nil].
Qed.

(** The largest prime below 2^64. *)
Lemma prime_u64_top : Z.prime (2 ^ 64 - 59).
Proof.
  prime_by_certificate [(5594472617641, 2)].
  apply Forall_cons; [exact prime_5594472617641|apply Forall_nil].
Qed.

Lemma largest_prime_u64 r :
  Z.prime r -> r <= 2 ^ 64 - 1 ->
  (forall q, Z.prime q -> q <= 2 ^ 64 - 1 -> q <= r) ->
  r = 2 ^ 64 - 59.
Proof.
  intros Hr Hle Hmax.
  pose proof (Hmax _ prime_u64_top ltac:(lia)) as Hlow.
  destruct (Z.eq_dec r (2 ^ 64 - 59)) as [|Hne]; [assumption|exfalso].
  assert (Hchk : no_prime_check 2 1 (2 ^ 64 - 59) (2 ^ 64 - 1)
                   [3; 5; 7; 11; 13; 17; 19; 29; 31; 41; 53; 827; 11071; 139646831]
                 = true) by (vm_compute; reflexivity).
  apply (no_prime_check_sound _ _ _ _ _ Hchk r Hr); [|lia].
  apply prime_gt2_odd; [assumption|lia].
Qed.

Lemma table_prime_16 : Z.prime (2 ^ 16 - 17).
Proof. prime_by_is_prime 100%nat. Qed.

Lemma table_prime_24 : Z.prime (2 ^ 24 - 17).
Proof. prime_by_is_prime 800%nat. Qed.

Lemma table_prime_32 : Z.prime (2 ^ 32 - 5).
Proof. prime_by_is_prime (Z.to_nat 11000). Qed.

Lemma table_prime_40 : Z.prime (2 ^ 40 - 213).
Proof.
  prime_by_certificate [(1771423, 2)].
  apply Forall_cons; [exact prime_1771423|apply Forall_nil].
Qed.

Lemma table_prime_48 : Z.prime (2 ^ 48 - 65).
Proof.
  prime_by_certificate [(6203988907, 2)].
  apply Forall_cons; [exact prime_6203988907|apply Forall_nil].
Qed.

Lemma table_prime_56 : Z.prime (2 ^ 56 - 5).
Proof.
  prime_by_certificate [(665789, 2); (2621, 2)].
  apply Forall_cons; [exact prime_665789|].
  apply Forall_cons; [exact prime_2621|apply Forall_nil].
Qed.

Lemma table_prime_63 : Z.prime (2 ^ 63 - 25).
Proof.
  prime_by_certificate [(456065899, 2); (23, 2)].
  apply Forall_cons; [exact prime_456065899|].
  apply Forall_cons; [exact prime_23|apply Forall_nil].
Qed.

Lemma table_prime_64 : Z.prime (2 ^ 64 - 189).
Proof.
  prime_by_certificate [(133672058505141677, 2)].
  apply Forall_cons; [exact prime_133672058505141677|apply Forall_nil].
Qed.

(** ** The 64-bit circle: the distance down to 7 *)

Lemma dist7_range p : 0 <= dist7 p < 2 ^ 64.
Proof. apply wrap64_range. Qed.

Lemma dist7_zero p : 0 <= p < 2 ^ 64 -> dist7 p = 0 -> p = 7.
Proof.
  intros Hp H. unfold dist7, wrap64 in H.
  destruct (Z_lt_ge_dec p 7) as [Hlt|Hge].
  - replace (p - 7) with (p - 7 + 2 ^ 64 + (-1) * 2 ^ 64) in H by lia.
    rewrite Z.mod_add in H by lia. rewrite Z.mod_small in H by lia. lia.
  - rewrite Z.mod_small in H by lia. lia.
Qed.

Lemma dist7_sub p c :
  0 <= c <= dist7 p -> dist7 (wrap64 (p - c)) = dist7 p - c.
Proof.
  intros Hc. pose proof (dist7_range p) as Hr.
  unfold dist7, wrap64 in *.
  rewrite Zminus_mod_idemp_l.
  replace (p - c - 7) with (p - 7 - c) by lia.
  rewrite <- Zminus_mod_idemp_l. apply Z.mod_small. lia.
Qed.

Lemma dist7_odd p : p mod 2 = 1 -> dist7 p mod 2 = 0.
Proof.
  intros Hp. unfold dist7. rewrite wrap64_parity.
  replace (p - 7) with (p + 1 + (-4) * 2) by lia.
  rewrite Z.mod_add by lia.
  rewrite <- Zplus_mod_idemp_l, Hp. reflexivity.
Qed.

Lemma dist7_even p : p mod 2 = 0 -> dist7 p mod 2 = 1.
Proof.
  intros Hp. unfold dist7. rewrite wrap64_parity.
  replace (p - 7) with (p + 1 + (-4) * 2) by lia.
  rewrite Z.mod_add by lia.
  rewrite <- Zplus_mod_idemp_l, Hp. reflexivity.
Qed.

(** ** [prime_predecessor] *)

Lemma prime_predecessor_loop_mono fuel :
  forall fuel' p r,
    prime_predecessor_loop fuel p = Some r -> (fuel <= fuel')%nat ->
    prime_predecessor_loop fuel' p = Some r.
Proof.
  induction fuel as [|fuel IH]; intros fuel' p r Hrun Hle; [discriminate|].
  destruct fuel' as [|fuel']; [lia|].
  cbn [prime_predecessor_loop] in *.
  destruct (is_prime fuel p) as [b|] eqn:Eb; [|discriminate].
  rewrite (is_prime_mono fuel fuel' p b Eb ltac:(lia)).
  cbn [bind] in *. destruct b; cbn [negb] in *; [assumption|].
  apply IH; [assumption|lia].
Qed.

Lemma prime_predecessor_mono fuel fuel' p r :
  prime_predecessor fuel p = Some r -> (fuel <= fuel')%nat ->
  prime_predecessor fuel' p = Some r.
Proof.
  unfold prime_predecessor. intros Hrun Hle.
  destruct (p =? 0); [assumption|]. destruct (p =? 2); [assumption|].
  eapply prime_predecessor_loop_mono; eassumption.
Qed.

(** What the scan returns: a number [is_prime] accepts, reached from the
    start without passing 7. *)
Lemma prime_predecessor_loop_spec fuel :
  forall p r,
    0 <= p < 2 ^ 64 -> p mod 2 = 1 ->
    prime_predecessor_loop fuel p = Some r ->
    is_prime_says r true /\ 0 <= r < 2 ^ 64 /\ dist7 r <= dist7 p.
Proof.
  induction fuel as [|fuel IH]; intros p r Hp Hodd Hrun; [discriminate|].
  cbn [prime_predecessor_loop] in Hrun.
  destruct (is_prime fuel p) as [b|] eqn:Eb; [|discriminate].
  cbn [bind] in Hrun. destruct b; cbn [negb] in Hrun.
  - injection Hrun as <-. split; [exists fuel; assumption|]. split; lia.
  - assert (Hne : p <> 7).
    { intros ->. pose proof (is_prime_says_det 7 true false is_prime_says_7
                               (ex_intro _ fuel Eb)). discriminate. }
    pose proof (dist7_range p) as Hr. pose proof (dist7_odd p Hodd) as Hev.
    assert (Hd2 : 2 <= dist7 p).
    { destruct (Z.eq_dec (dist7 p) 0) as [H0|]; [apply dist7_zero in H0; lia|].
      destruct (Z.eq_dec (dist7 p) 1) as [H1|]; [rewrite H1 in Hev; discriminate|lia]. }
    pose proof (dist7_sub p 2 ltac:(lia)) as Hs.
    destruct (IH (wrap64 (p - 2)) r (wrap64_range _)) as (H1 & H2 & H3).
    + rewrite wrap64_parity. replace (p - 2) with (p + (-1) * 2) by lia.
      rewrite Z.mod_add by lia. assumption.
    + assumption.
    + split; [assumption|]. split; [assumption|lia].
Qed.

Lemma prime_predecessor_loop_total :
  forall n, 0 <= n ->
    forall p, 0 <= p < 2 ^ 64 -> p mod 2 = 1 -> dist7 p = n ->
              exists fuel r, prime_predecessor_loop fuel p = Some r.
Proof.
  intros n Hn. pattern n. apply Z_lt_induction; [|exact Hn].
  clear n Hn. intros n IH p Hp Hodd Hd.
  destruct (is_prime_says_total p Hp) as [b [f0 Hb]].
  destruct b.
  - exists (S f0), p. cbn [prime_predecessor_loop]. rewrite Hb. reflexivity.
  - assert (Hne : p <> 7).
    { intros ->. pose proof (is_prime_says_det 7 true false is_prime_says_7
                               (ex_intro _ f0 Hb)). discriminate. }
    pose proof (dist7_range p) as Hr. pose proof (dist7_odd p Hodd) as Hev.
    assert (Hd2 : 2 <= dist7 p).
    { destruct (Z.eq_dec (dist7 p) 0) as [H0|]; [apply dist7_zero in H0; lia|].
      destruct (Z.eq_dec (dist7 p) 1) as [H1|]; [rewrite H1 in Hev; discriminate|lia]. }
    pose proof (dist7_sub p 2 ltac:(lia)) as Hs.
    destruct (IH (n - 2) ltac:(lia) (wrap64 (p - 2)) (wrap64_range _))
      as (f1 & r & Hrun).
    + rewrite wrap64_parity. replace (p - 2) with (p + (-1) * 2) by lia.
      rewrite Z.mod_add by lia. assumption.
    + lia.
    + exists (S (Nat.max f0 f1)), r. cbn [prime_predecessor_loop].
      rewrite (is_prime_mono f0 (Nat.max f0 f1) p false Hb ltac:(lia)). cbn [bind negb].
      eapply prime_predecessor_loop_mono; [exact Hrun|lia].
Qed.

(** [prime_predecessor] terminates on every 64-bit input. *)
Lemma prime_predecessor_total p :
  0 <= p < 2 ^ 64 -> exists fuel r, prime_predecessor fuel p = Some r.
Proof.
  intros Hp. unfold prime_predecessor.
  destruct (Z.eqb_spec p 0); [exists 0%nat, 0; reflexivity|].
  destruct (Z.eqb_spec p 2); [exists 0%nat, 2; reflexivity|].
  destruct (Z.eqb_spec (p mod 2) 0) as [He|Ho].
  - apply (prime_predecessor_loop_total (dist7 (wrap64 (p - 1)))).
    + apply dist7_range.
    + apply wrap64_range.
    + rewrite wrap64_parity. replace (p - 1) with (p + 1 + (-1) * 2) by lia.
      rewrite Z.mod_add by lia. rewrite <- Zplus_mod_idemp_l, He. reflexivity.
    + reflexivity.
  - apply (prime_predecessor_loop_total (dist7 p)).
    + apply dist7_range.
    + assumption.
    + destruct (mod2_cases p); [contradiction|assumption].
    + reflexivity.
Qed.

(** What [prime_predecessor] returns: its two conventions, and otherwise a
    number [is_prime] accepts. *)
Lemma prime_predecessor_spec fuel p r :
  0 <= p < 2 ^ 64 ->
  prime_predecessor fuel p = Some r ->
  0 <= r < 2 ^ 64 /\ dist7 r <= dist7 p /\
  ((p = 0 /\ r = 0) \/ (p = 2 /\ r = 2)
   \/ (p <> 0 /\ p <> 2 /\ is_prime_says r true)).
Proof.
  intros Hp Hrun. unfold prime_predecessor in Hrun.
  destruct (Z.eqb_spec p 0) as [->|Hn0].
  { injection Hrun as <-. split; [lia|]. split; [lia|]. left. split; reflexivity. }
  destruct (Z.eqb_spec p 2) as [->|Hn2].
  { injection Hrun as <-. split; [lia|]. split; [lia|]. right. left. split; reflexivity. }
  destruct (Z.eqb_spec (p mod 2) 0) as [He|Ho].
  - assert (Hd1 : 1 <= dist7 p).
    { pose proof (dist7_range p) as Hr. pose proof (dist7_even p He) as Hod.
      destruct (Z.eq_dec (dist7 p) 0) as [Hz|]; [rewrite Hz in Hod; discriminate|lia]. }
    pose proof (dist7_sub p 1 ltac:(lia)) as Hs.
    destruct (prime_predecessor_loop_spec fuel (wrap64 (p - 1)) r (wrap64_range _))
      as (H1 & H2 & H3).
    + rewrite wrap64_parity. replace (p - 1) with (p + 1 + (-1) * 2) by lia.
      rewrite Z.mod_add by lia. rewrite <- Zplus_mod_idemp_l, He. reflexivity.
    + assumption.
    + split; [assumption|]. split; [lia|]. right. right. auto.
  - destruct (prime_predecessor_loop_spec fuel p r Hp) as (H1 & H2 & H3).
    + destruct (mod2_cases p); [contradiction|assumption].
    + assumption.
    + split; [assumption|]. split; [lia|]. right. right. auto.
Qed.

(** From an odd start of at least 5 the scan never wraps: it stops on the
    first number, going down, that [is_prime] accepts. *)
Lemma prime_predecessor_loop_down fuel :
  forall p r,
    5 <= p < 2 ^ 64 -> p mod 2 = 1 ->
    prime_predecessor_loop fuel p = Some r ->
    5 <= r <= p /\ is_prime_says r true
    /\ forall q, r < q <= p -> q mod 2 = 1 -> is_prime_says q false.
Proof.
  induction fuel as [|fuel IH]; intros p r Hp Hodd Hrun; [discriminate|].
  cbn [prime_predecessor_loop] in Hrun.
  destruct (is_prime fuel p) as [b|] eqn:Eb; [|discriminate].
  cbn [bind] in Hrun. destruct b; cbn [negb] in Hrun.
  - injection Hrun as <-. split; [lia|]. split; [exists fuel; assumption|].
    intros q Hq. lia.
  - assert (Hne : p <> 5).
    { intros ->. pose proof (is_prime_says_det 5 true false is_prime_says_5
                               (ex_intro _ fuel Eb)). discriminate. }
    assert (Hp7 : 7 <= p).
    { destruct (Z.eq_dec p 6) as [->|]; [discriminate Hodd|lia]. }
    rewrite wrap64_small in Hrun by lia.
    destruct (IH (p - 2) r ltac:(lia)) as (H1 & H2 & H3).
    + replace (p - 2) with (p + (-1) * 2) by lia.
      rewrite Z.mod_add by lia. assumption.
    + assumption.
    + split; [lia|]. split; [assumption|].
      intros q Hq Hqodd.
      destruct (Z.eq_dec q p) as [->|Hqp]; [exists fuel; assumption|].
      destruct (Z.eq_dec q (p - 1)) as [->|Hqp1].
      * exfalso. replace (p - 1) with (p + 1 + (-1) * 2) in Hqodd by lia.
        rewrite Z.mod_add in Hqodd by lia.
        rewrite <- Zplus_mod_idemp_l, Hodd in Hqodd. discriminate.
      * apply H3; [lia|assumption].
Qed.

(** For every [p >= 5], [prime_predecessor p] is the largest prime not
    above [p]. *)
Lemma prime_predecessor_largest fuel p r :
  5 <= p < 2 ^ 64 ->
  prime_predecessor fuel p = Some r ->
  Z.prime r /\ 5 <= r <= p /\ forall q, Z.prime q -> q <= p -> q <= r.
Proof.
  intros Hp Hrun. unfold prime_predecessor in Hrun.
  destruct (Z.eqb_spec p 0); [lia|]. destruct (Z.eqb_spec p 2); [lia|].
  set (p' := if p mod 2 =? 0 then wrap64 (p - 1) else p) in *.
  assert (Hp' : 5 <= p' <= p /\ p' mod 2 = 1
                /\ forall q, Z.prime q -> q <= p -> q <= p').
  { unfold p'. destruct (Z.eqb_spec (p mod 2) 0) as [He|Ho].
    - assert (p <> 5) by (intros ->; discriminate He).
      rewrite wrap64_small by lia. split; [lia|]. split.
      + replace (p - 1) with (p + 1 + (-1) * 2) by lia.
        rewrite Z.mod_add by lia. rewrite <- Zplus_mod_idemp_l, He. reflexivity.
      + intros q Hq Hqp. destruct (Z.eq_dec q p) as [->|]; [exfalso|lia].
        apply (prime_not_divisible p 2 Hq ltac:(lia)).
        apply mod0_divide; [lia|assumption].
    - split; [lia|]. split; [destruct (mod2_cases p); [contradiction|assumption]|].
      intros q _ Hqp. assumption. }
  destruct Hp' as (Hr' & Hodd' & Hmax').
  destruct (prime_predecessor_loop_down fuel p' r ltac:(lia) Hodd' Hrun)
    as (Hr & Hs & Hrej).
  split; [|split; [lia|]].
  - apply (is_prime_says_correct r true ltac:(lia) ltac:(lia) Hs). reflexivity.
  - intros q Hq Hqp. specialize (Hmax' q Hq Hqp).
    destruct (Z_le_gt_dec q r) as [|Hgt]; [assumption|exfalso].
    pose proof (prime_gt2_odd q Hq ltac:(lia)) as Hqodd.
    specialize (Hrej q ltac:(lia) Hqodd).
    pose proof (proj2 (is_prime_says_correct q false ltac:(lia) ltac:(lia) Hrej)) as Hc.
    assert (Hq2 : q <> 2) by lia.
    specialize (Hc (conj Hq Hq2)). discriminate.
Qed.

(** From 1 or 3 the scan of [prime_predecessor] falls off the bottom and
    continues from 2^64 - 1. *)
Lemma prime_predecessor_loop_wraps fuel p r :
  p = 1 \/ p = 3 ->
  prime_predecessor_loop fuel p = Some r ->
  exists fuel', prime_predecessor_loop fuel' (2 ^ 64 - 1) = Some r.
Proof.
  assert (H1 : forall f, prime_predecessor_loop f 1 = Some r ->
                         exists fuel', prime_predecessor_loop fuel' (2 ^ 64 - 1) = Some r).
  { intros [|f] Hrun; [discriminate|]. cbn [prime_predecessor_loop] in Hrun.
    destruct (is_prime f 1) as [b|] eqn:Eb; [|discriminate].
    pose proof (is_prime_says_det 1 _ _ (ex_intro _ f Eb) is_prime_says_1). subst b.
    cbn [bind negb] in Hrun. exists f. exact Hrun. }
  intros [->| ->] Hrun; [exact (H1 _ Hrun)|].
  destruct fuel as [|f]; [discriminate|]. cbn [prime_predecessor_loop] in Hrun.
  destruct (is_prime f 3) as [b|] eqn:Eb; [|discriminate].
  pose proof (is_prime_says_det 3 _ _ (ex_intro _ f Eb) is_prime_says_3). subst b.
  cbn [bind negb] in Hrun. exact (H1 f Hrun).
Qed.

Lemma prime_predecessor_wraps fuel p r :
  p = 1 \/ p = 3 \/ p = 4 \/ p = 2 ^ 64 - 1 ->
  prime_predecessor fuel p = Some r ->
  Z.prime r /\ 5 <= r <= 2 ^ 64 - 1
  /\ forall q, Z.prime q -> q <= 2 ^ 64 - 1 -> q <= r.
Proof.
  intros Hp Hrun.
  assert (Htop : exists fuel', prime_predecessor fuel' (2 ^ 64 - 1) = Some r).
  { destruct Hp as [-> | [-> | [-> | ->]]].
    - destruct (prime_predecessor_loop_wraps fuel 1 r (or_introl eq_refl) Hrun) as [f Hf].
      exists f. exact Hf.
    - destruct (prime_predecessor_loop_wraps fuel 3 r (or_intror eq_refl) Hrun) as [f Hf].
      exists f. exact Hf.
    - destruct (prime_predecessor_loop_wraps fuel 3 r (or_intror eq_refl) Hrun) as [f Hf].
      exists f. exact Hf.
    - exists fuel. exact Hrun. }
  destruct Htop as [f Hf].
  exact (prime_predecessor_largest f (2 ^ 64 - 1) r ltac:(lia) Hf).
Qed.

Lemma prime_predecessor_below_5 fuel p r :
  p = 1 \/ p = 3 \/ p = 4 ->
  prime_predecessor fuel p = Some r -> r = 2 ^ 64 - 59.
Proof.
  intros Hp Hrun.
  destruct (prime_predecessor_wraps fuel p r ltac:(tauto) Hrun) as (H1 & H2 & H3).
  apply largest_prime_u64; [assumption|lia|assumption].
Qed.

(** C8, at the input 3: [is_prime] rejects 3, so the downward scan leaves 3,
    wraps around below 1 and ends on the largest prime below 2^64; the
    largest prime not above 3 is 3 itself. *)
Theorem prime_predecessor_3_overshoots :
  Z.prime 3
  /\ (forall fuel, is_prime fuel 3 <> Some true)
  /\ (exists fuel r, prime_predecessor fuel 3 = Some r)
  /\ (forall fuel r, prime_predecessor fuel 3 = Some r -> r = 2 ^ 64 - 59).
Proof.
  split; [exact Z.prime_3|]. split; [|split].
  - intros fuel H.
    pose proof (is_prime_says_det 3 _ _ (ex_intro _ fuel H) is_prime_says_3).
    discriminate.
  - apply prime_predecessor_total. lia.
  - intros fuel r Hrun. apply (prime_predecessor_below_5 fuel 3); [tauto|assumption].
Qed.

(** ** The table of common universes *)

Lemma common_lookup_in tbl universe r :
  common_lookup tbl universe = Some r ->
  0 < r /\ exists c, In c tbl /\ cu_universe c = universe /\ cu_prime c = r.
Proof.
  induction tbl as [|c tbl IH]; cbn [common_lookup]; [discriminate|].
  destruct (Z.gtb_spec (cu_prime c) 0) as [Hpos|_]; [|discriminate].
  destruct (Z.eqb_spec universe (cu_universe c)) as [->|_].
  - intros H. injection H as <-. split; [lia|]. exists c. split; [now left|split; reflexivity].
  - intros H. destruct (IH H) as (Hr & c' & Hin & Hc'). split; [assumption|].
    exists c'. split; [now right|assumption].
Qed.

Lemma common_universes_checked : common_universes_check = true.
Proof. vm_compute. reflexivity. Qed.

Lemma common_lookup_bounds universe r :
  common_lookup common_universes universe = Some r ->
  7 <= r /\ r + 3 <= universe /\ r mod 4 = 3 /\ universe < 2 ^ 64.
Proof.
  intros H. destruct (common_lookup_in _ _ _ H) as (Hr & c & Hin & <- & <-).
  pose proof common_universes_checked as Hc.
  unfold common_universes_check in Hc. rewrite forallb_forall in Hc.
  specialize (Hc c Hin). apply orb_true_iff in Hc. destruct Hc as [Hc|Hc].
  - apply Z.eqb_eq in Hc. lia.
  - repeat (apply andb_true_iff in Hc; destruct Hc as [Hc ?]).
    repeat match goal with
           | H : (_ <=? _) = true |- _ => apply Z.leb_le in H
           | H : (_ <? _) = true |- _ => apply Z.ltb_lt in H
           | H : (_ =? _) = true |- _ => apply Z.eqb_eq in H
           end.
    lia.
Qed.

Lemma table_certificates_ok :
  Forall (fun t => Z.prime (fst (fst t))
                   /\ no_3mod4_prime_check (fst (fst t)) (snd (fst t)) (snd t) = true)
         table_certificates.
Proof.
  unfold table_certificates.
  repeat (apply Forall_cons; [cbn [fst snd]; split; [|vm_compute; reflexivity]|]);
    [ exact table_prime_16 | exact table_prime_24 | exact table_prime_32
    | exact table_prime_40 | exact table_prime_48 | exact table_prime_56
    | exact table_prime_63 | exact table_prime_64 | apply Forall_nil ].
Qed.

Lemma table_covered : table_covered_check = true.
Proof. vm_compute. reflexivity. Qed.

(** Each prime stored in the table is a prime, and the largest prime not
    above its universe that is 3 modulo 4. *)
Lemma common_lookup_largest universe r :
  common_lookup common_universes universe = Some r ->
  Z.prime r /\ r mod 4 = 3 /\ 7 <= r <= universe
  /\ forall q, Z.prime q -> q mod 4 = 3 -> q <= universe -> q <= r.
Proof.
  intros H. destruct (common_lookup_bounds _ _ H) as (H7 & Hgap & H3 & Hu).
  destruct (common_lookup_in _ _ _ H) as (Hr & c & Hin & <- & <-).
  pose proof table_covered as Hc. unfold table_covered_check in Hc.
  rewrite forallb_forall in Hc. specialize (Hc c Hin).
  apply orb_true_iff in Hc. destruct Hc as [Hc|Hc]; [apply Z.eqb_eq in Hc; lia|].
  apply existsb_exists in Hc. destruct Hc as (t & Ht & Hm).
  apply andb_true_iff in Hm. destruct Hm as [Hm Hmax].
  apply andb_true_iff in Hm. destruct Hm as [Heq Hmin].
  apply Z.eqb_eq in Heq. apply Z.leb_le in Hmin. apply Z.leb_le in Hmax.
  pose proof table_certificates_ok as Hok. rewrite Forall_forall in Hok.
  destruct (Hok t Ht) as [Hpr Hchk]. rewrite <- Heq in *.
  split; [assumption|]. split; [assumption|]. split; [lia|].
  intros q Hq Hq3 Hqu.
  destruct (Z_le_gt_dec q (cu_prime c)) as [|Hgt]; [assumption|exfalso].
  exact (no_3mod4_prime_check_sound _ _ _ Hchk q Hq Hq3 ltac:(lia)).
Qed.

(** The largest prime below 2^64 that is 3 modulo 4 is the one the table
    stores for the universe 2^64 - 1. *)
Lemma largest_3mod4_u64 r :
  Z.prime r -> r mod 4 = 3 -> r <= 2 ^ 64 - 1 ->
  (forall q, Z.prime q -> q mod 4 = 3 -> q <= 2 ^ 64 - 1 -> q <= r) ->
  r = 0xFFFFFFFFFFFFFF43.
Proof.
  intros Hr H3 Hle Hmax.
  destruct (common_lookup_largest (2 ^ 64 - 1) 0xFFFFFFFFFFFFFF43 eq_refl)
    as (Hp & Hp3 & Hpu & Hpmax).
  specialize (Hmax _ Hp Hp3 ltac:(lia)). specialize (Hpmax _ Hr H3 Hle). lia.
Qed.

(** ** [prev_prime_3mod4] *)

Lemma land3_mod4 p : Z.land p 3 = p mod 4.
Proof. change 3 with (Z.ones 2). rewrite Z.land_ones by lia. reflexivity. Qed.

Lemma wrap64_pred_zero p : 0 <= p < 2 ^ 64 -> wrap64 (p - 1) = 0 -> p = 1.
Proof.
  intros Hp H. destruct (Z.eq_dec p 0) as [->|Hne].
  - vm_compute in H. discriminate.
  - rewrite wrap64_small in H by lia. lia.
Qed.

Lemma wrap64_pred_two p : 0 <= p < 2 ^ 64 -> wrap64 (p - 1) = 2 -> p = 3.
Proof.
  intros Hp H. destruct (Z.eq_dec p 0) as [->|Hne].
  - vm_compute in H. discriminate.
  - rewrite wrap64_small in H by lia. lia.
Qed.

Lemma prev_prime_3mod4_loop_mono fuel :
  forall fuel' p r,
    prev_prime_3mod4_loop fuel p = Some r -> (fuel <= fuel')%nat ->
    prev_prime_3mod4_loop fuel' p = Some r.
Proof.
  induction fuel as [|fuel IH]; intros fuel' p r Hrun Hle; [discriminate|].
  destruct fuel' as [|fuel']; [lia|].
  cbn [prev_prime_3mod4_loop] in *.
  destruct (negb (Z.land p 3 =? 3)); [|assumption].
  destruct (prime_predecessor fuel (wrap64 (p - 1))) as [q|] eqn:Eq; [|discriminate].
  rewrite (prime_predecessor_mono fuel fuel' _ q Eq ltac:(lia)).
  cbn [bind] in *. apply IH; [assumption|lia].
Qed.

Lemma prev_prime_3mod4_mono fuel fuel' universe r :
  prev_prime_3mod4 fuel universe = Some r -> (fuel <= fuel')%nat ->
  prev_prime_3mod4 fuel' universe = Some r.
Proof.
  unfold prev_prime_3mod4. intros Hrun Hle.
  destruct (common_lookup common_universes universe); [assumption|].
  destruct (prime_predecessor fuel universe) as [p|] eqn:Ep; [|discriminate].
  rewrite (prime_predecessor_mono fuel fuel' _ p Ep Hle).
  cbn [bind] in *. eapply prev_prime_3mod4_loop_mono; eassumption.
Qed.

(** The descent keeps returning numbers [is_prime] accepts, and ends on one
    that is 3 modulo 4, never having passed 7. *)
Lemma prev_prime_3mod4_loop_spec fuel :
  forall p r,
    0 <= p < 2 ^ 64 ->
    p = 0 \/ p = 2 \/ is_prime_says p true ->
    prev_prime_3mod4_loop fuel p = Some r ->
    is_prime_says r true /\ Z.land r 3 = 3 /\ 0 <= r < 2 ^ 64
    /\ dist7 r <= dist7 p.
Proof.
  induction fuel as [|fuel IH]; intros p r Hp Hinv Hrun; [discriminate|].
  cbn [prev_prime_3mod4_loop] in Hrun.
  destruct (Z.eqb_spec (Z.land p 3) 3) as [H3|Hn3]; cbn [negb] in Hrun.
  - injection Hrun as <-.
    destruct Hinv as [->|[->|Hs]]; [discriminate H3|discriminate H3|].
    split; [assumption|]. split; [assumption|]. split; lia.
  - destruct (prime_predecessor fuel (wrap64 (p - 1))) as [q|] eqn:Eq; [|discriminate].
    cbn [bind] in Hrun.
    destruct (prime_predecessor_spec fuel _ q (wrap64_range _) Eq) as (Hq & Hdq & Hc).
    assert (Hne7 : p <> 7) by (intros ->; apply Hn3; reflexivity).
    assert (Hd1 : 1 <= dist7 p).
    { pose proof (dist7_range p). 
      destruct (Z.eq_dec (dist7 p) 0) as [Hz|]; [apply dist7_zero in Hz; lia|lia]. }
    pose proof (dist7_sub p 1 ltac:(lia)) as Hs1.
    assert (Hq' : is_prime_says q true).
    { destruct Hc as [[H0 _]|[[H2 _]|(_ & _ & Hs)]]; [| |assumption].
      - apply wrap64_pred_zero in H0; [|assumption]. subst p.
        destruct Hinv as [?|[?|Hs]]; [lia|lia|].
        pose proof (is_prime_says_det 1 _ _ Hs is_prime_says_1). discriminate.
      - apply wrap64_pred_two in H2; [|assumption]. subst p.
        exfalso. apply Hn3. reflexivity. }
    destruct (IH q r Hq (or_intror (or_intror Hq')) Hrun) as (H1 & H2 & H3 & H4).
    split; [assumption|]. split; [assumption|]. split; [assumption|lia].
Qed.

Lemma prev_prime_3mod4_loop_total :
  forall n, 0 <= n ->
    forall p, 0 <= p < 2 ^ 64 -> dist7 p = n ->
              exists fuel r, prev_prime_3mod4_loop fuel p = Some r.
Proof.
  intros n Hn. pattern n. apply Z_lt_induction; [|exact Hn].
  clear n Hn. intros n IH p Hp Hd.
  destruct (Z.eqb_spec (Z.land p 3) 3) as [H3|Hn3].
  - exists 1%nat, p. cbn [prev_prime_3mod4_loop].
    rewrite H3. reflexivity.
  - assert (Hne7 : p <> 7) by (intros ->; apply Hn3; reflexivity).
    assert (Hd1 : 1 <= dist7 p).
    { pose proof (dist7_range p). 
      destruct (Z.eq_dec (dist7 p) 0) as [Hz|]; [apply dist7_zero in Hz; lia|lia]. }
    pose proof (dist7_sub p 1 ltac:(lia)) as Hs1.
    destruct (prime_predecessor_total (wrap64 (p - 1)) (wrap64_range _))
      as (f0 & q & Hq).
    destruct (prime_predecessor_spec f0 _ q (wrap64_range _) Hq) as (Hqr & Hdq & _).
    pose proof (dist7_range q).
    destruct (IH (dist7 q) ltac:(lia) q Hqr eq_refl) as (f1 & r & Hr).
    exists (S (Nat.max f0 f1)), r. cbn [prev_prime_3mod4_loop].
    apply Z.eqb_neq in Hn3. rewrite Hn3. cbn [negb].
    rewrite (prime_predecessor_mono f0 (Nat.max f0 f1) _ q Hq ltac:(lia)).
    cbn [bind]. eapply prev_prime_3mod4_loop_mono; [exact Hr|lia].
Qed.

(** [prev_prime_3mod4] terminates on every 64-bit universe. *)
Lemma prev_prime_3mod4_total universe :
  0 <= universe < 2 ^ 64 ->
  exists fuel r, prev_prime_3mod4 fuel universe = Some r.
Proof.
  intros Hu. unfold prev_prime_3mod4.
  destruct (common_lookup common_universes universe) as [c|]; [exists 0%nat, c; reflexivity|].
  destruct (prime_predecessor_total universe Hu) as (f0 & p & Hp).
  destruct (prime_predecessor_spec f0 _ p Hu Hp) as (Hpr & _ & _).
  destruct (prev_prime_3mod4_loop_total (dist7 p) (proj1 (dist7_range p)) p Hpr eq_refl)
    as (f1 & r & Hr).
  exists (Nat.max f0 f1), r.
  rewrite (prime_predecessor_mono f0 (Nat.max f0 f1) _ p Hp ltac:(lia)).
  cbn [bind]. eapply prev_prime_3mod4_loop_mono; [exact Hr|lia].
Qed.

(** Off the table, [prev_prime_3mod4] returns a number that [is_prime]
    accepts and that is 3 modulo 4. *)
Lemma prev_prime_3mod4_spec fuel universe r :
  0 <= universe < 2 ^ 64 ->
  common_lookup common_universes universe = None ->
  prev_prime_3mod4 fuel universe = Some r ->
  is_prime_says r true /\ Z.land r 3 = 3 /\ 0 <= r < 2 ^ 64
  /\ dist7 r <= dist7 universe.
Proof.
  intros Hu Htbl Hrun. unfold prev_prime_3mod4 in Hrun. rewrite Htbl in Hrun.
  destruct (prime_predecessor fuel universe) as [p|] eqn:Ep; [|discriminate].
  cbn [bind] in Hrun.
  destruct (prime_predecessor_spec fuel _ p Hu Ep) as (Hp & Hdp & Hc).
  destruct (prev_prime_3mod4_loop_spec fuel p r Hp) as (H1 & H2 & H3 & H4).
  - destruct Hc as [[_ ->]|[[_ ->]|(_ & _ & Hs)]]; auto.
  - assumption.
  - split; [assumption|]. split; [assumption|]. split; [assumption|lia].
Qed.

(** A number that [is_prime] accepts and that is 3 modulo 4 is at least 7:
    3 itself is rejected. *)
Lemma accepted_3mod4_ge7 r :
  0 <= r < 2 ^ 64 -> is_prime_says r true -> Z.land r 3 = 3 -> 7 <= r.
Proof.
  intros Hr Hs H3. pose proof (is_prime_says_true_ge5 r Hr Hs).
  rewrite land3_mod4 in H3.
  destruct (Z.eq_dec r 5) as [->|]; [discriminate H3|].
  destruct (Z.eq_dec r 6) as [->|]; [discriminate H3|]. lia.
Qed.

Lemma prev_prime_3mod4_off_table fuel universe r :
  0 <= universe < 2 ^ 64 ->
  common_lookup common_universes universe = None ->
  prev_prime_3mod4 fuel universe = Some r ->
  Z.prime r /\ r mod 4 = 3 /\ 7 <= r < 2 ^ 64 /\ dist7 r <= dist7 universe.
Proof.
  intros Hu Htbl Hrun.
  destruct (prev_prime_3mod4_spec fuel universe r Hu Htbl Hrun) as (Hs & H3 & Hr & Hd).
  pose proof (accepted_3mod4_ge7 r Hr Hs H3) as H7.
  split; [|split; [|split]].
  - apply (is_prime_says_correct r true Hr ltac:(lia) Hs). reflexivity.
  - now rewrite <- land3_mod4.
  - lia.
  - assumption.
Qed.

(** Whatever the 64-bit universe, the result is at least 7 and 3 modulo 4:
    a constructed permutation never holds the prime 0 of the default one. *)
Lemma prev_prime_3mod4_ge7 fuel universe r :
  0 <= universe < 2 ^ 64 ->
  prev_prime_3mod4 fuel universe = Some r ->
  7 <= r < 2 ^ 64 /\ r mod 4 = 3.
Proof.
  intros Hu Hrun.
  destruct (common_lookup common_universes universe) as [c|] eqn:Etbl.
  - unfold prev_prime_3mod4 in Hrun. rewrite Etbl in Hrun. injection Hrun as <-.
    destruct (common_lookup_bounds _ _ Etbl) as (H1 & H2 & H3 & H4).
    split; [lia|assumption].
  - destruct (prev_prime_3mod4_off_table fuel universe r Hu Etbl Hrun)
      as (_ & H3 & H7 & _).
    split; assumption.
Qed.

(** The descent of [prev_prime_3mod4], started on a prime between 7 and the
    universe below which no prime that is 3 modulo 4 was skipped, ends on
    the largest such prime. *)
Lemma prev_prime_3mod4_loop_largest universe fuel :
  forall p r,
    7 <= p <= universe -> universe < 2 ^ 64 -> Z.prime p ->
    (forall q, Z.prime q -> q mod 4 = 3 -> q <= universe -> q <= p) ->
    prev_prime_3mod4_loop fuel p = Some r ->
    Z.prime r /\ r mod 4 = 3 /\ 7 <= r <= universe
    /\ forall q, Z.prime q -> q mod 4 = 3 -> q <= universe -> q <= r.
Proof.
  induction fuel as [|fuel IH]; intros p r Hp Hu Hpr Hmax Hrun; [discriminate|].
  cbn [prev_prime_3mod4_loop] in Hrun. rewrite land3_mod4 in Hrun.
  destruct (Z.eqb_spec (p mod 4) 3) as [H3|Hn3]; cbn [negb] in Hrun.
  - injection Hrun as <-.
    split; [assumption|]. split; [assumption|]. split; [lia|assumption].
  - destruct (prime_predecessor fuel (wrap64 (p - 1))) as [p'|] eqn:Ep; [|discriminate].
    cbn [bind] in Hrun.
    assert (Hp8 : 8 <= p) by (destruct (Z.eq_dec p 7) as [->|]; [contradiction Hn3; reflexivity|lia]).
    rewrite wrap64_small in Ep by lia.
    destruct (prime_predecessor_largest fuel (p - 1) p' ltac:(lia) Ep)
      as (Hpr' & Hr' & Hmax').
    assert (H7 : 7 <= p').
    { apply Hmax'; [apply trial_prime_sound; vm_compute; reflexivity|lia]. }
    apply (IH p' r); try assumption; try lia.
    intros q Hq Hq3 Hqu. apply Hmax'; [assumption|].
    specialize (Hmax q Hq Hq3 Hqu).
    destruct (Z.eq_dec q p) as [->|]; [contradiction|lia].
Qed.

(** For every universe of at least 7 that is not in the table,
    [prev_prime_3mod4] returns the largest prime not above the universe that
    is 3 modulo 4. *)
Lemma prev_prime_3mod4_largest fuel universe r :
  7 <= universe < 2 ^ 64 ->
  common_lookup common_universes universe = None ->
  prev_prime_3mod4 fuel universe = Some r ->
  Z.prime r /\ r mod 4 = 3 /\ 7 <= r <= universe
  /\ forall q, Z.prime q -> q mod 4 = 3 -> q <= universe -> q <= r.
Proof.
  intros Hu Htbl Hrun. unfold prev_prime_3mod4 in Hrun. rewrite Htbl in Hrun.
  destruct (prime_predecessor fuel universe) as [p|] eqn:Ep; [|discriminate].
  cbn [bind] in Hrun.
  destruct (prime_predecessor_largest fuel universe p ltac:(lia) Ep)
    as (Hpr & Hp & Hmax).
  assert (H7 : 7 <= p).
  { apply Hmax; [apply trial_prime_sound; vm_compute; reflexivity|lia]. }
  apply (prev_prime_3mod4_loop_largest universe fuel p r); try assumption; try lia.
  intros q Hq _ Hqu. now apply Hmax.
Qed.

(** For every universe of at least 7, on the table or not,
    [prev_prime_3mod4] returns the largest prime not above the universe
    that is 3 modulo 4; the table only saves the search. *)
Lemma prev_prime_3mod4_from_7 fuel universe r :
  7 <= universe < 2 ^ 64 ->
  prev_prime_3mod4 fuel universe = Some r ->
  Z.prime r /\ r mod 4 = 3 /\ 7 <= r <= universe
  /\ forall q, Z.prime q -> q mod 4 = 3 -> q <= universe -> q <= r.
Proof.
  intros Hu Hrun.
  destruct (common_lookup common_universes universe) as [c|] eqn:Etbl.
  - unfold prev_prime_3mod4 in Hrun. rewrite Etbl in Hrun. injection Hrun as <-.
    now apply common_lookup_largest.
  - now apply (prev_prime_3mod4_largest fuel).
Qed.

Lemma prev_prime_3mod4_loop_top fuel p r :
  Z.prime p -> 5 <= p <= 2 ^ 64 - 1 ->
  (forall q, Z.prime q -> q <= 2 ^ 64 - 1 -> q <= p) ->
  prev_prime_3mod4_loop fuel p = Some r ->
  r = 0xFFFFFFFFFFFFFF43.
Proof.
  intros Hp Hr Hmax Hrun.
  assert (H7 : 7 <= p).
  { apply Hmax; [apply trial_prime_sound; vm_compute; reflexivity|lia]. }
  destruct (prev_prime_3mod4_loop_largest (2 ^ 64 - 1) fuel p r ltac:(lia) ltac:(lia) Hp)
    as (H1 & H2 & H3 & H4); [intros q Hq _ Hqu; now apply Hmax|assumption|].
  apply largest_3mod4_u64; try assumption; lia.
Qed.

Lemma prev_prime_3mod4_loop_small fuel :
  forall p r,
    p = 0 \/ p = 2 \/ p = 5 ->
    prev_prime_3mod4_loop fuel p = Some r ->
    r = 0xFFFFFFFFFFFFFF43.
Proof.
  intros p r Hp Hrun. destruct fuel as [|fuel]; [discriminate|].
  cbn [prev_prime_3mod4_loop] in Hrun.
  assert (Hq : (Z.land p 3 =? 3) = false /\
               (wrap64 (p - 1) = 1 \/ wrap64 (p - 1) = 3 \/ wrap64 (p - 1) = 4
                \/ wrap64 (p - 1) = 2 ^ 64 - 1)).
  { destruct Hp as [-> | [-> | ->]]; (split; [reflexivity|]).
    - right. right. right. reflexivity.
    - left. reflexivity.
    - right. right. left. reflexivity. }
  destruct Hq as [Hl Hq]. rewrite Hl in Hrun. cbn [negb] in Hrun.
  destruct (prime_predecessor fuel (wrap64 (p - 1))) as [q|] eqn:Eq; [|discriminate].
  cbn [bind] in Hrun.
  destruct (prime_predecessor_wraps fuel _ q Hq Eq) as (H1 & H2 & H3).
  exact (prev_prime_3mod4_loop_top fuel q r H1 H2 H3 Hrun).
Qed.

(** For every universe below 7, [prev_prime_3mod4] returns the prime that
    belongs to the universe 2^64 - 1. *)
Lemma prev_prime_3mod4_below_7 fuel universe r :
  0 <= universe <= 6 ->
  prev_prime_3mod4 fuel universe = Some r ->
  r = 0xFFFFFFFFFFFFFF43.
Proof.
  intros Hu Hrun. unfold prev_prime_3mod4 in Hrun.
  assert (Htbl : common_lookup common_universes universe = None).
  { assert (Hc : universe = 0 \/ universe = 1 \/ universe = 2 \/ universe = 3
                 \/ universe = 4 \/ universe = 5 \/ universe = 6) by lia.
    repeat (destruct Hc as [-> | Hc]); try subst universe; reflexivity. }
  rewrite Htbl in Hrun.
  destruct (prime_predecessor fuel universe) as [p|] eqn:Ep; [|discriminate].
  cbn [bind] in Hrun.
  assert (Hc : universe = 0 \/ universe = 2 \/ (universe = 5 \/ universe = 6)
               \/ (universe = 1 \/ universe = 3 \/ universe = 4)) by lia.
  destruct Hc as [-> | [-> | [Hc | Hc]]].
  - cbn in Ep. injection Ep as <-.
    apply (prev_prime_3mod4_loop_small fuel 0 r); auto.
  - cbn in Ep. injection Ep as <-.
    apply (prev_prime_3mod4_loop_small fuel 2 r); auto.
  - assert (Hp5 : p = 5).
    { destruct (prime_predecessor_largest fuel universe p ltac:(lia) Ep)
        as (Hpr & Hr & Hmax).
      assert (5 <= p) by lia.
      destruct (Z.eq_dec p 6) as [->|]; [exfalso|lia].
      apply (divisor_not_prime 6 2 ltac:(lia)); [exists 3; reflexivity|assumption]. }
    subst p. apply (prev_prime_3mod4_loop_small fuel 5 r); auto.
  - destruct (prime_predecessor_wraps fuel universe p ltac:(lia) Ep) as (H1 & H2 & H3).
    exact (prev_prime_3mod4_loop_top fuel p r H1 H2 H3 Hrun).
Qed.

(** C4, at the universe 3: the largest prime not above 3 that is 3 modulo 4
    is 3, but the search returns the prime of the universe 2^64 - 1. *)
Theorem prev_prime_3mod4_3_overshoots :
  (Z.prime 3 /\ 3 mod 4 = 3)
  /\ (exists fuel r, prev_prime_3mod4 fuel 3 = Some r)
  /\ (forall fuel r, prev_prime_3mod4 fuel 3 = Some r -> r = 0xFFFFFFFFFFFFFF43).
Proof.
  split; [split; [exact Z.prime_3|reflexivity]|]. split.
  - apply prev_prime_3mod4_total. lia.
  - intros fuel r Hrun. apply (prev_prime_3mod4_below_7 fuel 3); [lia|assumption].
Qed.

(** ** The one-phase step [permute] *)

Lemma permute_gap P x : prime_ P <= x -> permute P x = x.
Proof.
  intros H. unfold permute.
  destruct (Z.geb_spec x (prime_ P)) as [_|Hlt]; [reflexivity|lia].
Qed.

(** Below the prime no intermediate value wraps: the step is the square
    modulo the prime, reflected in the upper half. *)
Lemma permute_residue P x :
  0 <= x < prime_ P -> prime_ P < 2 ^ 64 ->
  permute P x =
  if x <=? prime_ P / 2 then (x * x) mod prime_ P
  else prime_ P - (x * x) mod prime_ P.
Proof.
  intros Hx Hp. unfold permute.
  destruct (Z.geb_spec x (prime_ P)) as [Hge|_]; [lia|].
  rewrite shiftr1.
  assert (Hsq : 0 <= x * x < 2 ^ 128).
  { split; [nia|]. change (2 ^ 128) with (2 ^ 64 * 2 ^ 64). nia. }
  rewrite (wrap128_small _ Hsq).
  pose proof (Z.mod_pos_bound (x * x) (prime_ P) ltac:(lia)) as Hr.
  rewrite (wrap64_small ((x * x) mod prime_ P)) by lia.
  destruct (x <=? prime_ P / 2); [reflexivity|].
  apply wrap64_small. lia.
Qed.

Section PermuteBijection.
Variable P : RandomPermutation.
Let p := prime_ P.
Hypothesis Hprime : Z.prime p.
Hypothesis H3mod4 : p mod 4 = 3.
Hypothesis Hu64 : p < 2 ^ 64.

Let p_odd : p = 2 * (p / 2) + 1.
Proof.
  pose proof (Z.div_mod p 4 ltac:(lia)) as H4.
  pose proof (Z.div_mod p 2 ltac:(lia)) as H2.
  assert (p mod 2 = 1).
  { rewrite H4 at 1. replace (4 * (p / 4) + p mod 4) with (p mod 4 + (2 * (p / 4)) * 2) by ring.
    rewrite Z.mod_add by lia. rewrite H3mod4. reflexivity. }
  lia.
Qed.

Lemma square_residue_nonzero x : 0 < x < p -> (x * x) mod p <> 0.
Proof.
  intros Hx H0. apply Z.mod_divide in H0; [|lia].
  apply Z.divide_prime_mul in H0; [|assumption].
  pose proof (small_not_divisible p x ltac:(lia)).
  tauto.
Qed.

Lemma equal_squares x y :
  0 <= x < p -> 0 <= y < p -> (x * x) mod p = (y * y) mod p ->
  x = y \/ x + y = p \/ (x = 0 /\ y = 0).
Proof.
  intros Hx Hy Heq.
  apply (mod_eq_divide p Hprime) in Heq.
  replace (x * x - y * y) with ((x - y) * (x + y)) in Heq by ring.
  apply Z.divide_prime_mul in Heq; [|assumption].
  destruct Heq as [H|H].
  - left. destruct (Z.eq_dec x y) as [|Hne]; [assumption|exfalso].
    apply Z.absle_divide in H; lia.
  - destruct (Z.eq_dec (x + y) 0) as [H0|Hne]; [right; right; lia|].
    right. left. destruct H as [c Hc].
    assert (0 < c) by nia. assert (c < 2) by nia. nia.
Qed.

Lemma permute_range x : 0 <= x < p -> 0 <= permute P x < p.
Proof.
  intros Hx. rewrite permute_residue by (fold p; lia). fold p.
  pose proof (Z.mod_pos_bound (x * x) p ltac:(lia)) as Hr.
  destruct (Z.leb_spec x (p / 2)) as [Hlo|Hhi]; [lia|].
  pose proof (square_residue_nonzero x ltac:(lia)). lia.
Qed.

Lemma permute_injective x y :
  0 <= x < p -> 0 <= y < p -> permute P x = permute P y -> x = y.
Proof.
  intros Hx Hy. rewrite !permute_residue by (fold p; lia). fold p.
  pose proof (Z.mod_pos_bound (x * x) p ltac:(lia)) as Hrx.
  pose proof (Z.mod_pos_bound (y * y) p ltac:(lia)) as Hry.
  pose proof p_odd as Hodd.
  assert (Hmixed : forall a b, 0 <= a < p -> 0 < b < p ->
                               (a * a) mod p = p - (b * b) mod p -> False).
  { intros a b Ha Hb Hab.
    assert (Hsum : (p | a * a + b * b)).
    { apply Z.mod_divide; [lia|].
      rewrite Zplus_mod, Hab.
      replace (p - (b * b) mod p + (b * b) mod p) with (0 + 1 * p) by ring.
      rewrite Z.mod_add by lia. reflexivity. }
    apply (sum_of_squares_divisible p Hprime H3mod4) in Hsum.
    exact (small_not_divisible p b ltac:(lia) Hsum). }
  destruct (Z.leb_spec x (p / 2)) as [Hxl|Hxh];
    destruct (Z.leb_spec y (p / 2)) as [Hyl|Hyh]; intros Heq.
  - destruct (equal_squares x y Hx Hy Heq) as [?|[?|?]]; lia.
  - exfalso. apply (Hmixed x y); [lia|lia|assumption].
  - exfalso. apply (Hmixed y x); [lia|lia|symmetry; assumption].
  - assert (Heq' : (x * x) mod p = (y * y) mod p) by lia.
    destruct (equal_squares x y Hx Hy Heq') as [?|[?|?]]; lia.
Qed.

Lemma permute_surjective y :
  0 <= y < p -> exists x, 0 <= x < p /\ permute P x = y.
Proof.
  apply injective_on_surjective.
  - pose proof (Z.prime_ge_2 p Hprime). lia.
  - exact permute_range.
  - exact permute_injective.
Qed.
End PermuteBijection.

(** C5: for every prime [p] with [p mod 4 = 3] held in the [prime_] field,
    the inner step maps [x < p] to [x * x mod p] when [x <= p / 2] and to
    [p - x * x mod p] otherwise, and restricted to [[0, p)] it is injective
    and onto [[0, p)]. *)
Theorem permute_bijection_on_prime (P : RandomPermutation) :
  Z.prime (prime_ P) -> prime_ P mod 4 = 3 -> prime_ P < 2 ^ 64 ->
  (forall x, 0 <= x < prime_ P ->
             permute P x = if x <=? prime_ P / 2 then (x * x) mod prime_ P
                           else prime_ P - (x * x) mod prime_ P)
  /\ bijection_on (prime_ P) (permute P).
Proof.
  intros Hp H3 Hu. split.
  - intros x Hx. now apply permute_residue.
  - split; [|split].
    + exact (permute_range P Hp H3 Hu).
    + exact (permute_injective P Hp H3 Hu).
    + exact (permute_surjective P Hp H3 Hu).
Qed.

Lemma permute_bijection_on_prime_witness :
  (forall x, 0 <= x < 7 ->
             permute (mkRandomPermutation 100 0 7) x
             = if x <=? 7 / 2 then (x * x) mod 7 else 7 - (x * x) mod 7)
  /\ bijection_on 7 (permute (mkRandomPermutation 100 0 7)).
Proof.
  apply (permute_bijection_on_prime (mkRandomPermutation 100 0 7)).
  - apply trial_prime_sound. vm_compute. reflexivity.
  - reflexivity.
  - reflexivity.
Defined.

Lemma bijection_on_compose n f g :
  bijection_on n f -> bijection_on n g -> bijection_on n (fun x => g (f x)).
Proof.
  intros (Hf1 & Hf2 & Hf3) (Hg1 & Hg2 & Hg3). split; [|split].
  - intros x Hx. apply Hg1, Hf1, Hx.
  - intros x y Hx Hy Heq. apply Hf2; [assumption|assumption|].
    apply Hg2; [apply Hf1, Hx|apply Hf1, Hy|assumption].
  - intros z Hz. destruct (Hg3 z Hz) as (y & Hy & <-).
    destruct (Hf3 y Hy) as (x & Hx & <-). exists x. split; [assumption|reflexivity].
Qed.

(** The inner step is a bijection of the whole universe: a bijection below
    the prime, the identity on the gap. *)
Lemma permute_bijection_universe P :
  Z.prime (prime_ P) -> prime_ P mod 4 = 3 ->
  prime_ P <= universe_ P < 2 ^ 64 ->
  bijection_on (universe_ P) (permute P).
Proof.
  intros Hpr H3 Hu.
  assert (Hrange : forall x, 0 <= x < universe_ P -> 0 <= permute P x < universe_ P).
  { intros x Hx. destruct (Z_lt_ge_dec x (prime_ P)) as [Hlt|Hge].
    - pose proof (permute_range P Hpr H3 ltac:(lia) x ltac:(lia)). lia.
    - rewrite permute_gap by lia. assumption. }
  assert (Hinj : forall x y, 0 <= x < universe_ P -> 0 <= y < universe_ P ->
                             permute P x = permute P y -> x = y).
  { intros x y Hx Hy Heq.
    destruct (Z_lt_ge_dec x (prime_ P)) as [Hxl|Hxg];
      destruct (Z_lt_ge_dec y (prime_ P)) as [Hyl|Hyg].
    - apply (permute_injective P Hpr H3 ltac:(lia)); [lia|lia|assumption].
    - pose proof (permute_range P Hpr H3 ltac:(lia) x ltac:(lia)).
      rewrite (permute_gap P y) in Heq by lia. lia.
    - pose proof (permute_range P Hpr H3 ltac:(lia) y ltac:(lia)).
      rewrite (permute_gap P x) in Heq by lia. lia.
    - rewrite !permute_gap in Heq by lia. assumption. }
  split; [assumption|]. split; [assumption|].
  apply injective_on_surjective; [|assumption|assumption].
  pose proof (Z.prime_ge_2 _ Hpr). lia.
Qed.

(** ** The constructor *)

Lemma lxor_u64 a b :
  0 <= a < 2 ^ 64 -> 0 <= b < 2 ^ 64 -> 0 <= Z.lxor a b < 2 ^ 64.
Proof.
  intros Ha Hb. split; [apply Z.lxor_nonneg; lia|].
  destruct (Z.eq_dec (Z.lxor a b) 0) as [->|Hne]; [lia|].
  apply Z.log2_lt_pow2.
  - assert (0 <= Z.lxor a b) by (apply Z.lxor_nonneg; lia). lia.
  - pose proof (Z.log2_lxor a b ltac:(lia) ltac:(lia)) as Hl.
    assert (Z.log2 a < 64).
    { destruct (Z.eq_dec a 0) as [->|]; [reflexivity|apply Z.log2_lt_pow2; lia]. }
    assert (Z.log2 b < 64).
    { destruct (Z.eq_dec b 0) as [->|]; [reflexivity|apply Z.log2_lt_pow2; lia]. }
    lia.
Qed.

Lemma seed_internal_u64 seed : 0 <= seed < 2 ^ 64 -> 0 <= seed_internal seed < 2 ^ 64.
Proof.
  intros Hs. unfold seed_internal. apply lxor_u64; [apply lxor_u64|]; lia.
Qed.

Lemma RandomPermutation_new_fields fuel universe seed P :
  RandomPermutation_new fuel universe seed = Some P ->
  universe_ P = universe /\ seed_ P = seed_internal seed
  /\ prev_prime_3mod4 fuel universe = Some (prime_ P).
Proof.
  unfold RandomPermutation_new. intros H.
  destruct (prev_prime_3mod4 fuel universe) as [p|]; [|discriminate].
  cbn [bind] in H. injection H as <-. repeat split.
Qed.

Lemma RandomPermutation_new_total universe seed :
  0 <= universe < 2 ^ 64 ->
  exists fuel P, RandomPermutation_new fuel universe seed = Some P.
Proof.
  intros Hu. destruct (prev_prime_3mod4_total universe Hu) as (fuel & p & Hp).
  exists fuel. eexists. unfold RandomPermutation_new. rewrite Hp. reflexivity.
Qed.

(** For a universe of at least 7 the stored prime is the largest prime not
    above the universe that is 3 modulo 4. *)
Lemma constructed_prime_from_7 fuel universe seed P :
  7 <= universe < 2 ^ 64 ->
  RandomPermutation_new fuel universe seed = Some P ->
  universe_ P = universe /\ Z.prime (prime_ P) /\ prime_ P mod 4 = 3
  /\ 7 <= prime_ P <= universe
  /\ forall q, Z.prime q -> q mod 4 = 3 -> q <= universe -> q <= prime_ P.
Proof.
  intros Hu Hnew.
  destruct (RandomPermutation_new_fields _ _ _ _ Hnew) as (HU & _ & HP).
  split; [assumption|]. exact (prev_prime_3mod4_from_7 fuel universe _ Hu HP).
Qed.

(** C3, at the universe 3: the constructor succeeds and stores the prime of
    the universe 2^64 - 1, far above the universe. *)
Theorem constructed_prime_exceeds_universe_3 :
  (exists fuel P, RandomPermutation_new fuel 3 0 = Some P)
  /\ (forall fuel seed P,
         RandomPermutation_new fuel 3 seed = Some P ->
         universe_ P = 3 /\ prime_ P = 0xFFFFFFFFFFFFFF43).
Proof.
  split; [apply RandomPermutation_new_total; lia|].
  intros fuel seed P Hnew.
  destruct (RandomPermutation_new_fields _ _ _ _ Hnew) as (HU & _ & HP).
  split; [assumption|].
  apply (prev_prime_3mod4_below_7 fuel 3); [lia|assumption].
Qed.

(** ** The query [operator()] *)

(** C2: for every permutation constructed from a universe of at least 1 and
    a seed, the query on [i] is the inner step applied to
    [(seed_internal + permute i) mod universe], where [seed_internal] is the
    seed xor-ed with the two constants; the sum is the 64-bit sum of the
    source, which is the exact sum whenever that stays below 2^64.  The
    construction itself always succeeds. *)
Theorem permute_index_two_phase (universe seed i : Z) :
  1 <= universe < 2 ^ 64 -> 0 <= seed < 2 ^ 64 -> 0 <= i < 2 ^ 64 ->
  (exists fuel P, RandomPermutation_new fuel universe seed = Some P)
  /\ forall fuel P,
      RandomPermutation_new fuel universe seed = Some P ->
      universe_ P = universe
      /\ seed_ P = Z.lxor (Z.lxor seed 0x9696594B6A5936B2) 0xD2165B4B66592AD6
      /\ 0 <= seed_ P < 2 ^ 64
      /\ permute_index P i = Some (permute_index_spec universe (prime_ P) seed i)
      /\ permute_index P i
         = Some (permute P (wrap64 (seed_ P + permute P i) mod universe))
      /\ (seed_ P + permute P i < 2 ^ 64 ->
          permute_index P i = Some (permute P ((seed_ P + permute P i) mod universe))).
Proof.
  intros Hu Hs Hi. split; [apply RandomPermutation_new_total; lia|].
  intros fuel P Hnew.
  destruct (RandomPermutation_new_fields _ _ _ _ Hnew) as (HU & HS & HP).
  pose proof (seed_internal_u64 seed Hs) as Hsi.
  assert (Hq : permute_index P i
               = Some (permute P (wrap64 (seed_ P + permute P i) mod universe))).
  { unfold permute_index. rewrite HU.
    destruct (Z.eqb_spec universe 0); [lia|reflexivity]. }
  split; [assumption|]. split; [exact HS|]. split; [rewrite HS; assumption|].
  split; [|split; [assumption|]].
  - rewrite Hq. unfold permute_index_spec. cbn zeta.
    destruct P as [u s p]. cbn [universe_ seed_ prime_] in *. subst u s. reflexivity.
  - intros Hsmall. rewrite Hq. f_equal. f_equal. f_equal.
    apply wrap64_small. split; [|assumption].
    assert (0 <= permute P i).
    { unfold permute. destruct (i >=? prime_ P); [lia|].
      destruct (i <=? Z.shiftr (prime_ P) 1); apply wrap64_range. }
    lia.
Qed.

Lemma permute_index_two_phase_witness :
  (exists fuel P, RandomPermutation_new fuel 100 42 = Some P)
  /\ forall fuel P,
      RandomPermutation_new fuel 100 42 = Some P ->
      universe_ P = 100
      /\ seed_ P = Z.lxor (Z.lxor 42 0x9696594B6A5936B2) 0xD2165B4B66592AD6
      /\ 0 <= seed_ P < 2 ^ 64
      /\ permute_index P 5 = Some (permute_index_spec 100 (prime_ P) 42 5)
      /\ permute_index P 5
         = Some (permute P (wrap64 (seed_ P + permute P 5) mod 100))
      /\ (seed_ P + permute P 5 < 2 ^ 64 ->
          permute_index P 5 = Some (permute P ((seed_ P + permute P 5) mod 100))).
Proof.
  apply (permute_index_two_phase 100 42 5); lia.
Defined.

(** The sum in the query is the 64-bit one: at the universe 7 with the mixed
    seed 2^64 - 1 and the index 1 the query returns 0, where the exact sum
    2^64 would be reduced to 2 and give 4. *)
Lemma permute_index_sum_is_64_bit :
  let P := mkRandomPermutation 7 (2 ^ 64 - 1) 7 in
  permute_index P 1 = Some 0
  /\ permute P ((seed_ P + permute P 1) mod universe_ P) = 4.
Proof. vm_compute. split; reflexivity. Qed.

(** For a universe of at least 7, every query, in range or not, returns a
    value below the universe. *)
Lemma permute_index_in_universe fuel universe seed P i :
  7 <= universe < 2 ^ 64 ->
  RandomPermutation_new fuel universe seed = Some P ->
  exists v, permute_index P i = Some v /\ 0 <= v < universe.
Proof.
  intros Hu Hnew.
  destruct (constructed_prime_from_7 _ _ _ _ Hu Hnew) as (HU & Hpr & H3 & Hp & _).
  unfold permute_index. rewrite HU.
  destruct (Z.eqb_spec universe 0); [lia|].
  eexists. split; [reflexivity|].
  set (y := wrap64 (seed_ P + permute P i) mod universe).
  assert (Hy : 0 <= y < universe) by (apply Z.mod_pos_bound; lia).
  destruct (Z_lt_ge_dec y (prime_ P)) as [Hlt|Hge].
  - pose proof (permute_range P Hpr H3 ltac:(lia) y ltac:(lia)). lia.
  - rewrite permute_gap by lia. assumption.
Qed.

(** The default-constructed permutation sends every index to 0. *)
Lemma permute_index_default i :
  permute_index RandomPermutation_default i = Some 0.
Proof.
  unfold permute_index, RandomPermutation_default. cbn [universe_ seed_ prime_ Z.eqb].
  rewrite Z.mod_1_r. reflexivity.
Qed.

(** C10, at the universe 3: with the seed whose mixed value is 2, the query
    on index 0 returns 4, which is not below the universe. *)
Theorem permute_index_leaves_universe_3 :
  seed_internal 0x448002000C001C66 = 2
  /\ (exists fuel P, RandomPermutation_new fuel 3 0x448002000C001C66 = Some P)
  /\ (forall fuel P,
         RandomPermutation_new fuel 3 0x448002000C001C66 = Some P ->
         universe_ P = 3 /\ permute_index P 0 = Some 4).
Proof.
  split; [vm_compute; reflexivity|].
  split; [apply RandomPermutation_new_total; lia|].
  intros fuel P Hnew.
  destruct (RandomPermutation_new_fields _ _ _ _ Hnew) as (HU & HS & HP).
  split; [assumption|].
  pose proof (prev_prime_3mod4_below_7 fuel 3 _ ltac:(lia) HP) as Hprime.
  destruct P as [u s p]. cbn [universe_ seed_ prime_] in *. subst u s p.
  vm_compute. reflexivity.
Qed.

(** Adding the seed and reducing modulo the universe is a bijection of the
    universe as long as the 64-bit sum cannot wrap. *)
Lemma offset_bijection s u :
  0 <= s -> 1 <= u -> s + u <= 2 ^ 64 ->
  bijection_on u (fun j => wrap64 (s + j) mod u).
Proof.
  intros Hs Hu Hnowrap.
  assert (Hrange : forall x, 0 <= x < u -> 0 <= wrap64 (s + x) mod u < u).
  { intros x Hx. apply Z.mod_pos_bound. lia. }
  assert (Hinj : forall x y, 0 <= x < u -> 0 <= y < u ->
                             wrap64 (s + x) mod u = wrap64 (s + y) mod u -> x = y).
  { intros x y Hx Hy. rewrite !wrap64_small by lia. intros Heq.
    assert (Hd : (u | (s + x) - (s + y))).
    { apply Z.mod_divide; [lia|]. rewrite Zminus_mod, Heq, Z.sub_diag. reflexivity. }
    replace (s + x - (s + y)) with (x - y) in Hd by ring.
    destruct (Z.eq_dec x y) as [|Hne]; [assumption|exfalso].
    apply Z.absle_divide in Hd; lia. }
  split; [assumption|]. split; [assumption|].
  apply injective_on_surjective; [lia|assumption|assumption].
Qed.

(** The query is a bijection of [[0, universe)] whenever the stored prime is
    a prime that is 3 modulo 4 and not above the universe, and the seed
    offset cannot wrap: [seed_ + universe_ <= 2^64]. *)
Lemma permute_index_bijection P :
  Z.prime (prime_ P) -> prime_ P mod 4 = 3 ->
  prime_ P <= universe_ P < 2 ^ 64 ->
  0 <= seed_ P -> seed_ P + universe_ P <= 2 ^ 64 ->
  exists f, (forall i, permute_index P i = Some (f i))
            /\ bijection_on (universe_ P) f.
Proof.
  intros Hpr H3 Hu Hs Hnowrap.
  pose proof (Z.prime_ge_2 _ Hpr) as Hp2.
  exists (fun i => permute P (wrap64 (seed_ P + permute P i) mod universe_ P)).
  split.
  - intros i. unfold permute_index.
    destruct (Z.eqb_spec (universe_ P) 0); [lia|reflexivity].
  - pose proof (permute_bijection_universe P Hpr H3 Hu) as Hb.
    pose proof (offset_bijection (seed_ P) (universe_ P) Hs ltac:(lia) Hnowrap) as Ho.
    exact (bijection_on_compose _ _ _ (bijection_on_compose _ _ _ Hb Ho) Hb).
Qed.

(** In particular: every universe of at least 7 with any seed whose mixed
    value leaves room for the universe below 2^64. *)
Lemma constructed_permutation_bijection fuel universe seed P :
  7 <= universe < 2 ^ 64 -> 0 <= seed < 2 ^ 64 ->
  seed_internal seed + universe <= 2 ^ 64 ->
  RandomPermutation_new fuel universe seed = Some P ->
  exists f, (forall i, permute_index P i = Some (f i))
            /\ bijection_on universe f.
Proof.
  intros Hu Hseed Hnowrap Hnew.
  destruct (RandomPermutation_new_fields _ _ _ _ Hnew) as (_ & HS & _).
  destruct (constructed_prime_from_7 _ _ _ _ Hu Hnew) as (HU & H1 & H2 & H3 & _).
  pose proof (seed_internal_u64 seed Hseed).
  rewrite <- HU. apply permute_index_bijection; try assumption; rewrite ?HU, ?HS; lia.
Qed.

(** C1, at the universe 7 with the seed whose mixed value is 2^64 - 1: the
    prime is 7, and the indices 0 and 3 are both sent to 1, because
    [seed_ + permute 3] wraps to 1 before the reduction modulo 7. *)
Theorem permute_index_collision_7 :
  RandomPermutation_new 60 7 0xBB7FFDFFF3FFE39B
  = Some (mkRandomPermutation 7 (2 ^ 64 - 1) 7)
  /\ map (permute_index (mkRandomPermutation 7 (2 ^ 64 - 1) 7)) [0; 1; 2; 3; 4; 5; 6]
     = map Some [1; 0; 2; 1; 5; 4; 3].
Proof. vm_compute. split; reflexivity. Qed.

(** ** Iteration from [begin()] to [end()] *)

Lemma RandomPermutation_eqb_refl P : RandomPermutation_eqb P P = true.
Proof. unfold RandomPermutation_eqb. now rewrite !Z.eqb_refl. Qed.

Lemma Iterator_eqb_refl it : Iterator_eqb it it = true.
Proof.
  unfold Iterator_eqb.
  rewrite RandomPermutation_eqb_refl, Z.eqb_refl, Bool.eqb_reflx. reflexivity.
Qed.

Lemma Iterator_eqb_overflow P x y :
  Iterator_eqb (mkIterator P x false) (mkIterator P y true) = false.
Proof. unfold Iterator_eqb. cbn. now rewrite !andb_false_r. Qed.

(** From a cursor at index [k <= universe_] that is not flagged, the loop
    dereferences every index up to and including [universe_]. *)
Lemma iterate_from P (n : nat) :
  forall (k fuel : nat),
    0 <= universe_ P < 2 ^ 64 ->
    Z.of_nat (k + n) = universe_ P ->
    (n + 2 <= fuel)%nat ->
    iterate fuel (mkIterator P (Z.of_nat k) false) (end_ P)
    = Some (map (fun j => mkIterator P j false) (zrange k (S n))).
Proof.
  induction n as [|n IH]; intros k fuel Hu Hk Hfuel.
  - destruct fuel as [|[|fuel]]; [lia|lia|].
    cbn [iterate]. unfold end_ at 1. rewrite Iterator_eqb_overflow.
    unfold incr. cbn [perm_ x_ overflow_].
    replace (Z.of_nat k =? universe_ P) with true by (symmetry; apply Z.eqb_eq; lia).
    replace (Z.of_nat k) with (universe_ P) by lia.
    fold (end_ P). rewrite Iterator_eqb_refl. cbn [bind].
    unfold zrange. cbn [seq map]. repeat f_equal. lia.
  - destruct fuel as [|fuel]; [lia|].
    cbn [iterate]. unfold end_ at 1. rewrite Iterator_eqb_overflow.
    unfold incr. cbn [perm_ x_ overflow_].
    replace (Z.of_nat k =? universe_ P) with false by (symmetry; apply Z.eqb_neq; lia).
    rewrite wrap64_small by lia.
    replace (Z.of_nat k + 1) with (Z.of_nat (S k)) by lia.
    rewrite (IH (S k) fuel Hu ltac:(lia) ltac:(lia)). cbn [bind].
    unfold zrange. cbn [seq map]. reflexivity.
Qed.

(** The whole loop dereferences [universe_ + 1] cursors: the indices 0 to
    [universe_], the last of which is outside [[0, universe_)]. *)
Lemma iterate_begin_end P fuel :
  0 <= universe_ P < 2 ^ 64 ->
  (Z.to_nat (universe_ P) + 2 <= fuel)%nat ->
  iterate fuel (begin_ P) (end_ P) = Some (cursors P (Z.to_nat (universe_ P) + 1)).
Proof.
  intros Hu Hfuel. unfold begin_, Iterator_new, cursors.
  replace (0 >? universe_ P) with false
    by (symmetry; rewrite Z.gtb_ltb; apply Z.ltb_ge; lia).
  change 0 with (Z.of_nat 0) at 1.
  rewrite (iterate_from P (Z.to_nat (universe_ P)) 0 fuel Hu ltac:(lia) Hfuel).
  now rewrite Nat.add_1_r.
Qed.

(** C6, at the universe 7 (seed 0): the loop from [begin()] to [end()]
    dereferences eight cursors, at the indices 0 to 7, and the value at the
    index 7 repeats the value at the index 0. *)
Theorem iterate_yields_universe_plus_one_7 :
  RandomPermutation_new 60 7 0 = Some (mkRandomPermutation 7 0x448002000C001C64 7)
  /\ option_map (map x_)
       (iterate 60 (begin_ (mkRandomPermutation 7 0x448002000C001C64 7))
                   (end_ (mkRandomPermutation 7 0x448002000C001C64 7)))
     = Some [0; 1; 2; 3; 4; 5; 6; 7]
  /\ option_map (map deref)
       (iterate 60 (begin_ (mkRandomPermutation 7 0x448002000C001C64 7))
                   (end_ (mkRandomPermutation 7 0x448002000C001C64 7)))
     = Some (map Some [3; 6; 4; 0; 2; 1; 5; 3]).
Proof. vm_compute. repeat split; reflexivity. Qed.

(** ** Further properties of the integer square roots *)

(** X1. For every 64-bit [x], neither square root falls below the true one:
    [x < (isqrt_floor x + 1)^2] and [x <= isqrt_ceil(x)^2]; both results stay
    below [2^33 + 2], and for [x >= 4] the square of [isqrt_ceil x] is at
    most [8 x]. *)
Theorem isqrt_never_undershoots (x : Z) :
  0 <= x < 2 ^ 64 ->
  0 <= isqrt_floor x <= isqrt_ceil x
  /\ isqrt_ceil x <= 2 ^ 33 + 1
  /\ x < (isqrt_floor x + 1) * (isqrt_floor x + 1)
  /\ x <= isqrt_ceil x * isqrt_ceil x
  /\ (4 <= x -> isqrt_ceil x * isqrt_ceil x <= 8 * x).
Proof.
  intros Hx.
  pose proof (isqrt_floor_upper x Hx) as Hf. cbn zeta in Hf.
  pose proof (isqrt_ceil_upper x Hx) as Hc. cbn zeta in Hc.
  destruct Hf as (Hf1 & Hf2 & _). destruct Hc as (Hc1 & Hc2 & Hc3).
  assert (Hle : isqrt_floor x <= isqrt_ceil x).
  { unfold isqrt_ceil.
    assert (Hb : 0 <= b2z (wrap64 (isqrt_floor x * isqrt_floor x) <? x) <= 1)
      by (destruct (_ <? _); simpl; lia).
    rewrite wrap64_small by lia. lia. }
  split; [lia|]. split; [lia|]. split; [assumption|]. split; assumption.
Qed.

Lemma isqrt_never_undershoots_witness :
  0 <= isqrt_floor 1000 <= isqrt_ceil 1000
  /\ isqrt_ceil 1000 <= 2 ^ 33 + 1
  /\ 1000 < (isqrt_floor 1000 + 1) * (isqrt_floor 1000 + 1)
  /\ 1000 <= isqrt_ceil 1000 * isqrt_ceil 1000
  /\ (4 <= 1000 -> isqrt_ceil 1000 * isqrt_ceil 1000 <= 8 * 1000).
Proof. apply (isqrt_never_undershoots 1000). lia. Defined.

(** X2. On the inputs below 4 and on those whose bit width is odd, the two
    functions are exact: [isqrt_floor x] is the largest [r] with [r^2 <= x]
    and [isqrt_ceil x] the smallest [m] with [x <= m^2]. *)
Theorem isqrt_exact_on_odd_width (x : Z) :
  0 <= x < 2 ^ 64 -> x < 4 \/ bit_width x mod 2 = 1 ->
  (0 <= isqrt_floor x
   /\ isqrt_floor x * isqrt_floor x <= x < (isqrt_floor x + 1) * (isqrt_floor x + 1))
  /\ (0 <= isqrt_ceil x /\ x <= isqrt_ceil x * isqrt_ceil x
      /\ forall k, 0 <= k -> x <= k * k -> isqrt_ceil x <= k).
Proof.
  intros Hx Hw. exact (isqrt_exact_odd_width x Hx Hw).
Qed.

Lemma isqrt_exact_on_odd_width_witness :
  (0 <= isqrt_floor 30
   /\ isqrt_floor 30 * isqrt_floor 30 <= 30 < (isqrt_floor 30 + 1) * (isqrt_floor 30 + 1))
  /\ (0 <= isqrt_ceil 30 /\ 30 <= isqrt_ceil 30 * isqrt_ceil 30
      /\ forall k, 0 <= k -> 30 <= k * k -> isqrt_ceil 30 <= k).
Proof.
  apply (isqrt_exact_on_odd_width 30); [lia|right; reflexivity].
Defined.

(** With an even bit width the first comparison of the loop is made on the
    top two bits of [x], which are 2 or 3, against 9: every comparison then
    fails and the result doubles at each step. *)
Lemma isqrt_loop_pow2 (e : nat) :
  forall (e2 : nat) x r k,
    0 <= x -> 0 <= k -> r = 2 ^ k ->
    k + Z.of_nat e <= 31 -> Z.of_nat (e + e2) <= 32 ->
    x / 4 ^ Z.of_nat (e + e2) < r * r ->
    isqrt_loop (e + e2) x r = isqrt_loop e2 x (2 ^ (k + Z.of_nat e)).
Proof.
  induction e as [|e IH]; intros e2 x r k Hx Hk Hr Hke He Hinv.
  - cbn [Nat.add]. change (Z.of_nat 0) with 0. rewrite Z.add_0_r. now subst r.
  - cbn [Nat.add isqrt_loop].
    rewrite Nat2Z.inj_succ in Hke.
    change (S e + e2)%nat with (S (e + e2)) in He, Hinv.
    rewrite Nat2Z.inj_succ in He, Hinv.
    rewrite Z.pow_succ_r in Hinv by lia.
    assert (Hp4 : 0 < 4 ^ Z.of_nat (e + e2)) by (apply Z.pow_pos_nonneg; lia).
    assert (Hr1 : 1 <= r) by (subst r; pose proof (Z.pow_pos_nonneg 2 k); lia).
    assert (Hr30 : r <= 2 ^ 30) by (subst r; apply Z.pow_le_mono_r; lia).
    rewrite !shiftl1.
    rewrite (wrap64_small (2 * Z.of_nat (e + e2))) by lia.
    rewrite Z.shiftr_div_pow2 by lia.
    replace (2 ^ (2 * Z.of_nat (e + e2))) with (4 ^ Z.of_nat (e + e2))
      by (rewrite Z.pow_mul_r by lia; reflexivity).
    rewrite (wrap64_small (2 * r)) by lia.
    rewrite (wrap64_small (2 * r + 1)) by lia.
    rewrite (wrap64_small ((2 * r + 1) * (2 * r + 1))) by nia.
    set (cur := x / 4 ^ Z.of_nat (e + e2)) in *.
    assert (Hcur : cur < 4 * (r * r)).
    { unfold cur. apply Z.div_lt_upper_bound; [lia|].
      pose proof (Z.mul_succ_div_gt x (4 * 4 ^ Z.of_nat (e + e2)) ltac:(lia)) as Hgt.
      assert (Hs : Z.succ (x / (4 * 4 ^ Z.of_nat (e + e2))) <= r * r) by lia.
      eapply Z.lt_le_trans; [exact Hgt|].
      replace (4 ^ Z.of_nat (e + e2) * (4 * (r * r)))
        with (4 * 4 ^ Z.of_nat (e + e2) * (r * r)) by ring.
      apply Z.mul_le_mono_nonneg_l; lia. }
    destruct (Z.leb_spec ((2 * r + 1) * (2 * r + 1)) cur) as [Hle|_]; [nia|].
    simpl b2z. rewrite Z.add_0_r. rewrite (wrap64_small (2 * r)) by lia.
    rewrite (IH e2 x (2 * r) (k + 1)); try lia.
    + f_equal. f_equal. lia.
    + subst r. rewrite Z.pow_add_r by lia. lia.
Qed.

(** X3. On the inputs of at least 4 whose bit width [w] is even, the loop
    returns a power of two that lies above the true root: [isqrt_floor x]
    and [isqrt_ceil x] are both [2^(w/2)], whose square [2^w] exceeds [x];
    for [w = 64] the last comparison wraps and they are [2^32 + 1] and
    [2^32 + 2]. *)
Theorem isqrt_on_even_width (x : Z) :
  4 <= x < 2 ^ 64 -> bit_width x mod 2 = 0 ->
  isqrt_floor x = (if bit_width x =? 64 then 2 ^ 32 + 1 else 2 ^ (bit_width x / 2))
  /\ isqrt_ceil x = (if bit_width x =? 64 then 2 ^ 32 + 2 else 2 ^ (bit_width x / 2))
  /\ x < isqrt_floor x * isqrt_floor x.
Proof.
  intros Hx Hw.
  pose proof (bit_width_spec x ltac:(lia)) as [Hlo Hhi].
  pose proof (bit_width_u64 x ltac:(lia)) as Hbw.
  assert (Hfloor :
            isqrt_floor x
            = if bit_width x =? 64 then 2 ^ 32 + 1 else 2 ^ (bit_width x / 2)).
  { unfold isqrt_floor.
    destruct (Z.ltb_spec x 4) as [Hlt|_]; [lia|]. cbn zeta. rewrite shiftr1.
    set (w := bit_width x) in *.
    set (e := w / 2).
    assert (Hwe : w = 2 * e).
    { unfold e. pose proof (Z.div_mod w 2 ltac:(lia)). lia. }
    assert (He : 0 <= e <= 32) by lia.
    assert (H4e : 4 ^ e = 2 ^ w) by (rewrite Hwe, Z.pow_mul_r by lia; reflexivity).
    destruct (Z.eqb_spec w 64) as [H64|Hn64].
    - assert (He32 : e = 32) by lia. rewrite He32.
      change (Z.to_nat 32) with (31 + 1)%nat.
      rewrite (isqrt_loop_pow2 31 1 x 1 0); try lia.
      + cbn [isqrt_loop].
        change (wrap64 (Z.shiftl (Z.of_nat 0) 1)) with 0.
        rewrite Z.shiftr_0_r.
        change (wrap64 (Z.shiftl (2 ^ (0 + Z.of_nat 31)) 1)) with (2 ^ 32).
        change (wrap64 (2 ^ 32 + 1)) with (2 ^ 32 + 1).
        change (wrap64 ((2 ^ 32 + 1) * (2 ^ 32 + 1))) with (2 ^ 33 + 1).
        assert (H63 : 2 ^ 63 <= x) by (rewrite H64 in Hlo; exact Hlo).
        destruct (Z.leb_spec (2 ^ 33 + 1) x) as [_|Hgt]; [reflexivity|lia].
      + change (Z.of_nat (31 + 1)) with 32. rewrite <- He32, H4e.
        rewrite Z.div_small by lia. lia.
    - assert (He31 : e <= 31) by lia.
      rewrite <- (Nat.add_0_r (Z.to_nat e)).
      rewrite (isqrt_loop_pow2 (Z.to_nat e) 0 x 1 0); try lia.
      + cbn [isqrt_loop]. rewrite Z2Nat.id by lia. reflexivity.
      + rewrite Nat.add_0_r, Z2Nat.id by lia. rewrite H4e.
        rewrite Z.div_small by lia. lia. }
  assert (Hsq : bit_width x <> 64 ->
                2 ^ (bit_width x / 2) * 2 ^ (bit_width x / 2) = 2 ^ bit_width x).
  { intros _. pose proof (Z.div_mod (bit_width x) 2 ltac:(lia)) as Hdm.
    rewrite <- Z.pow_add_r by (apply Z.div_pos; lia). f_equal. lia. }
  split; [exact Hfloor|]. split.
  - unfold isqrt_ceil. rewrite Hfloor.
    destruct (Z.eqb_spec (bit_width x) 64) as [H64|Hn64].
    + change (wrap64 ((2 ^ 32 + 1) * (2 ^ 32 + 1))) with (2 ^ 33 + 1).
      assert (H63 : 2 ^ 63 <= x) by (rewrite H64 in Hlo; exact Hlo).
      destruct (Z.ltb_spec (2 ^ 33 + 1) x) as [_|Hge]; [reflexivity|lia].
    + rewrite (Hsq Hn64).
      assert (Hp : 2 ^ bit_width x <= 2 ^ 63) by (apply Z.pow_le_mono_r; lia).
      rewrite (wrap64_small (2 ^ bit_width x)) by lia.
      destruct (Z.ltb_spec (2 ^ bit_width x) x) as [Hlt|_]; [lia|].
      simpl b2z. rewrite Z.add_0_r. apply wrap64_small.
      assert (2 ^ (bit_width x / 2) <= 2 ^ 32).
      { apply Z.pow_le_mono_r; [lia|]. apply Z.div_le_upper_bound; lia. }
      pose proof (Z.pow_pos_nonneg 2 (bit_width x / 2) ltac:(lia)
                    ltac:(apply Z.div_pos; lia)). lia.
  - rewrite Hfloor.
    destruct (Z.eqb_spec (bit_width x) 64) as [H64|Hn64]; [lia|].
    rewrite (Hsq Hn64). exact Hhi.
Qed.

Lemma isqrt_on_even_width_witness :
  isqrt_floor 40 = (if bit_width 40 =? 64 then 2 ^ 32 + 1 else 2 ^ (bit_width 40 / 2))
  /\ isqrt_ceil 40 = (if bit_width 40 =? 64 then 2 ^ 32 + 2 else 2 ^ (bit_width 40 / 2))
  /\ 40 < isqrt_floor 40 * isqrt_floor 40.
Proof.
  apply (isqrt_on_even_width 40); [lia|reflexivity].
Defined.

(** ** Further properties of [is_prime] and of the prime searches *)

(** X4. [is_prime] has no false positive on any 64-bit input, and exactly two
    false negatives: an accepted number is a prime of at least 5, and a
    rejected prime is 2 or 3. *)
Theorem is_prime_errs_only_on_2_and_3 (fuel : nat) (p : Z) (b : bool) :
  0 <= p < 2 ^ 64 -> is_prime fuel p = Some b ->
  (b = true -> Z.prime p /\ 5 <= p)
  /\ (b = false -> Z.prime p -> p = 2 \/ p = 3).
Proof.
  intros Hp Hrun.
  assert (Hsays : is_prime_says p b) by (exists fuel; exact Hrun).
  split.
  - intros ->.
    pose proof (is_prime_says_true_ge5 p Hp Hsays) as H5.
    split; [|exact H5].
    apply (is_prime_true_prime fuel p); [lia|exact Hrun].
  - intros -> Hprime.
    destruct (Z.eq_dec p 3) as [H3|Hn3]; [now right|left].
    destruct (is_prime_says_correct p false Hp Hn3 Hsays) as [_ Hback].
    destruct (Z.eq_dec p 2) as [H2|Hn2]; [exact H2|].
    specialize (Hback (conj Hprime Hn2)). discriminate Hback.
Qed.

Lemma is_prime_errs_only_on_2_and_3_witness :
  (false = true -> Z.prime 3 /\ 5 <= 3)
  /\ (false = false -> Z.prime 3 -> 3 = 2 \/ 3 = 3).
Proof.
  apply (is_prime_errs_only_on_2_and_3 60 3 false); [lia|vm_compute; reflexivity].
Defined.

(** X5. [is_prime] returns on every 64-bit input, and each of its two loops
    makes fewer than [isqrt_ceil p + 55] rounds, which is at most
    [2^33 + 56]: a fuel of that size is always enough. *)
Theorem is_prime_rounds_bounded (fuel : nat) (p : Z) :
  0 <= p < 2 ^ 64 -> isqrt_ceil p + 55 <= Z.of_nat fuel ->
  isqrt_ceil p + 55 <= 2 ^ 33 + 56
  /\ exists b, is_prime fuel p = Some b.
Proof.
  intros Hp Hfuel. split.
  - pose proof (isqrt_ceil_upper p Hp) as Hc. cbn zeta in Hc. lia.
  - exact (is_prime_total fuel p Hp Hfuel).
Qed.

Lemma is_prime_rounds_bounded_witness :
  isqrt_ceil 10007 + 55 <= 2 ^ 33 + 56
  /\ exists b, is_prime 200 10007 = Some b.
Proof.
  apply (is_prime_rounds_bounded 200 10007); [lia|vm_compute; discriminate].
Defined.

(** X6. For every 64-bit [p] of at least 5, [prime_predecessor p] returns
    the largest prime not above [p]. *)
Theorem prime_predecessor_is_largest_prime (p : Z) :
  5 <= p < 2 ^ 64 ->
  (exists fuel r, prime_predecessor fuel p = Some r)
  /\ forall fuel r,
      prime_predecessor fuel p = Some r ->
      Z.prime r /\ 5 <= r <= p /\ forall q, Z.prime q -> q <= p -> q <= r.
Proof.
  intros Hp. split.
  - apply prime_predecessor_total. lia.
  - intros fuel r Hrun. exact (prime_predecessor_largest fuel p r Hp Hrun).
Qed.

Lemma prime_predecessor_is_largest_prime_witness :
  (exists fuel r, prime_predecessor fuel 100 = Some r)
  /\ forall fuel r,
      prime_predecessor fuel 100 = Some r ->
      Z.prime r /\ 5 <= r <= 100 /\ forall q, Z.prime q -> q <= 100 -> q <= r.
Proof. apply (prime_predecessor_is_largest_prime 100). lia. Defined.

(** X7. [prime_predecessor] returns on every 64-bit input: 0 for 0, 2 for 2,
    and otherwise a prime of at least 5; for the inputs 1, 3 and 4 the
    search passes below 5, wraps around and returns [2^64 - 59], the largest
    64-bit prime. *)
Theorem prime_predecessor_on_every_input (p : Z) :
  0 <= p < 2 ^ 64 ->
  (exists fuel r, prime_predecessor fuel p = Some r)
  /\ forall fuel r,
      prime_predecessor fuel p = Some r ->
      0 <= r < 2 ^ 64
      /\ (p = 0 -> r = 0) /\ (p = 2 -> r = 2)
      /\ (p <> 0 -> p <> 2 -> Z.prime r /\ 5 <= r)
      /\ (p = 1 \/ p = 3 \/ p = 4 -> r = 2 ^ 64 - 59).
Proof.
  intros Hp. split; [now apply prime_predecessor_total|].
  intros fuel r Hrun.
  destruct (prime_predecessor_spec fuel p r Hp Hrun) as (Hr & _ & Hcases).
  split; [exact Hr|].
  split; [|split; [|split]].
  - intros H0. destruct Hcases as [[_ E] | [[E _] | (E & _)]]; [exact E|lia|contradiction].
  - intros H2. destruct Hcases as [[E _] | [[_ E] | (_ & E & _)]]; [lia|exact E|contradiction].
  - intros Hn0 Hn2.
    destruct Hcases as [[E _] | [[E _] | (_ & _ & Hsays)]]; [contradiction|contradiction|].
    pose proof (is_prime_says_true_ge5 r Hr Hsays) as H5.
    destruct Hsays as (f & Hf).
    split; [|exact H5]. apply (is_prime_true_prime f r); [lia|exact Hf].
  - intros Hsmall. exact (prime_predecessor_below_5 fuel p r Hsmall Hrun).
Qed.

Lemma prime_predecessor_on_every_input_witness :
  (exists fuel r, prime_predecessor fuel 4 = Some r)
  /\ forall fuel r,
      prime_predecessor fuel 4 = Some r ->
      0 <= r < 2 ^ 64
      /\ (4 = 0 -> r = 0) /\ (4 = 2 -> r = 2)
      /\ (4 <> 0 -> 4 <> 2 -> Z.prime r /\ 5 <= r)
      /\ (4 = 1 \/ 4 = 3 \/ 4 = 4 -> r = 2 ^ 64 - 59).
Proof. apply (prime_predecessor_on_every_input 4). lia. Defined.

(** X8. For every 64-bit universe of at least 7, on the table or not,
    [prev_prime_3mod4] returns the largest prime not above the universe that
    is 3 modulo 4. *)
Theorem prev_prime_3mod4_is_largest (universe : Z) :
  7 <= universe < 2 ^ 64 ->
  (exists fuel r, prev_prime_3mod4 fuel universe = Some r)
  /\ forall fuel r,
      prev_prime_3mod4 fuel universe = Some r ->
      Z.prime r /\ r mod 4 = 3 /\ 7 <= r <= universe
      /\ forall q, Z.prime q -> q mod 4 = 3 -> q <= universe -> q <= r.
Proof.
  intros Hu. split.
  - apply prev_prime_3mod4_total. lia.
  - intros fuel r Hrun. exact (prev_prime_3mod4_from_7 fuel universe r Hu Hrun).
Qed.

Lemma prev_prime_3mod4_is_largest_witness :
  (exists fuel r, prev_prime_3mod4 fuel 100 = Some r)
  /\ forall fuel r,
      prev_prime_3mod4 fuel 100 = Some r ->
      Z.prime r /\ r mod 4 = 3 /\ 7 <= r <= 100
      /\ forall q, Z.prime q -> q mod 4 = 3 -> q <= 100 -> q <= r.
Proof. apply (prev_prime_3mod4_is_largest 100). lia. Defined.

(** X9. [prev_prime_3mod4] returns on every 64-bit universe, and what it
    returns is always a prime that is 3 modulo 4 and at least 7; it is not
    above the universe when the universe is at least 7, and it is
    [2^64 - 189] for each of the universes 0 to 6. *)
Theorem prev_prime_3mod4_on_every_universe (universe : Z) :
  0 <= universe < 2 ^ 64 ->
  (exists fuel r, prev_prime_3mod4 fuel universe = Some r)
  /\ forall fuel r,
      prev_prime_3mod4 fuel universe = Some r ->
      Z.prime r /\ r mod 4 = 3 /\ 7 <= r < 2 ^ 64
      /\ (7 <= universe -> r <= universe)
      /\ (universe <= 6 -> r = 2 ^ 64 - 189).
Proof.
  intros Hu. split; [now apply prev_prime_3mod4_total|].
  intros fuel r Hrun.
  destruct (Z_le_gt_dec universe 6) as [Hsmall|Hbig].
  - pose proof (prev_prime_3mod4_below_7 fuel universe r ltac:(lia) Hrun) as Hr.
    change 0xFFFFFFFFFFFFFF43 with (2 ^ 64 - 189) in Hr. subst r.
    split; [exact table_prime_64|].
    split; [reflexivity|]. split; [lia|]. split; [lia|reflexivity].
  - destruct (prev_prime_3mod4_from_7 fuel universe r ltac:(lia) Hrun)
      as (Hpr & H3 & Hr & _).
    split; [exact Hpr|]. split; [exact H3|]. split; [lia|]. split; lia.
Qed.

Lemma prev_prime_3mod4_on_every_universe_witness :
  (exists fuel r, prev_prime_3mod4 fuel 5 = Some r)
  /\ forall fuel r,
      prev_prime_3mod4 fuel 5 = Some r ->
      Z.prime r /\ r mod 4 = 3 /\ 7 <= r < 2 ^ 64
      /\ (7 <= 5 -> r <= 5)
      /\ (5 <= 6 -> r = 2 ^ 64 - 189).
Proof. apply (prev_prime_3mod4_on_every_universe 5). lia. Defined.

(** The search that follows the lookup, on its own. *)
Lemma prev_prime_3mod4_unfold fuel universe :
  prev_prime_3mod4 fuel universe
  = match common_lookup common_universes universe with
    | Some p => Some p
    | None => prev_prime_3mod4_search fuel universe
    end.
Proof. reflexivity. Qed.

Lemma prev_prime_3mod4_search_total universe :
  0 <= universe < 2 ^ 64 ->
  exists fuel r, prev_prime_3mod4_search fuel universe = Some r.
Proof.
  intros Hu. unfold prev_prime_3mod4_search.
  destruct (prime_predecessor_total universe Hu) as (f0 & p & Hp).
  destruct (prime_predecessor_spec f0 _ p Hu Hp) as (Hpr & _ & _).
  destruct (prev_prime_3mod4_loop_total (dist7 p) (proj1 (dist7_range p)) p Hpr eq_refl)
    as (f1 & r & Hr).
  exists (Nat.max f0 f1), r.
  rewrite (prime_predecessor_mono f0 (Nat.max f0 f1) _ p Hp ltac:(lia)).
  cbn [bind]. eapply prev_prime_3mod4_loop_mono; [exact Hr|lia].
Qed.

Lemma prev_prime_3mod4_search_largest fuel universe r :
  7 <= universe < 2 ^ 64 ->
  prev_prime_3mod4_search fuel universe = Some r ->
  Z.prime r /\ r mod 4 = 3 /\ 7 <= r <= universe
  /\ forall q, Z.prime q -> q mod 4 = 3 -> q <= universe -> q <= r.
Proof.
  intros Hu Hrun. unfold prev_prime_3mod4_search in Hrun.
  destruct (prime_predecessor fuel universe) as [p|] eqn:Ep; [|discriminate].
  cbn [bind] in Hrun.
  destruct (prime_predecessor_largest fuel universe p ltac:(lia) Ep)
    as (Hpr & Hp & Hmax).
  assert (H7 : 7 <= p).
  { apply Hmax; [apply trial_prime_sound; vm_compute; reflexivity|lia]. }
  apply (prev_prime_3mod4_loop_largest universe fuel p r); try assumption; try lia.
  intros q Hq _ Hqu. now apply Hmax.
Qed.

(** X10. The table [common_universes] is an optimisation only: for every
    universe it holds, the search that the lookup replaces terminates and
    returns the prime of the table. *)
Theorem common_universes_only_saves_the_search (universe r : Z) :
  common_lookup common_universes universe = Some r ->
  (forall fuel, prev_prime_3mod4 fuel universe = Some r)
  /\ (exists fuel r', prev_prime_3mod4_search fuel universe = Some r')
  /\ forall fuel r', prev_prime_3mod4_search fuel universe = Some r' -> r' = r.
Proof.
  intros Htbl.
  destruct (common_lookup_bounds universe r Htbl) as (H7 & Hru & _ & Hu64).
  destruct (common_lookup_largest universe r Htbl) as (Hpr & H3 & Hr & Hmax).
  split; [|split].
  - intros fuel. rewrite prev_prime_3mod4_unfold, Htbl. reflexivity.
  - apply prev_prime_3mod4_search_total. lia.
  - intros fuel r' Hrun.
    destruct (prev_prime_3mod4_search_largest fuel universe r' ltac:(lia) Hrun)
      as (Hpr' & H3' & Hr' & Hmax').
    pose proof (Hmax r' Hpr' H3' ltac:(lia)).
    pose proof (Hmax' r Hpr H3 ltac:(lia)). lia.
Qed.

Lemma common_universes_only_saves_the_search_witness :
  (forall fuel, prev_prime_3mod4 fuel (2 ^ 32 - 1) = Some (2 ^ 32 - 5))
  /\ (exists fuel r', prev_prime_3mod4_search fuel (2 ^ 32 - 1) = Some r')
  /\ forall fuel r', prev_prime_3mod4_search fuel (2 ^ 32 - 1) = Some r' -> r' = 2 ^ 32 - 5.
Proof.
  apply (common_universes_only_saves_the_search (2 ^ 32 - 1) (2 ^ 32 - 5)).
  vm_compute. reflexivity.
Defined.

(** ** Further properties of the constructor, of [permute] and of the query *)

(** X11. The two XORs of the constructor lose nothing of the seed: the
    stored [seed_] is again a 64-bit number, and XOR-ing it with the same
    two constants gives the seed back, so that different seeds are stored as
    different values. *)
Theorem constructor_seed_recoverable (fuel : nat) (universe seed : Z)
        (P : RandomPermutation) :
  0 <= seed < 2 ^ 64 ->
  RandomPermutation_new fuel universe seed = Some P ->
  0 <= seed_ P < 2 ^ 64
  /\ Z.lxor (Z.lxor (seed_ P) SHUFFLE1) SHUFFLE2 = seed
  /\ forall fuel' seed' P',
      RandomPermutation_new fuel' universe seed' = Some P' ->
      seed_ P' = seed_ P -> seed' = seed.
Proof.
  intros Hseed Hnew.
  assert (Hback : forall s, Z.lxor (Z.lxor (seed_internal s) SHUFFLE1) SHUFFLE2 = s).
  { intros s. unfold seed_internal. fold SHUFFLE1 SHUFFLE2.
    rewrite (Z.lxor_assoc s SHUFFLE1 SHUFFLE2).
    rewrite (Z.lxor_assoc s (Z.lxor SHUFFLE1 SHUFFLE2) SHUFFLE1).
    rewrite (Z.lxor_assoc s _ SHUFFLE2).
    replace (Z.lxor (Z.lxor (Z.lxor SHUFFLE1 SHUFFLE2) SHUFFLE1) SHUFFLE2) with 0
      by (vm_compute; reflexivity).
    apply Z.lxor_0_r. }
  destruct (RandomPermutation_new_fields _ _ _ _ Hnew) as (_ & HS & _).
  split; [rewrite HS; now apply seed_internal_u64|].
  split; [rewrite HS; apply Hback|].
  intros fuel' seed' P' Hnew' Heq.
  destruct (RandomPermutation_new_fields _ _ _ _ Hnew') as (_ & HS' & _).
  rewrite <- (Hback seed'), <- (Hback seed). congruence.
Qed.

Lemma constructor_seed_recoverable_witness :
  0 <= seed_ (mkRandomPermutation 100 0x448002000C001C64 83) < 2 ^ 64
  /\ Z.lxor (Z.lxor (seed_ (mkRandomPermutation 100 0x448002000C001C64 83)) SHUFFLE1)
            SHUFFLE2 = 0
  /\ forall fuel' seed' P',
      RandomPermutation_new fuel' 100 seed' = Some P' ->
      seed_ P' = seed_ (mkRandomPermutation 100 0x448002000C001C64 83) -> seed' = 0.
Proof.
  apply (constructor_seed_recoverable 60 100 0); [lia|vm_compute; reflexivity].
Defined.

(** X12. With a stored prime that is 3 modulo 4 and not above the universe,
    [permute] is a bijection of the whole of [[0, universe)], not only of
    the residues below the prime: it leaves every number from the prime
    upwards where it is, inside the universe and beyond it. *)
Theorem permute_bijection_with_gap (P : RandomPermutation) :
  Z.prime (prime_ P) -> prime_ P mod 4 = 3 ->
  prime_ P <= universe_ P < 2 ^ 64 ->
  bijection_on (universe_ P) (permute P)
  /\ forall x, prime_ P <= x -> permute P x = x.
Proof.
  intros Hpr H3 Hu. split.
  - now apply permute_bijection_universe.
  - intros x Hx. now apply permute_gap.
Qed.

Lemma permute_bijection_with_gap_witness :
  bijection_on (universe_ (mkRandomPermutation 10 0 7))
               (permute (mkRandomPermutation 10 0 7))
  /\ forall x, prime_ (mkRandomPermutation 10 0 7) <= x ->
               permute (mkRandomPermutation 10 0 7) x = x.
Proof.
  apply (permute_bijection_with_gap (mkRandomPermutation 10 0 7)).
  - apply trial_prime_sound. vm_compute. reflexivity.
  - reflexivity.
  - cbn [prime_ universe_]. lia.
Defined.

(** X13. For a permutation constructed over a universe of at least 7, the
    query is defined at every index, inside the universe or not, and its
    value is always inside the universe. *)
Theorem permute_index_stays_in_universe (fuel : nat) (universe seed : Z)
        (P : RandomPermutation) (i : Z) :
  7 <= universe < 2 ^ 64 ->
  RandomPermutation_new fuel universe seed = Some P ->
  exists v, permute_index P i = Some v /\ 0 <= v < universe.
Proof.
  intros Hu Hnew. exact (permute_index_in_universe fuel universe seed P i Hu Hnew).
Qed.

Lemma permute_index_stays_in_universe_witness :
  exists v, permute_index (mkRandomPermutation 100 0x448002000C001C64 83) 12345 = Some v
            /\ 0 <= v < 100.
Proof.
  apply (permute_index_stays_in_universe 60 100 0); [lia|vm_compute; reflexivity].
Defined.

(** When the universe divides [2^64], the 64-bit wrap of the seed offset is
    invisible modulo the universe. *)
Lemma offset_bijection_divides s u :
  1 <= u -> 2 ^ 64 mod u = 0 ->
  bijection_on u (fun j => wrap64 (s + j) mod u).
Proof.
  intros Hu Hdiv.
  assert (Hmm : forall z, wrap64 z mod u = z mod u).
  { intros z. unfold wrap64. apply Z.mod_mod_divide.
    apply Z.mod_divide in Hdiv; [exact Hdiv|lia]. }
  assert (Hrange : forall x, 0 <= x < u -> 0 <= wrap64 (s + x) mod u < u).
  { intros x Hx. apply Z.mod_pos_bound. lia. }
  assert (Hinj : forall x y, 0 <= x < u -> 0 <= y < u ->
                             wrap64 (s + x) mod u = wrap64 (s + y) mod u -> x = y).
  { intros x y Hx Hy. rewrite !Hmm. intros Heq.
    assert (Hd : (u | (s + x) - (s + y))).
    { apply Z.mod_divide; [lia|]. rewrite Zminus_mod, Heq, Z.sub_diag. reflexivity. }
    replace (s + x - (s + y)) with (x - y) in Hd by ring.
    destruct (Z.eq_dec x y) as [|Hne]; [assumption|exfalso].
    apply Z.absle_divide in Hd; lia. }
  split; [assumption|]. split; [assumption|].
  apply injective_on_surjective; [lia|assumption|assumption].
Qed.

(** When the sum can wrap and the universe does not divide [2^64], two
    offsets of the universe meet: with [t = 2^64 - s], [c = 2^64 mod u] and
    [d = min c t], the offsets [t - d] (not wrapped) and [t + c - d]
    (wrapped) both land on [c - d]. *)
Lemma offset_collision s u :
  0 <= s < 2 ^ 64 -> 1 <= u < 2 ^ 64 -> 2 ^ 64 < s + u -> 2 ^ 64 mod u <> 0 ->
  exists j1 j2,
    0 <= j1 < j2 /\ j2 < u /\ wrap64 (s + j1) mod u = wrap64 (s + j2) mod u.
Proof.
  intros Hs Hu Hwrap Hnd.
  pose proof (Z.mod_pos_bound (2 ^ 64) u ltac:(lia)) as Hc.
  pose proof (Z.div_mod (2 ^ 64) u ltac:(lia)) as Hdm.
  set (c := 2 ^ 64 mod u) in *.
  set (q := 2 ^ 64 / u) in *.
  set (t := 2 ^ 64 - s).
  set (d := Z.min c t).
  assert (Hd : 1 <= d /\ d <= c /\ d <= t) by (unfold d, t; lia).
  assert (Hcd : c - d < u - t) by (unfold d, t in *; lia).
  exists (t - d), (t + (c - d)).
  split; [unfold t in *; lia|]. split; [lia|].
  assert (E1 : wrap64 (s + (t - d)) = 2 ^ 64 - d).
  { rewrite wrap64_small by (unfold t in *; lia). unfold t. lia. }
  assert (E2 : wrap64 (s + (t + (c - d))) = c - d).
  { replace (s + (t + (c - d))) with ((c - d) + 1 * 2 ^ 64) by (unfold t; lia).
    unfold wrap64. rewrite Z.mod_add by lia. apply Z.mod_small. lia. }
  rewrite E1, E2.
  replace (2 ^ 64 - d) with ((c - d) + q * u) by lia.
  rewrite Z.mod_add by lia. reflexivity.
Qed.

(** The query of a permutation constructed over a universe of at least 7 is
    a bijection of the universe when the seed offset cannot wrap, and when
    the universe divides [2^64]. *)
Lemma permute_index_bijection_safe fuel universe seed P :
  7 <= universe < 2 ^ 64 -> 0 <= seed < 2 ^ 64 ->
  RandomPermutation_new fuel universe seed = Some P ->
  seed_ P + universe <= 2 ^ 64 \/ 2 ^ 64 mod universe = 0 ->
  exists f, (forall i, permute_index P i = Some (f i)) /\ bijection_on universe f.
Proof.
  intros Hu Hseed Hnew Hsafe.
  destruct (RandomPermutation_new_fields _ _ _ _ Hnew) as (_ & HS & _).
  destruct (constructed_prime_from_7 _ _ _ _ Hu Hnew) as (HU & Hpr & H3 & Hp & _).
  pose proof (seed_internal_u64 seed Hseed) as Hs64. rewrite <- HS in Hs64.
  assert (Hb : bijection_on universe (permute P)).
  { rewrite <- HU. apply permute_bijection_universe; rewrite ?HU; try assumption; lia. }
  exists (fun i => permute P (wrap64 (seed_ P + permute P i) mod universe)).
  split.
  - intros i. unfold permute_index. rewrite HU.
    destruct (Z.eqb_spec universe 0); [lia|reflexivity].
  - assert (Ho : bijection_on universe (fun j => wrap64 (seed_ P + j) mod universe)).
    { destruct Hsafe as [Hle|Hdiv].
      - apply offset_bijection; lia.
      - apply offset_bijection_divides; [lia|exact Hdiv]. }
    exact (bijection_on_compose _ _ _ (bijection_on_compose _ _ _ Hb Ho) Hb).
Qed.

(** X14. Exactly which seeds are safe.  For a permutation constructed over a
    universe of at least 7, the query is a bijection of [[0, universe)] if
    and only if the 64-bit sum of the stored seed and an offset below the
    universe cannot wrap, or the universe divides [2^64] (a power of two),
    in which case the wrap does no harm. *)
Theorem permute_index_bijection_iff (fuel : nat) (universe seed : Z)
        (P : RandomPermutation) :
  7 <= universe < 2 ^ 64 -> 0 <= seed < 2 ^ 64 ->
  RandomPermutation_new fuel universe seed = Some P ->
  (exists f, (forall i, permute_index P i = Some (f i)) /\ bijection_on universe f)
  <-> (seed_ P + universe <= 2 ^ 64 \/ 2 ^ 64 mod universe = 0).
Proof.
  intros Hu Hseed Hnew.
  destruct (RandomPermutation_new_fields _ _ _ _ Hnew) as (_ & HS & _).
  destruct (constructed_prime_from_7 _ _ _ _ Hu Hnew) as (HU & Hpr & H3 & Hp & _).
  pose proof (seed_internal_u64 seed Hseed) as Hs64. rewrite <- HS in Hs64.
  assert (Hb : bijection_on universe (permute P)).
  { rewrite <- HU. apply permute_bijection_universe; rewrite ?HU; try assumption; lia. }
  assert (Hq : forall i, permute_index P i
                         = Some (permute P (wrap64 (seed_ P + permute P i) mod universe))).
  { intros i. unfold permute_index. rewrite HU.
    destruct (Z.eqb_spec universe 0); [lia|reflexivity]. }
  split.
  - intros (f & Hf & Hfb).
    destruct (Z_le_gt_dec (seed_ P + universe) (2 ^ 64)) as [Hle|Hgt]; [now left|right].
    destruct (Z.eq_dec (2 ^ 64 mod universe) 0) as [Hz|Hnz]; [exact Hz|exfalso].
    destruct (offset_collision (seed_ P) universe Hs64 ltac:(lia) ltac:(lia) Hnz)
      as (j1 & j2 & Hj1 & Hj2 & Hmeet).
    destruct Hb as (_ & _ & Hsurj).
    destruct (Hsurj j1 ltac:(lia)) as (i1 & Hi1 & E1).
    destruct (Hsurj j2 ltac:(lia)) as (i2 & Hi2 & E2).
    assert (Hsame : f i1 = f i2).
    { pose proof (Hf i1) as F1. pose proof (Hf i2) as F2.
      rewrite Hq, E1 in F1. rewrite Hq, E2, <- Hmeet in F2. congruence. }
    destruct Hfb as (_ & Hinj & _).
    pose proof (Hinj i1 i2 Hi1 Hi2 Hsame). subst i2. lia.
  - intros Hsafe.
    exact (permute_index_bijection_safe fuel universe seed P Hu Hseed Hnew Hsafe).
Qed.

Lemma permute_index_bijection_iff_witness :
  (exists f, (forall i, permute_index (mkRandomPermutation 8 (2 ^ 64 - 1) 7) i = Some (f i))
             /\ bijection_on 8 f)
  <-> (seed_ (mkRandomPermutation 8 (2 ^ 64 - 1) 7) + 8 <= 2 ^ 64 \/ 2 ^ 64 mod 8 = 0).
Proof.
  apply (permute_index_bijection_iff 60 8 0xBB7FFDFFF3FFE39B);
    [lia|lia|vm_compute; reflexivity].
Defined.

(** ** Iteration from [at(k)] *)

Lemma zrange_succ first count :
  zrange (S first) count = map (fun j => j + 1) (zrange first count).
Proof.
  unfold zrange. rewrite <- seq_shift, !map_map.
  apply map_ext. intros k. lia.
Qed.

Lemma wrap64_succ_l x j : wrap64 (wrap64 (x + 1) + j) = wrap64 (x + (j + 1)).
Proof.
  unfold wrap64. rewrite Zplus_mod_idemp_l. f_equal. lia.
Qed.

Lemma cursors_after_succ P x n :
  cursors_after P x (S n)
  = mkIterator P (wrap64 (x + 1)) false :: cursors_after P (wrap64 (x + 1)) n.
Proof.
  unfold cursors_after.
  change (zrange 1 (S n)) with (Z.of_nat 1 :: zrange 2 n).
  cbn [map]. f_equal.
  rewrite (zrange_succ 1 n), map_map.
  apply map_ext. intros j. now rewrite wrap64_succ_l.
Qed.

(** A cursor at [x] that is not the end cursor, [n] steps before the index
    [universe_] on the 64-bit circle: the loop meets it and the [n] cursors
    that follow, and stops after the one at [universe_]. *)
Lemma iterate_circle P (n : nat) :
  forall x f fuel,
    0 <= universe_ P < 2 ^ 64 -> 0 <= x < 2 ^ 64 ->
    wrap64 (universe_ P - x) = Z.of_nat n ->
    f = false \/ x <> wrap64 (universe_ P + 1) ->
    (n + 2 <= fuel)%nat ->
    iterate fuel (mkIterator P x f) (end_ P)
    = Some (mkIterator P x f :: cursors_after P x n).
Proof.
  induction n as [|n IH]; intros x f fuel Hu Hx Hdist Hne Hfuel.
  - assert (Hxu : x = universe_ P).
    { change (Z.of_nat 0) with 0 in Hdist. unfold wrap64 in Hdist.
      apply Z.mod_divide in Hdist; [|lia].
      destruct (Z.eq_dec x (universe_ P)) as [|Hd]; [assumption|exfalso].
      apply Z.absle_divide in Hdist; lia. }
    destruct fuel as [|[|fuel]]; [lia|lia|].
    cbn [iterate].
    assert (E : Iterator_eqb (mkIterator P x f) (end_ P) = false).
    { destruct Hne as [-> | Hx'].
      - apply Iterator_eqb_overflow.
      - unfold Iterator_eqb, end_. cbn [perm_ x_ overflow_].
        apply Z.eqb_neq in Hx'. rewrite Hx'.
        now rewrite andb_false_r. }
    rewrite E. unfold incr. cbn [perm_ x_ overflow_].
    rewrite Hxu, Z.eqb_refl. fold (end_ P).
    rewrite Iterator_eqb_refl. reflexivity.
  - assert (Hd1 : wrap64 (universe_ P - wrap64 (x + 1)) = Z.of_nat n).
    { pose proof (wrap64_range (universe_ P - x)) as Hr.
      unfold wrap64 in Hdist, Hr |- *. rewrite Zminus_mod_idemp_r.
      replace (universe_ P - (x + 1)) with (universe_ P - x - 1) by lia.
      rewrite <- Zminus_mod_idemp_l, Hdist.
      rewrite Hdist in Hr. rewrite Z.mod_small; lia. }
    assert (Hxu : x <> universe_ P).
    { intros ->. rewrite Z.sub_diag in Hdist. vm_compute in Hdist. lia. }
    destruct fuel as [|fuel]; [lia|].
    cbn [iterate].
    assert (E : Iterator_eqb (mkIterator P x f) (end_ P) = false).
    { destruct Hne as [-> | Hx'].
      - apply Iterator_eqb_overflow.
      - unfold Iterator_eqb, end_. cbn [perm_ x_ overflow_].
        apply Z.eqb_neq in Hx'. rewrite Hx'.
        now rewrite andb_false_r. }
    rewrite E. unfold incr. cbn [perm_ x_ overflow_].
    apply Z.eqb_neq in Hxu. rewrite Hxu.
    rewrite (IH (wrap64 (x + 1)) false fuel Hu (wrap64_range _) Hd1 (or_introl eq_refl))
      by lia.
    cbn [bind]. now rewrite cursors_after_succ.
Qed.

(** X15. A loop from [at(k)] to [end()], for any 64-bit [k] other than
    [universe_ + 1], terminates; the cursors it dereferences are the one at
    [k] and those at the indices that follow on the 64-bit circle up to
    [universe_] itself.  From [k <= universe_] that makes
    [universe_ - k + 1] of them, the last one at the index [universe_]; from
    [k > universe_ + 1] the loop runs on through [2^64 - 1] and 0. *)
Theorem iterate_from_at (P : RandomPermutation) (k : Z) (fuel : nat) :
  0 <= universe_ P < 2 ^ 64 -> 0 <= k < 2 ^ 64 -> k <> universe_ P + 1 ->
  (Z.to_nat (wrap64 (universe_ P - k)) + 2 <= fuel)%nat ->
  iterate fuel (at_ P k) (end_ P)
  = Some (at_ P k :: cursors_after P k (Z.to_nat (wrap64 (universe_ P - k))))
  /\ (k <= universe_ P -> wrap64 (universe_ P - k) = universe_ P - k)
  /\ (universe_ P + 1 < k -> wrap64 (universe_ P - k) = 2 ^ 64 - k + universe_ P).
Proof.
  intros Hu Hk Hne Hfuel. split; [|split].
  - unfold at_, Iterator_new.
    apply iterate_circle; try assumption.
    + rewrite Z2Nat.id; [reflexivity|apply wrap64_range].
    + destruct (Z.gtb_spec k (universe_ P)) as [Hgt|Hle]; [right|now left].
      rewrite wrap64_small by lia. exact Hne.
  - intros Hle. apply wrap64_small. lia.
  - intros Hgt. unfold wrap64.
    replace (universe_ P - k) with (2 ^ 64 - k + universe_ P + (-1) * 2 ^ 64) by lia.
    rewrite Z.mod_add by lia. apply Z.mod_small. lia.
Qed.

Lemma iterate_from_at_witness :
  iterate 10 (at_ (mkRandomPermutation 7 0 7) 5) (end_ (mkRandomPermutation 7 0 7))
  = Some (at_ (mkRandomPermutation 7 0 7) 5
          :: cursors_after (mkRandomPermutation 7 0 7) 5
               (Z.to_nat (wrap64 (universe_ (mkRandomPermutation 7 0 7) - 5))))
  /\ (5 <= universe_ (mkRandomPermutation 7 0 7) ->
      wrap64 (universe_ (mkRandomPermutation 7 0 7) - 5)
      = universe_ (mkRandomPermutation 7 0 7) - 5)
  /\ (universe_ (mkRandomPermutation 7 0 7) + 1 < 5 ->
      wrap64 (universe_ (mkRandomPermutation 7 0 7) - 5)
      = 2 ^ 64 - 5 + universe_ (mkRandomPermutation 7 0 7)).
Proof.
  apply (iterate_from_at (mkRandomPermutation 7 0 7) 5 10);
    cbn [universe_]; try lia.
  vm_compute. lia.
Defined.

(** X16. [at(k)] compares equal to [end()] exactly for [k = universe_ + 1],
    and a loop from there dereferences nothing.  For the universe
    [2^64 - 1] no 64-bit [k] does: there [end()] holds the index 0 with the
    overflow flag, which no constructor call from an index produces. *)
Theorem at_is_end_iff (P : RandomPermutation) (k : Z) :
  0 <= universe_ P < 2 ^ 64 -> 0 <= k < 2 ^ 64 ->
  (Iterator_eqb (at_ P k) (end_ P) = true <-> k = universe_ P + 1)
  /\ (k = universe_ P + 1 ->
      forall fuel, iterate (S fuel) (at_ P k) (end_ P) = Some []).
Proof.
  intros Hu Hk.
  assert (Hiff : Iterator_eqb (at_ P k) (end_ P) = true <-> k = universe_ P + 1).
  { unfold Iterator_eqb, at_, Iterator_new, end_. cbn [perm_ x_ overflow_].
    rewrite RandomPermutation_eqb_refl. cbn [andb].
    destruct (Z.gtb_spec k (universe_ P)) as [Hgt|Hle].
    - rewrite andb_true_r. rewrite Z.eqb_eq.
      rewrite wrap64_small by lia. reflexivity.
    - rewrite andb_false_r. split; [discriminate|lia]. }
  split; [exact Hiff|].
  intros Hk1 fuel. cbn [iterate].
  rewrite (proj2 Hiff Hk1). reflexivity.
Qed.

Lemma at_is_end_iff_witness :
  (Iterator_eqb (at_ (mkRandomPermutation 7 0 7) 8) (end_ (mkRandomPermutation 7 0 7)) = true
   <-> 8 = universe_ (mkRandomPermutation 7 0 7) + 1)
  /\ (8 = universe_ (mkRandomPermutation 7 0 7) + 1 ->
      forall fuel,
        iterate (S fuel) (at_ (mkRandomPermutation 7 0 7) 8)
                (end_ (mkRandomPermutation 7 0 7)) = Some []).
Proof.
  apply (at_is_end_iff (mkRandomPermutation 7 0 7) 8); cbn [universe_]; lia.
Defined.

(** ** The command-line tool: [main] of generate.cpp *)

Example main_small :
  main 60 100 0 5 false = Some (Exit 0 [37; 11; 28; 41; 56] false)
  /\ main 60 100 0 5 true = Some (Exit 0 [37; 11; 28; 41; 56] false)
  /\ main 60 7 0xBB7FFDFFF3FFE39B 3 true = Some (Aborted 3)
  /\ main 60 8 0xBB7FFDFFF3FFE39B 8 true = Some (Exit 0 [7; 0; 2; 1; 5; 4; 3; 6] false)
  /\ main 0 3 5 4 true = Some (Exit (-1) [] true).
Proof. vm_compute. repeat split; reflexivity. Qed.







Lemma print_loop_map P (f : Z -> Z) :
  forall idx,
    (forall i, In i idx -> permute_index P i = Some (f i)) ->
    print_loop P idx = Some (map f idx).
Proof.
  induction idx as [|i idx IH]; intros Hf; [reflexivity|].
  cbn [print_loop map]. rewrite (Hf i (or_introl eq_refl)). cbn [bind].
  rewrite IH by (intros i' Hi'; apply Hf; now right). reflexivity.
Qed.

(** The value of the query as a function, for a universe other than 0. *)
Lemma permute_index_value P i :
  universe_ P <> 0 ->
  permute_index P i
  = Some (permute P (wrap64 (seed_ P + permute P i) mod universe_ P)).
Proof.
  intros Hu. unfold permute_index.
  destruct (Z.eqb_spec (universe_ P) 0); [contradiction|reflexivity].
Qed.


Lemma main_unfold fuel u seed num check P :
  num <= u -> RandomPermutation_new fuel u seed = Some P ->
  main fuel u seed num check
  = match (if check
           then check_loop P (zrange 0 (Z.to_nat u)) (repeat false (Z.to_nat u))
           else Checked) with
    | Checked =>
        match print_loop P (zrange 0 (Z.to_nat num)) with
        | Some out => Some (Exit 0 out false)
        | None => Some UndefinedBehaviour
        end
    | AssertionFailed i => Some (Aborted i)
    | OutOfBounds _ | DivisionByZero => Some UndefinedBehaviour
    end.
Proof.
  intros Hnum Hnew. unfold main.
  destruct (Z.ltb_spec u num) as [Hlt|_]; [lia|].
  rewrite Hnew. reflexivity.
Qed.

Lemma print_loop_defined P num :
  0 <= num <= universe_ P ->
  exists out, print_loop P (zrange 0 (Z.to_nat num)) = Some out
              /\ map Some out = map (permute_index P) (zrange 0 (Z.to_nat num))
              /\ Z.of_nat (length out) = num.
Proof.
  intros Hnum.
  destruct (Z.eq_dec (universe_ P) 0) as [Hz|Hnz].
  - assert (num = 0) by lia. subst num. exists []. repeat split.
  - exists (map (fun i => permute P (wrap64 (seed_ P + permute P i) mod universe_ P))
                (zrange 0 (Z.to_nat num))).
    split; [|split].
    + apply print_loop_map. intros i _. now apply permute_index_value.
    + rewrite map_map. apply map_ext. intros i. symmetry.
      now apply permute_index_value.
    + rewrite length_map, zrange_length. lia.
Qed.

(** X17. Without the check, [main] never ends in undefined behaviour on
    64-bit arguments.  If [u < num] it writes the diagnostic and returns -1
    before anything is constructed; otherwise the constructor returns and
    [main] returns 0 after writing exactly [num] numbers, the values of the
    query at 0, 1, ..., [num - 1] in this order.  The universe 0, for which
    the query would divide by zero, is only accepted with [num = 0]. *)
Theorem main_without_check (u seed num : Z) :
  0 <= u < 2 ^ 64 -> 0 <= num < 2 ^ 64 ->
  (u < num -> forall fuel, main fuel u seed num false = Some (Exit (-1) [] true))
  /\ (num <= u ->
      exists fuel P out,
        RandomPermutation_new fuel u seed = Some P
        /\ main fuel u seed num false = Some (Exit 0 out false)
        /\ map Some out = map (permute_index P) (zrange 0 (Z.to_nat num))
        /\ Z.of_nat (length out) = num).
Proof.
  intros Hu Hnum. split.
  - intros Hlt fuel. unfold main.
    destruct (Z.ltb_spec u num) as [_|Hge]; [reflexivity|lia].
  - intros Hle.
    destruct (RandomPermutation_new_total u seed Hu) as (fuel & P & Hnew).
    destruct (RandomPermutation_new_fields _ _ _ _ Hnew) as (HU & _).
    destruct (print_loop_defined P num ltac:(lia)) as (out & Hout & Hvals & Hlen).
    exists fuel, P, out.
    split; [exact Hnew|]. split; [|split; assumption].
    rewrite (main_unfold fuel u seed num false P Hle Hnew), Hout. reflexivity.
Qed.

Lemma main_without_check_witness :
  (100 < 5 -> forall fuel, main fuel 100 0 5 false = Some (Exit (-1) [] true))
  /\ (5 <= 100 ->
      exists fuel P out,
        RandomPermutation_new fuel 100 0 = Some P
        /\ main fuel 100 0 5 false = Some (Exit 0 out false)
        /\ map Some out = map (permute_index P) (zrange 0 (Z.to_nat 5))
        /\ Z.of_nat (length out) = 5).
Proof. apply (main_without_check 100 0 5); lia. Defined.










